(** * Indentation engine of eslint-plugin-svelte

    A shallow embedding of [src/rules/indent-helpers/index.ts]: the offset
    graph, the ignore registry, the indent resolver, the validator and the
    token stream walker, followed by the properties of the specification
    that concern them.

    Modelling conventions.
    - A token is the value of its [type], [loc] and [range]; the tokens of one
      file have pairwise distinct ranges, so equality of these values is the
      reference identity ([===]) that the JavaScript [Map] and [Set] use.
    - JavaScript numbers that hold offsets, indent sizes and expected indents
      are IEEE-754 doubles: [Number] keeps the integer-valued ones, the two
      infinities and [NaN], with the rounding of [*] and [+] written out;
      lines and columns are naturals.
    - Source text is a [string] of 8-bit code units.
    - The closure state of [defineVisitor] ([offsets], [ignoreTokens]) and the
      diagnostics handed to [context.report] form an explicit [State] that is
      threaded through a small state monad; an uncaught exception (the
      [TypeError] of a line that does not exist, the [RangeError] of
      [repeat]) and an unbounded recursion are outcomes of their own. *)

From Stdlib Require Import ZArith Ascii String List.
From stdpp Require Import base decidable countable gmap strings list.

Local Open Scope Z_scope.

(** ** Tokens, nodes and source code (the tree/token producer's data) *)

Record Position := mkPosition { line : nat; column : nat }.

Record SourceLocation := mkLoc { start : Position; end_ : Position }.

Record Token := mkToken {
  type : string;
  loc : SourceLocation;
  range : nat * nat
}.

Record ASTNode := mkNode {
  node_type : string;
  node_range : nat * nat
}.

#[global] Instance Position_eq_dec : EqDecision Position.
Proof. solve_decision. Defined.

#[global] Instance SourceLocation_eq_dec : EqDecision SourceLocation.
Proof. solve_decision. Defined.

#[global] Instance Token_eq_dec : EqDecision Token.
Proof. solve_decision. Defined.

#[global] Instance Position_countable : Countable Position.
Proof.
  apply (inj_countable' (fun p => (line p, column p))
                        (fun q => mkPosition q.1 q.2)).
  by intros [].
Defined.

#[global] Instance SourceLocation_countable : Countable SourceLocation.
Proof.
  apply (inj_countable' (fun l => (start l, end_ l))
                        (fun q => mkLoc q.1 q.2)).
  by intros [].
Defined.

#[global] Instance Token_countable : Countable Token.
Proof.
  apply (inj_countable' (fun t => (type t, loc t, range t))
                        (fun q => mkToken q.1.1 q.1.2 q.2)).
  by intros [].
Defined.

(** [sourceCode]: its [lines], [getIndexFromLoc] and [getTokens(node, opts)];
    the second argument of [getTokens] is the [includeComments] option.
    [stringLimit] is the length of the longest string that the JavaScript
    engine holding these lines agrees to build (2^29 - 24 or 2^30 - 25 code
    units in V8, by version and word size). *)
Record SourceCode := mkSourceCode {
  lines : list string;
  getIndexFromLoc : Position -> nat;
  getTokens : ASTNode -> bool -> list Token;
  stringLimit : Z
}.

(** The longest string of the engine: no line it holds is longer. *)
Definition maxStringLength (sourceCode : SourceCode) : Z :=
  Z.max (stringLimit sourceCode)
        (Z.of_nat (max_list (String.length <$> lines sourceCode))).

(** ** JavaScript numbers *)

(** The numbers of the engine are offsets and indent sizes, which the rule's
    handlers and options give as integers, and products and sums of such:
    doubles with an integer value, the infinities and [NaN]. [Finite z] is
    the double of value [z]. The sign of a zero is not kept: neither [===],
    [String], [repeat] nor [*] and [+] up to that sign tell [-0] from [0]. *)
Inductive Number :=
| Finite (z : Z)
| PosInfinity
| NegInfinity
| NaN.

Coercion Finite : Z >-> Number.

#[global] Instance Number_eq_dec : EqDecision Number.
Proof. solve_decision. Defined.

(** The double nearest to the integer [z], ties to the even significand of
    53 bits; beyond the largest double, an infinity. *)
Definition Number_round (z : Z) : Number :=
  let m := Z.abs z in
  if m <=? 2 ^ 53 then Finite z
  else
    let shift := Z.log2 m - 52 in
    let q := Z.shiftr m shift in
    let r := m - Z.shiftl q shift in
    let half := Z.shiftl 1 (shift - 1) in
    let q' := if (half <? r) || ((r =? half) && Z.odd q) then q + 1 else q in
    let m' := Z.shiftl q' shift in
    if 2 ^ 1024 <=? m' then (if 0 <? z then PosInfinity else NegInfinity)
    else Finite (Z.sgn z * m').

Definition Number_sgn (a : Number) : Z :=
  match a with
  | Finite z => Z.sgn z
  | PosInfinity => 1
  | NegInfinity => -1
  | NaN => 0
  end.

(** [a * b]. *)
Definition Number_mul (a b : Number) : Number :=
  match a, b with
  | NaN, _ | _, NaN => NaN
  | Finite x, Finite y => Number_round (x * y)
  | _, _ =>
      let s := Number_sgn a * Number_sgn b in
      if s =? 0 then NaN else if 0 <? s then PosInfinity else NegInfinity
  end.

(** [a + b]. *)
Definition Number_add (a b : Number) : Number :=
  match a, b with
  | NaN, _ | _, NaN => NaN
  | Finite x, Finite y => Number_round (x + y)
  | PosInfinity, NegInfinity | NegInfinity, PosInfinity => NaN
  | PosInfinity, _ | _, PosInfinity => PosInfinity
  | NegInfinity, _ | _, NegInfinity => NegInfinity
  end.

Arguments Number_round : simpl never.
Arguments Number_mul : simpl never.
Arguments Number_add : simpl never.

(** [a === b]: [NaN] equals nothing. *)
Definition Number_eqb (a b : Number) : bool :=
  match a, b with
  | Finite x, Finite y => x =? y
  | PosInfinity, PosInfinity | NegInfinity, NegInfinity => true
  | _, _ => false
  end.

(** ** Options *)

(** [IndentOptions] (declared in [./commons]). *)
Record IndentOptions := mkIndentOptions {
  indentChar : ascii;
  indentSize : Number;
  switchCase : Number;
  ignoredNodes : list string
}.

(** [Partial<IndentOptions>]. *)
Record PartialIndentOptions := mkPartialIndentOptions {
  d_indentChar : option ascii;
  d_indentSize : option Number;
  d_switchCase : option Number;
  d_ignoredNodes : option (list string)
}.

(** [indent?: number | "tab"]. *)
Inductive IndentValue :=
| IndentNumber (n : Number)
| IndentTab.

Record IndentUserOptions := mkIndentUserOptions {
  indent : option IndentValue;
  u_switchCase : option Number;
  u_ignoredNodes : option (list string)
}.

Definition MAX_SAFE_INTEGER : Z := 2 ^ 53 - 1.

Definition Number_isSafeInteger (n : Number) : bool :=
  match n with
  | Finite z => (- MAX_SAFE_INTEGER <=? z) && (z <=? MAX_SAFE_INTEGER)
  | _ => false
  end.

Definition tab : ascii := ascii_of_nat 9.
Definition space : ascii := ascii_of_nat 32.

Definition parseOptions (options : IndentUserOptions)
    (defaultOptions : PartialIndentOptions) : IndentOptions :=
  let ret :=
    {| indentChar := default space (d_indentChar defaultOptions);
       indentSize := default (Finite 2) (d_indentSize defaultOptions);
       switchCase := default (Finite 1) (d_switchCase defaultOptions);
       ignoredNodes := default [] (d_ignoredNodes defaultOptions) |} in
  let ret :=
    match indent options with
    | Some (IndentNumber n) =>
        if Number_isSafeInteger n
        then {| indentChar := indentChar ret; indentSize := n;
                switchCase := switchCase ret; ignoredNodes := ignoredNodes ret |}
        else ret
    | Some IndentTab =>
        {| indentChar := tab; indentSize := 1;
           switchCase := switchCase ret; ignoredNodes := ignoredNodes ret |}
    | None => ret
    end in
  let ret :=
    match u_switchCase options with
    | Some n =>
        if Number_isSafeInteger n
        then {| indentChar := indentChar ret; indentSize := indentSize ret;
                switchCase := n; ignoredNodes := ignoredNodes ret |}
        else ret
    | None => ret
    end in
  match u_ignoredNodes options with
  | Some l =>
      {| indentChar := indentChar ret; indentSize := indentSize ret;
         switchCase := switchCase ret; ignoredNodes := l |}
  | None => ret
  end.

(** ** The offset graph, the ignore registry and the reports *)

(** An entry of [offsets]: the two variants of the union type, each with the
    optional [expectedIndent]. *)
Inductive OffsetInfo :=
| Relative (baseToken : Token) (offset : Number) (expectedIndent : option Number)
| Baseline (offset : Number) (expectedIndent : option Number).

Definition offset_of (info : OffsetInfo) : Number :=
  match info with Relative _ o _ | Baseline o _ => o end.

Definition expectedIndent_of (info : OffsetInfo) : option Number :=
  match info with Relative _ _ e | Baseline _ e => e end.

Definition with_expectedIndent (info : OffsetInfo) (e : option Number)
    : OffsetInfo :=
  match info with
  | Relative b o _ => Relative b o e
  | Baseline o _ => Baseline o e
  end.

(** What [fixer.replaceTextRange] is given. *)
Record TextEdit := mkTextEdit {
  edit_range : nat * nat;
  edit_text : string
}.

(** A value of the [data] of a report: a string that the code spells out, or
    [String(n)] of a number, which is kept as the number it prints. *)
Inductive DataValue :=
| Text (s : string)
| String_of (n : Number).

Coercion Text : string >-> DataValue.

(** The argument of [context.report]. [fix_] is the result of calling the
    [fix] callback: [None] when the callback throws. *)
Record Report := mkReport {
  report_loc : SourceLocation;
  messageId : string;
  data : list (string * DataValue);
  fix_ : option TextEdit
}.

Record State := mkState {
  offsets : gmap Token OffsetInfo;
  ignoreTokens : gset Token;
  reports : list Report
}.

(** The state [defineVisitor] starts from: [new Map()], [new Set()], and no
    report made. *)
Definition initial_state : State :=
  {| offsets := ∅; ignoreTokens := ∅; reports := [] |}.

(** ** The monad of the closure's functions *)

Inductive Outcome (A : Type) :=
| Done (a : A) (st : State)
| Throws
| OutOfFuel.
Arguments Done {A} a st.
Arguments Throws {A}.
Arguments OutOfFuel {A}.

(** The state an action ends in, when it returns. *)
Definition outcome_state {A} (o : Outcome A) : option State :=
  match o with
  | Done _ st => Some st
  | Throws | OutOfFuel => None
  end.

Definition M (A : Type) : Type := State -> Outcome A.

#[global] Instance M_ret : MRet M := fun A a st => Done a st.

#[global] Instance M_bind : MBind M := fun A B f m st =>
  match m st with
  | Done a st' => f a st'
  | Throws => Throws
  | OutOfFuel => OutOfFuel
  end.

Definition throw {A} : M A := fun _ => Throws.
Definition out_of_fuel {A} : M A := fun _ => OutOfFuel.

Definition offsets_get (token : Token) : M (option OffsetInfo) :=
  fun st => Done (offsets st !! token) st.

Definition offsets_set (token : Token) (info : OffsetInfo) : M unit :=
  fun st => Done tt {| offsets := <[token := info]> (offsets st);
                       ignoreTokens := ignoreTokens st;
                       reports := reports st |}.

Definition ignoreTokens_has (token : Token) : M bool :=
  fun st => Done (bool_decide (token ∈ ignoreTokens st)) st.

Definition ignoreTokens_add (token : Token) : M unit :=
  fun st => Done tt {| offsets := offsets st;
                       ignoreTokens := {[token]} ∪ ignoreTokens st;
                       reports := reports st |}.

(** [context.report(r)]. The host calls the [fix] callback of [r] before
    [context.report] returns: what the callback throws leaves
    [context.report], and the report is not made. *)
Definition context_report (r : Report) : M unit :=
  fun st =>
    match fix_ r with
    | None => Throws
    | Some _ =>
        Done tt {| offsets := offsets st;
                   ignoreTokens := ignoreTokens st;
                   reports := reports st ++ [r] |}
    end.

(** [for (const x of l) body(x)]. *)
Fixpoint for_of {A} (l : list A) (body : A -> M unit) : M unit :=
  match l with
  | [] => mret tt
  | x :: l' => body x ≫= fun _ => for_of l' body
  end.

(** [token: AnyToken | null | undefined | (AnyToken | null | undefined)[]]. *)
Inductive TokenArg :=
| Single (t : option Token)
| Array (ts : list (option Token)).

(** ** JavaScript string helpers used by the validator *)

(** White space and line terminators, among 8-bit code units. *)
Definition isWhiteSpace (c : ascii) : bool :=
  let n := nat_of_ascii c in
  ((n =? 9) || (n =? 10) || (n =? 11) || (n =? 12) || (n =? 13) ||
   (n =? 32) || (n =? 160))%nat.

Fixpoint trimStart (s : string) : string :=
  match s with
  | EmptyString => EmptyString
  | String c s' => if isWhiteSpace c then trimStart s' else s
  end.

(** [s.trim()]. *)
Definition trim (s : string) : string :=
  String.rev (trimStart (String.rev (trimStart s))).

(** [s.slice(0, n)] for a natural [n]. *)
Definition slice0 (n : nat) (s : string) : string := substring 0 n s.

Fixpoint repeat_char (c : ascii) (n : nat) : string :=
  match n with
  | O => EmptyString
  | S n' => String c (repeat_char c n')
  end.

(** [c.repeat(count)] where no string is longer than [maxLength]: [NaN]
    counts as 0, and a negative count, an infinite one and a result longer
    than [maxLength] are a [RangeError] ([None]). *)
Definition String_repeat (maxLength : Z) (c : ascii) (count : Number)
    : option string :=
  match count with
  | NaN => Some EmptyString
  | PosInfinity | NegInfinity => None
  | Finite n =>
      if n <? 0 then None
      else if maxLength <? n then None
      else Some (repeat_char c (Z.to_nat n))
  end.

(** [s.endsWith(suffix)]. *)
Definition endsWith (s suffix : string) : bool :=
  let n := String.length s in
  let k := String.length suffix in
  (k <=? n)%nat && String.eqb (substring (n - k) k s) suffix.

Definition hex_digit (n : nat) : ascii :=
  if (n <? 10)%nat then ascii_of_nat (48 + n) else ascii_of_nat (87 + n).

(** [JSON.stringify] of a one-character string. *)
Definition JSON_stringify (c : ascii) : string :=
  let n := nat_of_ascii c in
  let quote := ascii_of_nat 34 in
  let backslash := ascii_of_nat 92 in
  let body :=
    if (n =? 34)%nat then String backslash (String quote EmptyString)
    else if (n =? 92)%nat then String backslash (String backslash EmptyString)
    else if (n =? 8)%nat then String backslash "b"
    else if (n =? 12)%nat then String backslash "f"
    else if (n =? 10)%nat then String backslash "n"
    else if (n =? 13)%nat then String backslash "r"
    else if (n =? 9)%nat then String backslash "t"
    else if (n <? 32)%nat then
      String backslash
        (String "u" (String "0" (String "0"
           (String (hex_digit (n / 16)) (String (hex_digit (n mod 16)) EmptyString)))))
    else String c EmptyString in
  String quote (body +:+ String quote EmptyString).

(** [isCommentToken] of eslint-utils. *)
Definition isCommentToken (token : Token) : bool :=
  String.eqb (type token) "Line" || String.eqb (type token) "Block"
  || String.eqb (type token) "Shebang".

(** What the walker yields. *)
Record LineGroup := mkLineGroup {
  prevComments : list Token;
  tokens : list Token
}.

(** A call that a node handler of [./es] or [./svelte] makes on the
    [indentContext] it is given: these four functions are all it can reach
    of the engine, and none of them returns a value. *)
Inductive IndentCall :=
| CallSetOffset (token : TokenArg) (offset : Number) (baseToken : Token)
| CallCopyOffset (token : TokenArg) (srcToken : Token)
| CallSetOffsetBaseLine (token : TokenArg) (offset : Number)
| CallIgnore (node : ASTNode).

(** A handler table of [./es] or [./svelte]: for each key, the calls its
    handler makes for a node. *)
Abbreviation NodeVisitor := (gmap string (ASTNode -> list IndentCall)).

(** A [RuleListener]. *)
Abbreviation RuleListener := (gmap string (ASTNode -> M unit)).

Record RuleContext := mkRuleContext {
  getFilename : string;
  context_options : list IndentUserOptions;
  getSourceCode : SourceCode
}.

(** ** The functions of the closure of [defineVisitor] *)

Section Engine.

Variable options : IndentOptions.
Variable sourceCode : SourceCode.
(** [isNotWhitespace] of [./ast]. *)
Variable isNotWhitespace : Token -> bool.
(** The depth of recursion the resolver is allowed. *)
Variable fuel : nat.

Definition setOffset_token (token : option Token) (offset : Number)
    (baseToken : Token) : M unit :=
  match token with
  | None => mret tt
  | Some t =>
      if decide (t = baseToken) then mret tt
      else offsets_set t (Relative baseToken offset None)
  end.

Definition setOffset (token : TokenArg) (offset : Number) (baseToken : Token)
    : M unit :=
  match token with
  | Single t => setOffset_token t offset baseToken
  | Array ts => for_of ts (fun t => setOffset_token t offset baseToken)
  end.

Definition setOffsetBaseLine_token (token : option Token) (offset : Number)
    : M unit :=
  match token with
  | None => mret tt
  | Some t => offsets_set t (Baseline offset None)
  end.

Definition setOffsetBaseLine (token : TokenArg) (offset : Number) : M unit :=
  match token with
  | Single t => setOffsetBaseLine_token t offset
  | Array ts => for_of ts (fun t => setOffsetBaseLine_token t offset)
  end.

Definition copyOffset (token : TokenArg) (srcToken : Token) : M unit :=
  match token with
  | Single None => mret tt
  | _ =>
      offsetData ← offsets_get srcToken;
      match offsetData with
      | None => mret tt
      | Some (Relative baseToken offset _) => setOffset token offset baseToken
      | Some (Baseline offset _) => setOffsetBaseLine token offset
      end
  end.

Definition ignore (node : ASTNode) : M unit :=
  for_of (getTokens sourceCode node false) ignoreTokens_add.

Definition getIndentText (p : Position) : M string :=
  match line p with
  | O => throw
  | S l =>
      match lines sourceCode !! l with
      | None => throw
      | Some text => mret (slice0 (column p) text)
      end
  end.

Fixpoint getExpectedIndentFromToken_rec (n : nat) (token : Token)
    : M (option Number) :=
  match n with
  | O => out_of_fuel
  | S n' =>
      offsetInfo ← offsets_get token;
      match offsetInfo with
      | None => mret None
      | Some (Relative _ _ (Some expectedIndent))
      | Some (Baseline _ (Some expectedIndent)) => mret (Some expectedIndent)
      | Some (Baseline offset None) =>
          mret (Some (Number_mul offset (indentSize options)))
      | Some (Relative baseToken offset None) =>
          baseIndent ← getExpectedIndentFromToken_rec n' baseToken;
          match baseIndent with
          | None => mret None
          | Some baseIndent =>
              mret (Some (Number_add baseIndent
                            (Number_mul offset (indentSize options))))
          end
      end
  end.

Definition getExpectedIndentFromToken (token : Token) : M (option Number) :=
  getExpectedIndentFromToken_rec fuel token.

Fixpoint getExpectedIndentFromTokens (tokens : list Token)
    : M (option Number) :=
  match tokens with
  | [] => mret None
  | token :: rest =>
      ignored ← ignoreTokens_has token;
      if ignored : bool then mret None
      else
        expectedIndent ← getExpectedIndentFromToken token;
        match expectedIndent with
        | Some e => mret (Some e)
        | None => getExpectedIndentFromTokens rest
        end
  end.

Definition saveExpectedIndent (tokens : list Token) (expectedIndent : Number)
    : M unit :=
  for_of tokens (fun token =>
    offsetInfo ← offsets_get token;
    match offsetInfo with
    | None => mret tt
    | Some info =>
        match expectedIndent_of info with
        | Some _ => mret tt
        | None => offsets_set token (with_expectedIndent info (Some expectedIndent))
        end
    end).

(** The indexes [i] of [indentText] with [indentText[i] !== indentChar],
    counted from [i]. *)
Fixpoint mismatchCharIndexes_from (i : nat) (indentText : string) : list nat :=
  match indentText with
  | EmptyString => []
  | String c rest =>
      if Ascii.eqb c (indentChar options)
      then mismatchCharIndexes_from (S i) rest
      else i :: mismatchCharIndexes_from (S i) rest
  end.

Definition unitName (c : ascii) : string :=
  if Ascii.eqb c tab then "tab" else "space".

(** [n === 1 ? "" : "s"], the empty string being [EmptyString]. *)
Definition plural (n : Number) : string :=
  if Number_eqb n 1 then EmptyString else "s".

Definition replaceTextRange (loc : SourceLocation) (text : string) : TextEdit :=
  {| edit_range := (getIndexFromLoc sourceCode (start loc),
                    getIndexFromLoc sourceCode (end_ loc));
     edit_text := text |}.

Definition unexpectedIndentation (lineNo actualIndent : nat)
    (expectedIndent : Number) (mismatchCharIndexes : list nat) : Report :=
  let loc := {| start := mkPosition lineNo 0;
                end_ := mkPosition lineNo actualIndent |} in
  {| report_loc := loc;
     messageId := "unexpectedIndentation";
     data :=
       [ ("expectedIndent", String_of expectedIndent);
         ("actualIndent", String_of (Z.of_nat actualIndent));
         ("expectedUnit", Text (unitName (indentChar options)));
         ("actualUnit",
           Text match mismatchCharIndexes with
                | _ :: _ => "whitespace"
                | [] => unitName (indentChar options)
                end);
         ("expectedIndentPlural", Text (plural expectedIndent));
         ("actualIndentPlural", Text (plural (Z.of_nat actualIndent))) ];
     fix_ := replaceTextRange loc
               <$> String_repeat (maxStringLength sourceCode)
                     (indentChar options) expectedIndent |}.

(** [i] comes from the loop over [indentText], so [indentText[i]] exists. *)
Definition unexpectedChar (lineNo : nat) (indentText : string) (i : nat)
    : Report :=
  let loc := {| start := mkPosition lineNo i;
                end_ := mkPosition lineNo (i + 1) |} in
  {| report_loc := loc;
     messageId := "unexpectedChar";
     data :=
       [ ("expected", Text (JSON_stringify (indentChar options)));
         ("actual", Text (from_option JSON_stringify "undefined"
                            (String.get i indentText))) ];
     fix_ := Some (replaceTextRange loc
                     (String (indentChar options) EmptyString)) |}.

Definition validateToken (token : Token) (expectedIndent : Number) : M unit :=
  let lineNo := line (start (loc token)) in
  indentText ← getIndentText (start (loc token));
  if negb (String.eqb (trim indentText) EmptyString) then mret tt
  else
    let actualIndent := column (start (loc token)) in
    let mismatchCharIndexes := mismatchCharIndexes_from 0 indentText in
    if negb (Number_eqb (Z.of_nat actualIndent) expectedIndent) then
      context_report
        (unexpectedIndentation lineNo actualIndent expectedIndent
           mismatchCharIndexes)
    else
      for_of mismatchCharIndexes
        (fun i => context_report (unexpectedChar lineNo indentText i)).

(** [prev && prev.loc.end.line < token.loc.start.line]. *)
Definition endsBefore (prev : option Token) (token : Token) : bool :=
  match prev with
  | None => false
  | Some p => (line (end_ (loc p)) <? line (start (loc token)))%nat
  end.

Definition processLine (tokens : list Token) (prevComments : list Token)
    (prevToken : option Token) : M unit :=
  match tokens with
  | [] => throw
  | firstToken :: _ =>
      let actualIndent := Z.of_nat (column (start (loc firstToken))) in
      expectedIndent ← getExpectedIndentFromTokens tokens;
      match expectedIndent with
      | None => saveExpectedIndent tokens actualIndent
      | Some expectedIndent =>
          saveExpectedIndent tokens expectedIndent ;;
          prev ← match prevComments with
                 | [] => mret prevToken
                 | comment :: _ =>
                     (if endsBefore prevToken comment
                      then validateToken comment expectedIndent
                      else mret tt) ;;
                     mret (last prevComments)
                 end;
          if endsBefore prev firstToken
          then validateToken firstToken expectedIndent
          else mret tt
      end
  end.

(** The generator [iterateLineTokens], as the list of what it yields: the
    loop over the remaining tokens with the generator's three variables. *)
Fixpoint iterateLineTokens_loop (rest : list Token) (lineNo : nat)
    (prevComments bufferTokens : list Token) : list LineGroup :=
  match rest with
  | [] =>
      if negb (length bufferTokens =? 0)%nat
         && negb (forallb isCommentToken bufferTokens)
      then [ {| prevComments := prevComments; tokens := bufferTokens |} ]
      else []
  | token :: rest' =>
      let thisLine := line (start (loc token)) in
      if (lineNo =? thisLine)%nat || (length bufferTokens =? 0)%nat then
        iterateLineTokens_loop rest' thisLine prevComments
          (bufferTokens ++ [token])
      else
        match bufferTokens with
        | first :: _ =>
            if isCommentToken first && forallb isCommentToken bufferTokens
            then
              iterateLineTokens_loop rest' thisLine (prevComments ++ [first])
                [token]
            else
              {| prevComments := prevComments; tokens := bufferTokens |}
                :: iterateLineTokens_loop rest' thisLine [] [token]
        | [] =>
            (* excluded by the test above: the buffer is not empty here *)
            iterateLineTokens_loop rest' thisLine prevComments [token]
        end
  end.

Definition iterateLineTokens (node : ASTNode) : list LineGroup :=
  iterateLineTokens_loop
    (filter (fun t => Is_true (isNotWhitespace t)) (getTokens sourceCode node true))
    0 [] [].

(** The loop of ["Program:exit"] over the groups, with its [prevToken]. *)
Fixpoint processLines (groups : list LineGroup) (prevToken : option Token)
    : M unit :=
  match groups with
  | [] => mret tt
  | g :: groups' =>
      processLine (tokens g) (prevComments g) prevToken ;;
      processLines groups' (last (tokens g))
  end.

Definition Program_exit (node : ASTNode) : M unit :=
  processLines (iterateLineTokens node) None.

(** What a call on the [indentContext] does. *)
Definition run_call (c : IndentCall) : M unit :=
  match c with
  | CallSetOffset token offset baseToken => setOffset token offset baseToken
  | CallCopyOffset token srcToken => copyOffset token srcToken
  | CallSetOffsetBaseLine token offset => setOffsetBaseLine token offset
  | CallIgnore node => ignore node
  end.

Definition run_handler (h : ASTNode -> list IndentCall) : ASTNode -> M unit :=
  fun node => for_of (h node) run_call.

(** ["*:exit"]. *)
Definition star_exit (knownNodes : gset string) (node : ASTNode) : M unit :=
  if decide (node_type node ∈ knownNodes) then mret tt else ignore node.

Definition compositingIgnoresVisitor (visitor : RuleListener) : RuleListener :=
  fold_left
    (fun (visitor : RuleListener) ignoreSelector =>
       let key := ignoreSelector +:+ ":exit" in
       match visitor !! key with
       | Some handler =>
           <[key := fun node => handler node ;; ignore node]> visitor
       | None => <[key := ignore]> visitor
       end)
    (ignoredNodes options) visitor.

(** The listener of a [.svelte] file, from the two handler tables. *)
Definition listener (es sv : NodeVisitor) : RuleListener :=
  let nodesVisitor : RuleListener := run_handler <$> (sv ∪ es) in
  let knownNodes : gset string := dom nodesVisitor in
  compositingIgnoresVisitor
    (<["Program:exit" := Program_exit]>
       (<["*:exit" := star_exit knownNodes]> nodesVisitor)).

End Engine.

Section DefineVisitor.

(** [defineVisitor] of [./es] and of [./svelte], as the tables they return. *)
Variable ES_defineVisitor SV_defineVisitor :
  SourceCode -> IndentOptions -> NodeVisitor.
Variable isNotWhitespace : Token -> bool.
Variable fuel : nat.

Definition emptyUserOptions : IndentUserOptions :=
  {| indent := None; u_switchCase := None; u_ignoredNodes := None |}.

Definition defineVisitor (context : RuleContext)
    (defaultOptions : PartialIndentOptions) : RuleListener :=
  if negb (endsWith (getFilename context) ".svelte") then ∅
  else
    let options :=
      parseOptions (default emptyUserOptions (head (context_options context)))
        defaultOptions in
    let sourceCode := getSourceCode context in
    listener options sourceCode isNotWhitespace fuel
      (ES_defineVisitor sourceCode options)
      (SV_defineVisitor sourceCode options).

End DefineVisitor.

(** The host's traversal: it calls the listener's handler, if there is one,
    for each key and node it comes to. *)
Definition emit (l : RuleListener) (event : string * ASTNode) : M unit :=
  match l !! event.1 with
  | Some handler => handler event.2
  | None => mret tt
  end.

Definition traverse (l : RuleListener) (events : list (string * ASTNode))
    : M unit :=
  for_of events (emit l).

(** ** Example data

    A three-line file, its tokens, and the states used to evaluate the
    engine on concrete inputs. *)

Definition ex_options : IndentOptions :=
  {| indentChar := space; indentSize := 2; switchCase := 1; ignoredNodes := [] |}.

Definition ex_token (ty : string) (l c len : nat) (offset : nat) : Token :=
  {| type := ty;
     loc := {| start := mkPosition l c; end_ := mkPosition l (c + len) |};
     range := (offset, (offset + len)%nat) |}.

(** [if (x) {], then [y = 1;] at column 0, then [}]. *)
Definition ex_lines : list string := [ "if (x) {"; "y = 1;"; "}" ].

Definition ex_if : Token := ex_token "Keyword" 1 0 2 0.
Definition ex_brace : Token := ex_token "Punctuator" 1 7 1 7.
Definition ex_y : Token := ex_token "Identifier" 2 0 1 9.
Definition ex_eq : Token := ex_token "Punctuator" 2 2 1 11.
Definition ex_close : Token := ex_token "Punctuator" 3 0 1 16.

Definition ex_program : ASTNode := {| node_type := "Program"; node_range := (0, 17)%nat |}.

Definition ex_sourceCode : SourceCode :=
  {| lines := ex_lines;
     getIndexFromLoc := fun p =>
       match line p with
       | 1 => column p
       | 2 => 9 + column p
       | _ => 16 + column p
       end%nat;
     getTokens := fun _ _ => [ex_if; ex_brace; ex_y; ex_eq; ex_close];
     stringLimit := 2 ^ 29 - 24 |}.

Definition ex_state (offs : gmap Token OffsetInfo) (ign : gset Token) : State :=
  {| offsets := offs; ignoreTokens := ign; reports := [] |}.

(** * Properties *)

(** ** Reasoning in the monad *)

(** Inverts [H : prim st = Done a st'] for a primitive action [prim]. *)
Ltac done_inv H :=
  try (unfold context_report in H;
       match type of H with
       | context [fix_ ?r] => destruct (fix_ r); [|discriminate H]
       end);
  inversion H; subst; clear H; simpl in *.

(** ** Numbers *)

(** A product or a sum whose exact value is a safe integer is exact. *)
Lemma Number_round_exact z :
  Z.abs z <= MAX_SAFE_INTEGER -> Number_round z = Finite z.
Proof.
  intros H. unfold Number_round.
  assert ((Z.abs z <=? 2 ^ 53) = true) as ->; [|done].
  apply Z.leb_le. unfold MAX_SAFE_INTEGER in H. lia.
Qed.

Lemma Number_mul_exact (a b : Z) :
  Z.abs (a * b) <= MAX_SAFE_INTEGER -> Number_mul a b = Finite (a * b).
Proof. apply Number_round_exact. Qed.

Lemma Number_add_exact (a b : Z) :
  Z.abs (a + b) <= MAX_SAFE_INTEGER -> Number_add a b = Finite (a + b).
Proof. apply Number_round_exact. Qed.

(** [r] is the double nearest to the integer [z]: a multiple of the unit
    in the last of the 53 places of [z], at most half a unit away, and an
    even multiple when it is half a unit away. *)
Definition nearest_double (z r : Z) : Prop :=
  let ulp := 2 ^ Z.max 0 (Z.log2 (Z.abs z) - 52) in
  (ulp | r) /\ Z.abs r <= 2 ^ 53 * ulp /\ 2 * Z.abs (r - z) <= ulp /\
  (2 * Z.abs (r - z) = ulp -> (2 * ulp | r)).

Lemma Number_round_nearest z r :
  Number_round z = Finite r -> nearest_double z r.
Proof.
  unfold Number_round, nearest_double.
  destruct (Z.leb_spec (Z.abs z) (2 ^ 53)) as [Hle|Hbig].
  - intros [= <-]. rewrite Z.sub_diag. simpl Z.abs at 2 3.
    destruct (Z.eq_dec (Z.abs z) (2 ^ 53)) as [Heq|Hne].
    + rewrite Heq. rewrite Z.log2_pow2 by lia.
      change (2 ^ Z.max 0 (53 - 52)) with 2.
      split; [|split; [|split]]; [|lia|lia|lia].
      exists (Z.sgn z * 2 ^ 52). change (2 ^ 53) with (2 ^ 52 * 2) in Heq. lia.
    + assert (Z.log2 (Z.abs z) < 53) as Hlog.
      { destruct (Z.eq_dec (Z.abs z) 0) as [->|]; [simpl; lia|].
        apply Z.log2_lt_pow2; lia. }
      rewrite Z.max_l by lia. simpl (2 ^ 0).
      split; [apply Z.divide_1_l|]. lia.
  - set (m := Z.abs z) in *.
    assert (53 <= Z.log2 m) as Hlog by (apply Z.log2_le_pow2; lia).
    rewrite Z.max_r by lia.
    set (sh := Z.log2 m - 52). assert (1 <= sh) as Hsh by lia.
    rewrite Z.shiftr_div_pow2, !Z.shiftl_mul_pow2 by lia.
    rewrite Z.mul_1_l.
    assert (2 ^ sh = 2 * 2 ^ (sh - 1)) as Hpow.
    { rewrite <- Z.pow_succ_r by lia. f_equal. lia. }
    assert (0 < 2 ^ (sh - 1)) as Hhalf by (apply Z.pow_pos_nonneg; lia).
    pose proof (Z.div_mod m (2 ^ sh) ltac:(lia)) as Hdm.
    pose proof (Z.mod_pos_bound m (2 ^ sh) ltac:(lia)) as Hmod.
    assert (m < 2 ^ 53 * 2 ^ sh) as Hm.
    { rewrite <- Z.pow_add_r by lia.
      replace (53 + sh) with (Z.succ (Z.log2 m)) by lia.
      apply Z.log2_spec. lia. }
    set (q := m / 2 ^ sh) in *. set (r0 := m mod 2 ^ sh) in *.
    assert (m - q * 2 ^ sh = r0) as -> by lia.
    assert (0 <= q < 2 ^ 53) as Hq by nia.
    set (q' := if _ : bool then q + 1 else q).
    assert (q <= q' <= q + 1 /\
            2 * Z.abs (q' * 2 ^ sh - m) <= 2 ^ sh /\
            (2 * Z.abs (q' * 2 ^ sh - m) = 2 ^ sh -> Z.even q' = true))
      as (Hq' & Hnear & Htie).
    { unfold q'.
      destruct (Z.ltb_spec (2 ^ (sh - 1)) r0); simpl; [lia|].
      destruct (Z.eqb_spec r0 (2 ^ (sh - 1))); simpl; [|lia].
      destruct (Z.odd q) eqn:Hodd.
      - split; [lia|]. split; [lia|]. intros _.
        by rewrite Z.add_1_r, Z.even_succ.
      - split; [lia|]. split; [lia|]. intros _.
        by rewrite <- Z.negb_odd, Hodd. }
    clearbody q'.
    destruct (Z.leb _ _); [by destruct (Z.ltb 0 z)|].
    intros [= <-].
    assert (Z.sgn z * (q' * 2 ^ sh) - z = Z.sgn z * (q' * 2 ^ sh - m)) as Hdiff.
    { unfold m. lia. }
    assert (Z.abs (Z.sgn z * (q' * 2 ^ sh - m)) = Z.abs (q' * 2 ^ sh - m)) as Habs.
    { unfold m in *. lia. }
    rewrite Hdiff, Habs.
    split; [exists (Z.sgn z * q'); lia|].
    split; [unfold m in *; nia|]. split; [exact Hnear|].
    intros Heven%Htie. apply Z.even_spec in Heven as [k ->].
    exists (Z.sgn z * k). lia.
Qed.

(** An infinity stands for an integer beyond the largest double by half a
    unit in its last place or more. *)
Lemma Number_round_overflow z :
  match Number_round z with
  | Finite r => Z.abs r < 2 ^ 1024
  | PosInfinity => 2 ^ 1024 - 2 ^ 970 <= z
  | NegInfinity => z <= - (2 ^ 1024 - 2 ^ 970)
  | NaN => False
  end.
Proof.
  unfold Number_round.
  destruct (Z.leb_spec (Z.abs z) (2 ^ 53)) as [Hle|Hbig].
  { assert (2 ^ 53 < 2 ^ 1024) by (apply Z.pow_lt_mono_r; lia). lia. }
  set (m := Z.abs z) in *.
  assert (53 <= Z.log2 m) as Hlog by (apply Z.log2_le_pow2; lia).
  set (sh := Z.log2 m - 52). assert (1 <= sh) as Hsh by lia.
  rewrite Z.shiftr_div_pow2, !Z.shiftl_mul_pow2 by lia.
  rewrite Z.mul_1_l.
  assert (2 ^ sh = 2 * 2 ^ (sh - 1)) as Hpow.
  { rewrite <- Z.pow_succ_r by lia. f_equal. lia. }
  assert (0 < 2 ^ (sh - 1)) as Hhalf by (apply Z.pow_pos_nonneg; lia).
  pose proof (Z.div_mod m (2 ^ sh) ltac:(lia)) as Hdm.
  pose proof (Z.mod_pos_bound m (2 ^ sh) ltac:(lia)) as Hmod.
  set (q := m / 2 ^ sh) in *. set (r0 := m mod 2 ^ sh) in *.
  assert (m - q * 2 ^ sh = r0) as -> by lia.
  set (q' := if _ : bool then q + 1 else q).
  assert (0 <= q' /\ 2 * Z.abs (q' * 2 ^ sh - m) <= 2 ^ sh) as [Hq' Hnear].
  { assert (0 <= q) by (apply Z.div_pos; lia). unfold q'.
    destruct (Z.ltb_spec (2 ^ (sh - 1)) r0); simpl; [lia|].
    destruct (Z.eqb_spec r0 (2 ^ (sh - 1))); simpl; [|lia].
    destruct (Z.odd q); lia. }
  clearbody q'.
  destruct (Z.leb_spec (2 ^ 1024) (q' * 2 ^ sh)) as [Hover|Hfin].
  - assert (2 ^ 1024 - 2 ^ 970 <= m) as Hm.
    { destruct (Z_le_gt_dec sh 971) as [Hs|Hs].
      - assert (2 ^ (sh - 1) <= 2 ^ 970) by (apply Z.pow_le_mono_r; lia). lia.
      - assert (2 ^ 1024 <= 2 ^ Z.log2 m) by (apply Z.pow_le_mono_r; lia).
        pose proof (Z.log2_spec m ltac:(lia)). lia. }
    destruct (Z.ltb_spec 0 z); unfold m in Hm; lia.
  - unfold m in *. nia.
Qed.

(** Beyond the safe integers the result is the nearest double:
    [Number.MAX_SAFE_INTEGER * 3] is 27021597764222972, one less than the
    integer product. *)
Lemma Number_mul_rounds :
  Number_mul MAX_SAFE_INTEGER 3 = Finite 27021597764222972 /\
  MAX_SAFE_INTEGER * 3 = 27021597764222973.
Proof. split; reflexivity. Qed.

Lemma Number_eqb_eq a b : Number_eqb a b = true -> a = b.
Proof.
  destruct a, b; simpl; try discriminate; try done.
  by intros ->%Z.eqb_eq.
Qed.

Lemma Number_eqb_Finite (x y : Z) : Number_eqb x y = (x =? y).
Proof. reflexivity. Qed.

Lemma bind_Done {A B} (m : M A) (f : A -> M B) st b st' :
  (m ≫= f) st = Done b st' <->
  exists a st1, m st = Done a st1 /\ f a st1 = Done b st'.
Proof.
  unfold mbind, M_bind. split.
  - destruct (m st) as [a st1| |]; try discriminate. eauto.
  - intros (a & st1 & -> & H). exact H.
Qed.

Lemma bind_Done_l {A B} (m : M A) (f : A -> M B) st a st1 :
  m st = Done a st1 -> (m ≫= f) st = f a st1.
Proof. unfold mbind, M_bind. by intros ->. Qed.

(** A property of the state that an action keeps. *)
Definition preserves {A} (P : State -> Prop) (m : M A) : Prop :=
  forall st a st', P st -> m st = Done a st' -> P st'.

Lemma preserves_ret {A} P (a : A) : preserves P (mret a).
Proof. intros st a' st' HP H. by inversion H; subst. Qed.

Lemma preserves_bind {A B} P (m : M A) (f : A -> M B) :
  preserves P m -> (forall a, preserves P (f a)) -> preserves P (m ≫= f).
Proof.
  intros Hm Hf st b st' HP H.
  apply bind_Done in H as (a & st1 & H1 & H2).
  exact (Hf a st1 b st' (Hm st a st1 HP H1) H2).
Qed.

Lemma preserves_for_of {A} P (l : list A) (body : A -> M unit) :
  (forall x, x ∈ l -> preserves P (body x)) -> preserves P (for_of l body).
Proof.
  induction l as [|x l IH]; intros Hb; simpl.
  - apply preserves_ret.
  - apply preserves_bind.
    + apply Hb. by left.
    + intros _. apply IH. intros y Hy. apply Hb. by right.
Qed.

Lemma preserves_if {A} P (b : bool) (m1 m2 : M A) :
  preserves P m1 -> preserves P m2 -> preserves P (if b then m1 else m2).
Proof. by destruct b. Qed.

(** An action that only reads: it ends in the state it started from. *)
Definition read_only {A} (m : M A) : Prop :=
  forall st a st', m st = Done a st' -> st' = st.

(** ** The string helpers *)

Lemma substring_skip p s n :
  substring (String.length p) n (p +:+ s) = substring 0 n s.
Proof. induction p as [|c p IH]; simpl; [reflexivity | exact IH]. Qed.

Lemma substring_all s : substring 0 (String.length s) s = s.
Proof. induction s as [|c s IH]; simpl; [reflexivity | by rewrite IH]. Qed.

Lemma substring_split s m :
  (m <= String.length s)%nat ->
  s = substring 0 m s +:+ substring m (String.length s - m) s.
Proof.
  revert m. induction s as [|c s IH]; intros m Hm; simpl in *.
  - by destruct m.
  - destruct m as [|m]; simpl.
    + by rewrite substring_all.
    + change (String c s = String c (substring 0 m s +:+
                                     substring m (String.length s - m) s)).
      f_equal. apply IH. lia.
Qed.

Lemma length_append s1 s2 :
  String.length (s1 +:+ s2) = (String.length s1 + String.length s2)%nat.
Proof. induction s1 as [|c s1 IH]; simpl; [reflexivity | by rewrite IH]. Qed.

(** [endsWith] holds of the strings that are a prefix followed by the
    suffix. *)
Lemma endsWith_spec s suffix :
  endsWith s suffix = true <-> exists p, s = p +:+ suffix.
Proof.
  unfold endsWith. rewrite andb_true_iff, Nat.leb_le, String.eqb_eq. split.
  - intros [Hle Hsub].
    exists (substring 0 (String.length s - String.length suffix) s).
    pose proof (substring_split s (String.length s - String.length suffix))
      as Hsplit.
    replace (String.length s - (String.length s - String.length suffix))%nat
      with (String.length suffix) in Hsplit by lia.
    rewrite Hsub in Hsplit. apply Hsplit. lia.
  - intros [p ->]. rewrite length_append. split; [lia|].
    replace (String.length p + String.length suffix - String.length suffix)%nat
      with (String.length p) by lia.
    by rewrite substring_skip, substring_all.
Qed.

Fixpoint allWhiteSpace (s : string) : bool :=
  match s with
  | EmptyString => true
  | String c s' => isWhiteSpace c && allWhiteSpace s'
  end.

Lemma trimStart_empty s : trimStart s = EmptyString <-> allWhiteSpace s = true.
Proof.
  induction s as [|c s IH]; simpl; [done|].
  destruct (isWhiteSpace c); simpl; [exact IH | done].
Qed.

Lemma allWhiteSpace_trimStart s : allWhiteSpace (trimStart s) = allWhiteSpace s.
Proof.
  induction s as [|c s IH]; simpl; [done|].
  destruct (isWhiteSpace c) eqn:Hc; simpl; [exact IH | by rewrite Hc].
Qed.

Lemma allWhiteSpace_rev_app s1 s2 :
  allWhiteSpace (String.rev_app s1 s2) = allWhiteSpace s1 && allWhiteSpace s2.
Proof.
  revert s2. induction s1 as [|c s1 IH]; intros s2; simpl; [done|].
  rewrite IH. simpl. destruct (isWhiteSpace c), (allWhiteSpace s1); done.
Qed.

Lemma rev_app_empty s1 s2 :
  String.rev_app s1 s2 = EmptyString -> s1 = EmptyString /\ s2 = EmptyString.
Proof.
  revert s2. induction s1 as [|c s1 IH]; intros s2 H; simpl in H; [done|].
  by apply IH in H as [_ ?].
Qed.

(** [indentText.trim() === ""] says that [indentText] is white space. *)
Lemma trim_empty s : trim s = EmptyString <-> allWhiteSpace s = true.
Proof.
  unfold trim, String.rev. split.
  - intros H. apply rev_app_empty in H as [H _].
    apply trimStart_empty in H. rewrite allWhiteSpace_rev_app in H.
    apply andb_true_iff in H as [H _]. by rewrite allWhiteSpace_trimStart in H.
  - intros H. apply trimStart_empty in H. by rewrite H.
Qed.

(** ** The resolver *)

Section Resolver.

Variable options : IndentOptions.

Lemma getExpectedIndentFromToken_rec_read_only n token :
  read_only (getExpectedIndentFromToken_rec options n token).
Proof.
  revert token. induction n as [|n IH]; intros token st r st' H; simpl in H.
  - discriminate.
  - unfold mbind, M_bind, offsets_get in H.
    destruct (offsets st !! token) as [[b o [e|]|o [e|]]|];
      try (by inversion H).
    destruct (getExpectedIndentFromToken_rec options n b st) as [[bi|] st1| |] eqn:Hb;
      try discriminate.
    + apply IH in Hb. inversion H. by subst.
    + apply IH in Hb. inversion H. by subst.
Qed.

(** More fuel does not change a result. *)
Lemma getExpectedIndentFromToken_rec_mono n m token st r st' :
  (n <= m)%nat ->
  getExpectedIndentFromToken_rec options n token st = Done r st' ->
  getExpectedIndentFromToken_rec options m token st = Done r st'.
Proof.
  revert m token r st'. induction n as [|n IH]; intros m token r st' Hle H.
  - discriminate.
  - destruct m as [|m]; [lia|]. simpl in *.
    unfold mbind, M_bind, offsets_get in *.
    destruct (offsets st !! token) as [[b o [e|]|o [e|]]|]; try exact H.
    destruct (getExpectedIndentFromToken_rec options n b st) as [bi st1| |] eqn:Hb;
      try discriminate.
    rewrite (IH m b bi st1); [exact H | lia | exact Hb].
Qed.

(** A rank that decreases along the edges the resolver follows: the
    relative edges without a cached value lead to a baseline or to a token
    without an entry in at most [rank] steps. *)
Definition ranked (offs : gmap Token OffsetInfo) (rank : Token -> nat) : Prop :=
  forall t b o, offs !! t = Some (Relative b o None) -> (rank b < rank t)%nat.

(** On such a graph the resolver returns, given fuel above the rank. *)
Lemma getExpectedIndentFromToken_rec_total rank st n token :
  ranked (offsets st) rank -> (rank token < n)%nat ->
  exists r, getExpectedIndentFromToken_rec options n token st = Done r st.
Proof.
  intros Hr. revert token. induction n as [|n IH]; intros token Hlt; [lia|].
  simpl. unfold mbind, M_bind, offsets_get.
  destruct (offsets st !! token) as [[b o [e|]|o [e|]]|] eqn:Ht; eauto.
  apply Hr in Ht. destruct (IH b) as [[bi|] ->]; [lia| |]; eauto.
Qed.

End Resolver.

Lemma read_only_preserves {A} P (m : M A) : read_only m -> preserves P m.
Proof. intros Hro st a st' HP H. by rewrite (Hro _ _ _ H). Qed.

Lemma offsets_get_read_only t : read_only (offsets_get t).
Proof. intros st a st' H. by inversion H. Qed.

Lemma ignoreTokens_has_read_only t : read_only (ignoreTokens_has t).
Proof. intros st a st' H. by inversion H. Qed.

(** ** Invariants of the engine

    A property of the state that the five primitive writes keep is kept by
    every function of the closure, by every handler of the listener and by
    a whole traversal. *)

Section Invariant.

Variable options : IndentOptions.
Variable sourceCode : SourceCode.
Variable isNotWhitespace : Token -> bool.
Variable fuel : nat.

Variable P : State -> Prop.

Hypothesis P_set_relative : forall t b o,
  t <> b -> preserves P (offsets_set t (Relative b o None)).
Hypothesis P_set_baseline : forall t o,
  preserves P (offsets_set t (Baseline o None)).
Hypothesis P_set_cache : forall t info e st st',
  offsets st !! t = Some info -> expectedIndent_of info = None ->
  P st -> offsets_set t (with_expectedIndent info (Some e)) st = Done tt st' ->
  P st'.
Hypothesis P_ignore : forall t, preserves P (ignoreTokens_add t).
Hypothesis P_report : forall r, preserves P (context_report r).

Lemma setOffset_token_preserves t o b : preserves P (setOffset_token t o b).
Proof.
  destruct t as [t|]; simpl; [|apply preserves_ret].
  destruct (decide (t = b)); [apply preserves_ret | by apply P_set_relative].
Qed.

Lemma setOffset_preserves token o b : preserves P (setOffset token o b).
Proof.
  destruct token as [t|ts]; simpl.
  - apply setOffset_token_preserves.
  - apply preserves_for_of. intros. apply setOffset_token_preserves.
Qed.

Lemma setOffsetBaseLine_token_preserves t o :
  preserves P (setOffsetBaseLine_token t o).
Proof. destruct t; simpl; [apply P_set_baseline | apply preserves_ret]. Qed.

Lemma setOffsetBaseLine_preserves token o :
  preserves P (setOffsetBaseLine token o).
Proof.
  destruct token as [t|ts]; simpl.
  - apply setOffsetBaseLine_token_preserves.
  - apply preserves_for_of. intros. apply setOffsetBaseLine_token_preserves.
Qed.

Lemma copyOffset_preserves token src : preserves P (copyOffset token src).
Proof.
  assert (preserves P
    (offsetData ← offsets_get src;
     match offsetData with
     | None => mret tt
     | Some (Relative baseToken offset _) => setOffset token offset baseToken
     | Some (Baseline offset _) => setOffsetBaseLine token offset
     end)) as H.
  { apply preserves_bind.
    - apply read_only_preserves, offsets_get_read_only.
    - intros [[b o e|o e]|].
      + apply setOffset_preserves.
      + apply setOffsetBaseLine_preserves.
      + apply preserves_ret. }
  destruct token as [[t|]|ts]; simpl; [exact H | apply preserves_ret | exact H].
Qed.

Lemma ignore_preserves node : preserves P (ignore sourceCode node).
Proof. apply preserves_for_of. intros. apply P_ignore. Qed.

Lemma getExpectedIndentFromTokens_read_only tokens :
  read_only (getExpectedIndentFromTokens options fuel tokens).
Proof.
  induction tokens as [|t ts IH]; intros st r st' H; simpl in H.
  - by inversion H.
  - unfold mbind, M_bind, ignoreTokens_has in H.
    destruct (bool_decide (t ∈ ignoreTokens st)); [by inversion H|].
    destruct (getExpectedIndentFromToken options fuel t st) as [[e|] st1| |] eqn:Ht;
      try discriminate.
    + apply getExpectedIndentFromToken_rec_read_only in Ht. inversion H. by subst.
    + apply getExpectedIndentFromToken_rec_read_only in Ht. subst st1. eauto.
Qed.

Lemma saveExpectedIndent_preserves tokens e :
  preserves P (saveExpectedIndent tokens e).
Proof.
  apply preserves_for_of. intros t _ st a st' HP H.
  unfold mbind, M_bind, offsets_get in H.
  destruct (offsets st !! t) as [info|] eqn:Ht; [|by inversion H; subst].
  destruct (expectedIndent_of info) eqn:He; [by inversion H; subst|].
  destruct a. eapply P_set_cache; eauto.
Qed.

Lemma getIndentText_read_only p : read_only (getIndentText sourceCode p).
Proof.
  intros st a st' H. unfold getIndentText in H.
  destruct (line p); [discriminate|].
  destruct (lines sourceCode !! n); [by inversion H | discriminate].
Qed.

Lemma validateToken_preserves token e :
  preserves P (validateToken options sourceCode token e).
Proof.
  apply preserves_bind.
  - apply read_only_preserves, getIndentText_read_only.
  - intros indentText. apply preserves_if; [apply preserves_ret|].
    apply preserves_if; [apply P_report|].
    apply preserves_for_of. intros. apply P_report.
Qed.

Lemma processLine_preserves tokens prevComments prevToken :
  preserves P (processLine options sourceCode fuel tokens prevComments prevToken).
Proof.
  destruct tokens as [|firstToken rest]; [intros st a st' _ H; discriminate|].
  apply preserves_bind.
  - apply read_only_preserves, getExpectedIndentFromTokens_read_only.
  - intros [e|]; [|apply saveExpectedIndent_preserves].
    apply preserves_bind; [apply saveExpectedIndent_preserves|]. intros _.
    apply preserves_bind.
    + destruct prevComments as [|c cs]; [apply preserves_ret|].
      apply preserves_bind; [|intros; apply preserves_ret].
      apply preserves_if; [apply validateToken_preserves | apply preserves_ret].
    + intros prev.
      apply preserves_if; [apply validateToken_preserves | apply preserves_ret].
Qed.

Lemma processLines_preserves groups prevToken :
  preserves P (processLines options sourceCode fuel groups prevToken).
Proof.
  revert prevToken. induction groups as [|g gs IH]; intros prevToken; simpl.
  - apply preserves_ret.
  - apply preserves_bind; [apply processLine_preserves | intros; apply IH].
Qed.

Lemma Program_exit_preserves node :
  preserves P (Program_exit options sourceCode isNotWhitespace fuel node).
Proof. apply processLines_preserves. Qed.

Lemma run_call_preserves c : preserves P (run_call sourceCode c).
Proof.
  destruct c; simpl.
  - apply setOffset_preserves.
  - apply copyOffset_preserves.
  - apply setOffsetBaseLine_preserves.
  - apply ignore_preserves.
Qed.

Lemma star_exit_preserves knownNodes node :
  preserves P (star_exit sourceCode knownNodes node).
Proof.
  unfold star_exit. case_decide; [apply preserves_ret | apply ignore_preserves].
Qed.

(** Every handler of a listener keeps [P]. *)
Definition handlers_preserve (l : RuleListener) : Prop :=
  forall key h, l !! key = Some h -> forall node, preserves P (h node).

Lemma compositingIgnoresVisitor_preserves visitor :
  handlers_preserve visitor ->
  handlers_preserve (compositingIgnoresVisitor options sourceCode visitor).
Proof.
  unfold compositingIgnoresVisitor. revert visitor.
  induction (ignoredNodes options) as [|sel sels IH]; intros visitor Hv; simpl.
  - exact Hv.
  - apply IH. intros key h Hkey node.
    destruct (visitor !! (sel +:+ ":exit")) as [handler|] eqn:Hsel;
      rewrite lookup_insert in Hkey; case_decide; simplify_eq; eauto.
    + apply preserves_bind; [by eapply Hv | intros; apply ignore_preserves].
    + apply ignore_preserves.
Qed.

Lemma listener_preserves es sv :
  handlers_preserve (listener options sourceCode isNotWhitespace fuel es sv).
Proof.
  apply compositingIgnoresVisitor_preserves. intros key h Hkey node.
  rewrite lookup_insert in Hkey. case_decide; simplify_eq.
  { apply Program_exit_preserves. }
  rewrite lookup_insert in Hkey. case_decide; simplify_eq.
  { apply star_exit_preserves. }
  rewrite lookup_fmap in Hkey.
  destruct ((sv ∪ es) !! key) as [calls|]; simplify_eq/=.
  apply preserves_for_of. intros. apply run_call_preserves.
Qed.

Lemma traverse_preserves (l : RuleListener) events :
  handlers_preserve l -> preserves P (traverse l events).
Proof.
  intros Hl. apply preserves_for_of. intros [key node] _. unfold emit. simpl.
  destruct (l !! key) eqn:Hkey; [by eapply Hl | apply preserves_ret].
Qed.

End Invariant.

(** ** The offset graph *)

(** No relative entry has its own token as base. *)
Definition no_self_reference (offs : gmap Token OffsetInfo) : Prop :=
  forall t b o e, offs !! t = Some (Relative b o e) -> b <> t.

Lemma no_self_reference_insert_relative offs t b o :
  t <> b -> no_self_reference offs ->
  no_self_reference (<[t := Relative b o None]> offs).
Proof.
  intros Hne H t' b' o' e'. rewrite lookup_insert. case_decide.
  - intros [= <- <- <-]. congruence.
  - apply H.
Qed.

Lemma no_self_reference_insert_baseline offs t o e :
  no_self_reference offs -> no_self_reference (<[t := Baseline o e]> offs).
Proof.
  intros H t' b' o' e'. rewrite lookup_insert. case_decide; [discriminate|].
  apply H.
Qed.

Lemma no_self_reference_insert_cache offs t info e :
  offs !! t = Some info -> no_self_reference offs ->
  no_self_reference (<[t := with_expectedIndent info e]> offs).
Proof.
  intros Ht H t' b' o' e'. rewrite lookup_insert. case_decide.
  - subst t'. destruct info as [b o c|o c]; simpl; [|discriminate].
    intros [= <- <- <-]. by eapply H.
  - apply H.
Qed.

Section OffsetGraph.

Variable options : IndentOptions.
Variable sourceCode : SourceCode.
Variable isNotWhitespace : Token -> bool.
Variable fuel : nat.

Let nsr (st : State) : Prop := no_self_reference (offsets st).

Lemma handlers_keep_no_self_reference es sv :
  handlers_preserve nsr (listener options sourceCode isNotWhitespace fuel es sv).
Proof.
  apply listener_preserves.
  - intros t b o Hne st a st' H Hd. done_inv Hd.
    by apply no_self_reference_insert_relative.
  - intros t o st a st' H Hd. done_inv Hd.
    by apply no_self_reference_insert_baseline.
  - intros t info e st st' Ht _ H Hd. done_inv Hd.
    by apply no_self_reference_insert_cache.
  - intros t st a st' H Hd. by done_inv Hd.
  - intros r st a st' H Hd. by done_inv Hd.
Qed.

Lemma run_call_keeps_no_self_reference c :
  preserves nsr (run_call sourceCode c).
Proof.
  apply run_call_preserves.
  - intros t b o Hne st a st' H Hd. done_inv Hd.
    by apply no_self_reference_insert_relative.
  - intros t o st a st' H Hd. done_inv Hd.
    by apply no_self_reference_insert_baseline.
  - intros t st a st' H Hd. by done_inv Hd.
Qed.

Lemma setOffset_self_skipped t o st :
  setOffset (Single (Some t)) o t st = Done tt st.
Proof. simpl. by rewrite decide_True. Qed.

Lemma setOffset_array_self_or_null_skipped ts o b st :
  (forall x, x ∈ ts -> x = None \/ x = Some b) ->
  setOffset (Array ts) o b st = Done tt st.
Proof.
  simpl. induction ts as [|x ts IH]; intros H; [reflexivity|]. simpl.
  assert (setOffset_token x o b st = Done tt st) as Hx.
  { destruct (H x) as [->| ->]; [by left|reflexivity|]. simpl.
    by rewrite decide_True. }
  rewrite (bind_Done_l _ _ _ _ _ Hx). apply IH. intros y Hy. apply H. by right.
Qed.

End OffsetGraph.

(** ** The cache written by [saveExpectedIndent] *)

(** [offsetInfo.expectedIndent ??= expectedIndent] on one entry. *)
Definition save_entry (e : Number) (info : OffsetInfo) : OffsetInfo :=
  match expectedIndent_of info with
  | Some _ => info
  | None => with_expectedIndent info (Some e)
  end.

Lemma save_entry_idem e info : save_entry e (save_entry e info) = save_entry e info.
Proof. by destruct info as [b o [c|]|o [c|]]. Qed.

(** [saveExpectedIndent] always returns; it touches the offset graph only,
    and there exactly the entries of the given tokens. *)
Lemma saveExpectedIndent_spec tokens e st :
  exists st', saveExpectedIndent tokens e st = Done tt st' /\
    ignoreTokens st' = ignoreTokens st /\ reports st' = reports st /\
    forall t, offsets st' !! t =
      if decide (t ∈ tokens) then save_entry e <$> offsets st !! t
      else offsets st !! t.
Proof.
  unfold saveExpectedIndent. revert st.
  induction tokens as [|t0 ts IH]; intros st.
  - exists st. do 3 (split; [reflexivity|]). intros t.
    rewrite decide_False; [reflexivity | apply not_elem_of_nil].
  - simpl.
    set (body := fun token : Token => _).
    assert (exists st1, body t0 st = Done tt st1 /\
              ignoreTokens st1 = ignoreTokens st /\ reports st1 = reports st /\
              forall t, offsets st1 !! t =
                if decide (t = t0) then save_entry e <$> offsets st !! t
                else offsets st !! t) as (st1 & H1 & Hi1 & Hr1 & Ho1).
    { unfold body, mbind, M_bind, offsets_get.
      destruct (offsets st !! t0) as [info|] eqn:Ht0.
      - destruct (expectedIndent_of info) as [c|] eqn:Hc.
        + exists st. do 3 (split; [reflexivity|]). intros t. case_decide; [|done].
          subst t. rewrite Ht0. simpl. unfold save_entry. by rewrite Hc.
        + eexists. split; [reflexivity|]. simpl. do 2 (split; [reflexivity|]). intros t.
          rewrite lookup_insert. case_decide; case_decide; try congruence.
          subst. rewrite Ht0. simpl. unfold save_entry. by rewrite Hc.
      - exists st. do 3 (split; [reflexivity|]). intros t. case_decide; [|done].
        subst t. by rewrite Ht0. }
    destruct (IH st1) as (st' & H' & Hi' & Hr' & Ho').
    exists st'. split; [by rewrite (bind_Done_l _ _ _ _ _ H1)|].
    split; [congruence|]. split; [congruence|]. intros t.
    rewrite Ho', Ho1.
    destruct (decide (t ∈ ts)) as [Hin|Hnin];
      destruct (decide (t = t0)) as [->|Hne].
    + rewrite decide_True by (by left).
      destruct (offsets st !! t0); simpl; [|done]. by rewrite save_entry_idem.
    + by rewrite decide_True by (by right).
    + by rewrite decide_True by (by left).
    + rewrite decide_False; [done|]. intros [?|?]%elem_of_cons; done.
Qed.

(** ** C1: the resolver, and where the cache is written *)

(** C1. [getExpectedIndentFromToken] returns null for a token without an
    entry, the cached value when the entry has one, [offset * indentSize]
    for a baseline entry, and for a relative entry null when its base token
    resolves to null and [baseIndent + offset * indentSize] otherwise, the
    product and the sum being those of JavaScript numbers: the integer
    product and sum when these are safe integers, and the double nearest to
    them otherwise. On a graph whose uncached
    relative edges are ranked it returns, given fuel above the rank. It
    never writes to the state: it caches nothing. The cache is written by
    [saveExpectedIndent], which never overwrites a value that is already
    set. *)
Theorem getExpectedIndentFromToken_spec options n token st :
  (forall r st',
     getExpectedIndentFromToken options n token st = Done r st' -> st' = st) /\
  (offsets st !! token = None ->
     getExpectedIndentFromToken options (S n) token st = Done None st) /\
  (forall info e,
     offsets st !! token = Some info -> expectedIndent_of info = Some e ->
     getExpectedIndentFromToken options (S n) token st = Done (Some e) st) /\
  (forall o,
     offsets st !! token = Some (Baseline o None) ->
     getExpectedIndentFromToken options (S n) token st =
       Done (Some (Number_mul o (indentSize options))) st) /\
  (forall b o,
     offsets st !! token = Some (Relative b o None) ->
     (getExpectedIndentFromToken options n b st = Done None st ->
      getExpectedIndentFromToken options (S n) token st = Done None st) /\
     (forall baseIndent,
        getExpectedIndentFromToken options n b st = Done (Some baseIndent) st ->
        getExpectedIndentFromToken options (S n) token st =
          Done (Some (Number_add baseIndent
                        (Number_mul o (indentSize options)))) st)) /\
  (forall x y : Z,
     (Z.abs (x * y) <= MAX_SAFE_INTEGER -> Number_mul x y = Finite (x * y)) /\
     (Z.abs (x + y) <= MAX_SAFE_INTEGER -> Number_add x y = Finite (x + y)) /\
     (forall r, Number_mul x y = Finite r -> nearest_double (x * y) r) /\
     (forall r, Number_add x y = Finite r -> nearest_double (x + y) r)) /\
  (forall rank,
     ranked (offsets st) rank -> (rank token < n)%nat ->
     exists r, getExpectedIndentFromToken options n token st = Done r st) /\
  (forall tokens e st' t info c,
     saveExpectedIndent tokens e st = Done tt st' ->
     offsets st !! t = Some info -> expectedIndent_of info = Some c ->
     offsets st' !! t = Some info).
Proof.
  unfold getExpectedIndentFromToken.
  split; [|split; [|split; [|split; [|split; [|split; [|split]]]]]].
  - intros r st'. apply getExpectedIndentFromToken_rec_read_only.
  - intros H. simpl. unfold mbind, M_bind, offsets_get. by rewrite H.
  - intros info e H He. simpl. unfold mbind, M_bind, offsets_get. rewrite H.
    destruct info as [b o c|o c]; simpl in He; by subst c.
  - intros o H. simpl. unfold mbind, M_bind, offsets_get. by rewrite H.
  - intros b o H. split.
    + intros Hb. simpl. unfold mbind, M_bind, offsets_get. rewrite H.
      by rewrite Hb.
    + intros baseIndent Hb. simpl. unfold mbind, M_bind, offsets_get.
      rewrite H. by rewrite Hb.
  - intros x y. split; [apply Number_mul_exact|].
    split; [apply Number_add_exact|].
    split; intros r; apply Number_round_nearest.
  - intros rank. apply getExpectedIndentFromToken_rec_total.
  - intros tokens e st' t info c Hs Ht Hc.
    destruct (saveExpectedIndent_spec tokens e st) as (st1 & H1 & _ & _ & Ho).
    rewrite H1 in Hs. inversion Hs; subst st1. rewrite Ho, Ht.
    case_decide; [|done]. simpl. unfold save_entry. by rewrite Hc.
Qed.

(** The state of the witnesses: [ex_if] is a baseline, [ex_y] is one level
    under it. *)
Definition ex_graph : gmap Token OffsetInfo :=
  <[ex_y := Relative ex_if 1 None]> (<[ex_if := Baseline 0 None]> ∅).

Lemma getExpectedIndentFromToken_spec_witness :
  getExpectedIndentFromToken ex_options 1 ex_if (ex_state ex_graph ∅)
    = Done (Some (Finite 0)) (ex_state ex_graph ∅) /\
  getExpectedIndentFromToken ex_options 2 ex_y (ex_state ex_graph ∅)
    = Done (Some (Finite 2)) (ex_state ex_graph ∅).
Proof.
  split; [reflexivity|].
  destruct (getExpectedIndentFromToken_spec ex_options 1 ex_y
              (ex_state ex_graph ∅)) as (_ & _ & _ & _ & Hrel & _).
  destruct (Hrel ex_if 1) as [_ H]; [reflexivity|].
  apply (H 0). reflexivity.
Defined.

(** C1 as the specification words it fails: resolving a baseline entry
    leaves the entry without a cached value. *)
Lemma getExpectedIndentFromToken_caches_nothing :
  let st := ex_state (<[ex_if := Baseline 1 None]> ∅) ∅ in
  exists st',
    getExpectedIndentFromToken ex_options 1 ex_if st = Done (Some (Finite 2)) st' /\
    offsets st' !! ex_if = Some (Baseline 1 None) /\
    ~ (expectedIndent_of <$> offsets st' !! ex_if = Some (Some (Finite 2))).
Proof.
  eexists. split; [reflexivity|]. split; [reflexivity|]. discriminate.
Qed.

(** ** C6 and C10: the graph mutations *)

Lemma for_of_total {A} (l : list A) (body : A -> M unit) st :
  (forall x s, exists s', body x s = Done tt s') ->
  exists st', for_of l body st = Done tt st'.
Proof.
  intros Hb. revert st. induction l as [|x l IH]; intros st; simpl.
  - by exists st.
  - destruct (Hb x st) as [s1 H1]. rewrite (bind_Done_l _ _ _ _ _ H1). apply IH.
Qed.

Lemma setOffset_total token o b st :
  exists st', setOffset token o b st = Done tt st'.
Proof.
  assert (forall x s, exists s', setOffset_token x o b s = Done tt s') as H1.
  { intros [t|] s; simpl; [|by eexists]. case_decide; by eexists. }
  destruct token as [t|ts]; simpl; [apply H1 | by apply for_of_total].
Qed.

Lemma setOffsetBaseLine_total token o st :
  exists st', setOffsetBaseLine token o st = Done tt st'.
Proof.
  assert (forall x s, exists s', setOffsetBaseLine_token x o s = Done tt s') as H1.
  { intros [t|] s; simpl; by eexists. }
  destruct token as [t|ts]; simpl; [apply H1 | by apply for_of_total].
Qed.

Lemma copyOffset_total token src st :
  exists st', copyOffset token src st = Done tt st'.
Proof.
  assert (exists st',
    (offsetData ← offsets_get src;
     match offsetData with
     | None => mret tt
     | Some (Relative baseToken offset _) => setOffset token offset baseToken
     | Some (Baseline offset _) => setOffsetBaseLine token offset
     end) st = Done tt st') as H.
  { unfold mbind, M_bind, offsets_get.
    destruct (offsets st !! src) as [[b o e|o e]|].
    - apply setOffset_total.
    - apply setOffsetBaseLine_total.
    - by eexists. }
  destruct token as [[t|]|ts]; simpl; [exact H | by eexists | exact H].
Qed.

Lemma ignore_total sourceCode node st :
  exists st', ignore sourceCode node st = Done tt st'.
Proof. apply for_of_total. intros x s. by eexists. Qed.

Lemma run_call_total sourceCode c st :
  exists st', run_call sourceCode c st = Done tt st'.
Proof.
  destruct c; simpl.
  - apply setOffset_total.
  - apply copyOffset_total.
  - apply setOffsetBaseLine_total.
  - apply ignore_total.
Qed.

(** C6. The offset graph starts without a self-referencing entry; each call
    a node handler can make ([setOffset], [copyOffset], [setOffsetBaseLine],
    [ignore]) returns and keeps it so; so does every traversal of the
    listener of [defineVisitor], validation pass included. [setOffset] leaves
    the state as it is when the token is the base token, when it is null,
    and for an array of such entries. *)
Theorem offset_graph_no_self_reference :
  no_self_reference (offsets initial_state) /\
  (forall sourceCode c st,
     exists st', run_call sourceCode c st = Done tt st' /\
       (no_self_reference (offsets st) -> no_self_reference (offsets st'))) /\
  (forall ES SV isNotWhitespace fuel context defaultOptions events st',
     traverse (defineVisitor ES SV isNotWhitespace fuel context defaultOptions)
       events initial_state = Done tt st' ->
     no_self_reference (offsets st')) /\
  (forall t o st, setOffset (Single (Some t)) o t st = Done tt st) /\
  (forall o b st, setOffset (Single None) o b st = Done tt st) /\
  (forall ts o b st,
     (forall x, x ∈ ts -> x = None \/ x = Some b) ->
     setOffset (Array ts) o b st = Done tt st).
Proof.
  assert (no_self_reference (offsets initial_state)) as H0.
  { intros t b o e. simpl. by rewrite lookup_empty. }
  split; [exact H0|]. split; [|split; [|split; [|split]]].
  - intros sourceCode c st. destruct (run_call_total sourceCode c st) as [st' H].
    exists st'. split; [exact H|]. intros Hst.
    by apply (run_call_keeps_no_self_reference sourceCode c st tt st').
  - intros ES SV isNW fuel context defaultOptions events st' H.
    eapply (traverse_preserves (fun s => no_self_reference (offsets s)));
      [|exact H0|exact H].
    unfold defineVisitor. destruct (negb _).
    + intros key h Hkey. by rewrite lookup_empty in Hkey.
    + apply handlers_keep_no_self_reference.
  - apply setOffset_self_skipped.
  - reflexivity.
  - apply setOffset_array_self_or_null_skipped.
Qed.

Lemma offset_graph_no_self_reference_witness :
  let st := ex_state (<[ex_if := Baseline 0 None]> ∅) ∅ in
  let call := CallSetOffset (Array [Some ex_y; Some ex_if; None]) 1 ex_if in
  no_self_reference (offsets st) /\
  run_call ex_sourceCode call st = Done tt (ex_state ex_graph ∅) /\
  no_self_reference (offsets (ex_state ex_graph ∅)).
Proof.
  intros st call.
  assert (no_self_reference (offsets st)) as Hst.
  { intros t b o e. unfold st. simpl. rewrite lookup_insert. case_decide.
    - discriminate.
    - by rewrite lookup_empty. }
  split; [exact Hst|]. split; [reflexivity|].
  destruct offset_graph_no_self_reference as (_ & Hcall & _).
  destruct (Hcall ex_sourceCode call st) as (st' & Hrun & Hkeep).
  assert (st' = ex_state ex_graph ∅) as <-.
  { assert (run_call ex_sourceCode call st = Done tt (ex_state ex_graph ∅)) as Hc
      by reflexivity.
    rewrite Hc in Hrun. by inversion Hrun. }
  exact (Hkeep Hst).
Defined.

(** C10. [copyOffset] from a source token without an entry returns with the
    state as it was: the offset graph, cached values included, the ignore
    registry and the reports. *)
Theorem copyOffset_without_source_entry token srcToken st :
  offsets st !! srcToken = None ->
  copyOffset token srcToken st = Done tt st.
Proof.
  intros H. destruct token as [[t|]|ts]; simpl; try reflexivity;
    unfold mbind, M_bind, offsets_get; by rewrite H.
Qed.

Lemma copyOffset_without_source_entry_witness :
  let st := ex_state (<[ex_y := Relative ex_if 1 (Some (Finite 2))]> ∅) ∅ in
  offsets st !! ex_brace = None /\
  copyOffset (Array [Some ex_y; None]) ex_brace st = Done tt st.
Proof.
  intros st. split; [reflexivity|].
  apply (copyOffset_without_source_entry (Array [Some ex_y; None]) ex_brace st).
  reflexivity.
Defined.

(** ** The ignore registry and the lines that are skipped *)

Lemma ignore_spec sourceCode node st :
  exists st', ignore sourceCode node st = Done tt st' /\
    offsets st' = offsets st /\ reports st' = reports st /\
    ignoreTokens st ⊆ ignoreTokens st' /\
    forall t, t ∈ getTokens sourceCode node false -> t ∈ ignoreTokens st'.
Proof.
  unfold ignore. generalize (getTokens sourceCode node false) as l. intros l.
  revert st. induction l as [|x l IH]; intros st; simpl.
  - exists st. do 3 (split; [reflexivity|]). split; [done|].
    intros t Ht. by apply elem_of_nil in Ht.
  - unfold mbind, M_bind, ignoreTokens_add.
    match goal with |- context [for_of l _ ?s] => destruct (IH s)
      as (st' & H & Ho & Hr & Hsub & Hin) end.
    simpl in *. exists st'. split; [exact H|]. split; [exact Ho|].
    split; [exact Hr|]. split; [set_solver|].
    intros t [->|Ht]%elem_of_cons; [set_solver | by apply Hin].
Qed.

Section Lines.

Variable options : IndentOptions.
Variable sourceCode : SourceCode.
Variable fuel : nat.

(** The loop of [getExpectedIndentFromTokens] stops with null at an ignored
    token that it reaches. *)
Lemma getExpectedIndentFromTokens_ignored pre t post st :
  t ∈ ignoreTokens st ->
  (forall u, u ∈ pre ->
     u ∈ ignoreTokens st \/
     getExpectedIndentFromToken options fuel u st = Done None st) ->
  getExpectedIndentFromTokens options fuel (pre ++ t :: post) st = Done None st.
Proof.
  intros Ht. induction pre as [|u pre IH]; intros Hpre; simpl.
  - unfold mbind, M_bind, ignoreTokens_has. by rewrite bool_decide_true.
  - unfold mbind, M_bind, ignoreTokens_has.
    destruct (bool_decide (u ∈ ignoreTokens st)) eqn:Hu; [reflexivity|].
    destruct (Hpre u) as [Hi|Hn]; [by left| |].
    + apply bool_decide_eq_false in Hu. contradiction.
    + rewrite Hn. apply IH. intros v Hv. apply Hpre. by right.
Qed.

(** A line whose resolution gives null: nothing but [saveExpectedIndent]
    with the first token's column runs. *)
Lemma processLine_unresolved firstToken rest prevComments prevToken st :
  getExpectedIndentFromTokens options fuel (firstToken :: rest) st = Done None st ->
  processLine options sourceCode fuel (firstToken :: rest) prevComments prevToken st
  = saveExpectedIndent (firstToken :: rest)
      (Z.of_nat (column (start (loc firstToken)))) st.
Proof. intros H. unfold processLine. by rewrite (bind_Done_l _ _ _ _ _ H). Qed.

(** A token without a cached value is all that can fail to resolve. *)
Lemma unresolved_has_no_cache n t st st' info :
  getExpectedIndentFromToken options n t st = Done None st' ->
  offsets st !! t = Some info -> expectedIndent_of info = None.
Proof.
  unfold getExpectedIndentFromToken. destruct n as [|n]; [discriminate|].
  simpl. unfold mbind, M_bind, offsets_get. intros H Ht. rewrite Ht in H.
  by destruct info as [b o [e|]|o [e|]].
Qed.

End Lines.

(** C2. When a token of the line is in the ignore registry and every token
    before it in the line is ignored or resolves to null (so, whenever the
    first token of the line is ignored), the resolution of the line gives
    null and [processLine] returns without a report and without a fix. A
    token that is in the registry is still in it after any traversal of the
    listener. *)
Theorem ignored_token_skips_line options sourceCode fuel pre t post
    prevComments prevToken st :
  t ∈ ignoreTokens st ->
  (forall u, u ∈ pre ->
     u ∈ ignoreTokens st \/
     getExpectedIndentFromToken options fuel u st = Done None st) ->
  getExpectedIndentFromTokens options fuel (pre ++ t :: post) st = Done None st /\
  (exists st',
     processLine options sourceCode fuel (pre ++ t :: post) prevComments
       prevToken st = Done tt st' /\
     reports st' = reports st /\ ignoreTokens st' = ignoreTokens st) /\
  (forall isNotWhitespace es sv events st2,
     traverse (listener options sourceCode isNotWhitespace fuel es sv) events st
       = Done tt st2 ->
     t ∈ ignoreTokens st2).
Proof.
  intros Ht Hpre.
  pose proof (getExpectedIndentFromTokens_ignored options fuel pre t post st
                Ht Hpre) as Hnull.
  split; [exact Hnull|]. split.
  - destruct (pre ++ t :: post) as [|firstToken rest] eqn:Hl.
    { by destruct pre. }
    rewrite (processLine_unresolved _ _ _ _ _ _ _ _ Hnull).
    destruct (saveExpectedIndent_spec (firstToken :: rest)
                (Z.of_nat (column (start (loc firstToken)))) st)
      as (st' & H & Hi & Hr & _).
    exists st'. auto.
  - intros isNW es sv events st2 H.
    eapply (traverse_preserves (fun s => t ∈ ignoreTokens s)); [|exact Ht|exact H].
    apply listener_preserves.
    + intros t0 b o _ s a s' Hs Hd. by done_inv Hd.
    + intros t0 o s a s' Hs Hd. by done_inv Hd.
    + intros t0 info e s s' _ _ Hs Hd. by done_inv Hd.
    + intros t0 s a s' Hs Hd. done_inv Hd. set_solver.
    + intros r s a s' Hs Hd. by done_inv Hd.
Qed.

Lemma ignored_token_skips_line_witness :
  let st := ex_state ex_graph {[ex_y]} in
  ex_y ∈ ignoreTokens st /\
  getExpectedIndentFromTokens ex_options 2 [ex_y; ex_eq] st = Done None st /\
  exists st',
    processLine ex_options ex_sourceCode 2 [ex_y; ex_eq] [] (Some ex_brace) st
      = Done tt st' /\
    reports st' = reports st /\ ignoreTokens st' = ignoreTokens st.
Proof.
  intros st.
  assert (ex_y ∈ ignoreTokens st) as Hin by (unfold st, ex_state; simpl; set_solver).
  split; [exact Hin|].
  destruct (ignored_token_skips_line ex_options ex_sourceCode 2 [] ex_y [ex_eq]
              [] (Some ex_brace) st Hin) as (H1 & H2 & _).
  - intros u Hu. by apply elem_of_nil in Hu.
  - split; [exact H1 | exact H2].
Defined.

(** C2 as the specification words it fails: the second token of the line is
    ignored, the first one resolves, and the line is reported. *)
Lemma ignored_later_token_still_reported :
  let st := ex_state ex_graph {[ex_eq]} in
  ex_eq ∈ [ex_y; ex_eq] /\ ex_eq ∈ ignoreTokens st /\
  getExpectedIndentFromTokens ex_options 2 [ex_y; ex_eq] st = Done (Some (Finite 2)) st /\
  reports <$> outcome_state
    (processLine ex_options ex_sourceCode 2 [ex_y; ex_eq] [] (Some ex_brace) st)
  = Some [unexpectedIndentation ex_options ex_sourceCode 2 0 2 []].
Proof.
  intros st. split; [by right; left|].
  split; [unfold st, ex_state; simpl; set_solver|].
  split; [reflexivity|]. vm_compute. reflexivity.
Qed.

(** ** C4: lines that do not resolve *)

Lemma resolve_cached options n t st info e :
  offsets st !! t = Some info -> expectedIndent_of info = Some e ->
  getExpectedIndentFromToken options (S n) t st = Done (Some e) st.
Proof.
  intros H He. unfold getExpectedIndentFromToken. simpl.
  unfold mbind, M_bind, offsets_get. rewrite H.
  destruct info as [b o c|o c]; simpl in He; by subst c.
Qed.

Lemma resolve_relative options n t st b o r :
  offsets st !! t = Some (Relative b o None) ->
  getExpectedIndentFromToken options n b st = Done r st ->
  getExpectedIndentFromToken options (S n) t st
  = Done ((fun baseIndent =>
             Number_add baseIndent (Number_mul o (indentSize options))) <$> r)
         st.
Proof.
  intros H Hb. unfold getExpectedIndentFromToken in *. simpl.
  unfold mbind, M_bind, offsets_get. rewrite H, Hb. by destruct r.
Qed.

(** C4. When the resolution of a line gives null, [processLine] returns
    without a report; every token of the line that has an entry without a
    cached value (so, every token of the line that has an entry and resolves
    to null) gets the column of the line's first token as cached value, and
    a token without an entry gets nothing. A token outside the line
    whose uncached relative entry has such a cached token as base then
    resolves to that column plus its own offset times the indent size, the
    sum and the product being those of JavaScript numbers. *)
Theorem unresolved_line_bootstraps options sourceCode fuel firstToken rest
    prevComments prevToken st :
  let tokens := firstToken :: rest in
  let actualIndent := Finite (Z.of_nat (column (start (loc firstToken)))) in
  getExpectedIndentFromTokens options fuel tokens st = Done None st ->
  exists st',
    processLine options sourceCode fuel tokens prevComments prevToken st
      = Done tt st' /\
    reports st' = reports st /\ ignoreTokens st' = ignoreTokens st /\
    (forall t info,
       t ∈ tokens -> offsets st !! t = Some info ->
       expectedIndent_of info = None ->
       offsets st' !! t = Some (with_expectedIndent info (Some actualIndent))) /\
    (forall t info,
       t ∈ tokens -> offsets st !! t = Some info ->
       getExpectedIndentFromToken options fuel t st = Done None st ->
       offsets st' !! t = Some (with_expectedIndent info (Some actualIndent))) /\
    (forall t, offsets st !! t = None -> offsets st' !! t = None) /\
    (forall t info u o n,
       t ∈ tokens -> offsets st !! t = Some info ->
       expectedIndent_of info = None ->
       u ∉ tokens -> offsets st !! u = Some (Relative t o None) ->
       getExpectedIndentFromToken options (S (S n)) u st'
       = Done (Some (Number_add actualIndent
                       (Number_mul o (indentSize options)))) st').
Proof.
  intros tokens actualIndent Hnull.
  rewrite (processLine_unresolved _ _ _ _ _ _ _ _ Hnull).
  destruct (saveExpectedIndent_spec tokens actualIndent st)
    as (st' & H & Hi & Hr & Ho).
  assert (forall t info,
            t ∈ tokens -> offsets st !! t = Some info ->
            expectedIndent_of info = None ->
            offsets st' !! t = Some (with_expectedIndent info (Some actualIndent)))
    as Hsaved.
  { intros t info Hin Ht Hc. rewrite Ho, decide_True, Ht by done. simpl.
    unfold save_entry. by rewrite Hc. }
  exists st'. split; [exact H|]. split; [exact Hr|]. split; [exact Hi|].
  split; [exact Hsaved|]. split.
  { intros t info Hin Ht Hnone. apply Hsaved; [done..|].
    by eapply unresolved_has_no_cache. }
  split.
  - intros t Ht. rewrite Ho, Ht. by case_decide.
  - intros t info u o n Hin Ht Hc Hu Hrel.
    assert (offsets st' !! u = Some (Relative t o None)) as Hu'.
    { by rewrite Ho, decide_False. }
    rewrite (resolve_relative options (S n) u st' t o (Some actualIndent) Hu').
    + reflexivity.
    + eapply resolve_cached; [by apply Hsaved|]. by destruct info.
Qed.

(** The graph of the witness: [ex_if] hangs under a token that has no
    entry, [ex_y] under [ex_if]. *)
Definition ex_graph_unrooted : gmap Token OffsetInfo :=
  <[ex_y := Relative ex_if 1 None]> (<[ex_if := Relative ex_close 0 None]> ∅).

Lemma unresolved_line_bootstraps_witness :
  let st := ex_state ex_graph_unrooted ∅ in
  getExpectedIndentFromTokens ex_options 3 [ex_if; ex_brace] st = Done None st /\
  exists st',
    processLine ex_options ex_sourceCode 3 [ex_if; ex_brace] [] None st
      = Done tt st' /\
    offsets st' !! ex_if = Some (Relative ex_close 0 (Some (Finite 0))) /\
    getExpectedIndentFromToken ex_options 2 ex_y st' = Done (Some (Finite (0 + 1 * 2))) st'.
Proof.
  intros st.
  assert (getExpectedIndentFromTokens ex_options 3 [ex_if; ex_brace] st
          = Done None st) as Hnull by reflexivity.
  split; [exact Hnull|].
  destruct (unresolved_line_bootstraps ex_options ex_sourceCode 3 ex_if
              [ex_brace] [] None st Hnull)
    as (st' & Hrun & _ & _ & Hsaved & _ & _ & Hdep).
  exists st'. split; [exact Hrun|]. split.
  - apply (Hsaved ex_if (Relative ex_close 0 None)); [by left|reflexivity..].
  - apply (Hdep ex_if (Relative ex_close 0 None) ex_y 1 0%nat);
      [by left|reflexivity|reflexivity| |reflexivity].
    intros Hin. apply list_elem_of_In in Hin. simpl in Hin.
    destruct Hin as [Heq|[Heq|[]]]; discriminate Heq.
Defined.

(** C4 as the specification words it fails: the token of an unresolvable
    line has no entry, so nothing is saved for it, and the token that
    depends on it does not resolve against its column. *)
Lemma unresolved_line_without_entry_saves_nothing :
  let st := ex_state (<[ex_y := Relative ex_if 1 None]> ∅) ∅ in
  getExpectedIndentFromTokens ex_options 3 [ex_if; ex_brace] st = Done None st /\
  exists st',
    processLine ex_options ex_sourceCode 3 [ex_if; ex_brace] [] None st
      = Done tt st' /\
    offsets st' !! ex_if = None /\
    offsets st' !! ex_y = Some (Relative ex_if 1 None) /\
    getExpectedIndentFromToken ex_options 3 ex_y st' = Done None st'.
Proof.
  intros st. split; [reflexivity|]. exists st. repeat split.
Qed.

(** ** C7: ignored nodes *)






(** A node of a type that no table knows; its tokens are those of the
    second line. *)
Definition ex_unknown : ASTNode :=
  {| node_type := "FutureStatement"; node_range := (9, 15)%nat |}.

Definition ex_sourceCode_unknown : SourceCode :=
  {| lines := ex_lines;
     getIndexFromLoc := getIndexFromLoc ex_sourceCode;
     getTokens := fun node _ =>
       if String.eqb (node_type node) "FutureStatement" then [ex_y; ex_eq]
       else [ex_if; ex_brace; ex_y; ex_eq; ex_close];
     stringLimit := 2 ^ 29 - 24 |}.


(** ** C3: the validator *)

(** The state after some more reports. *)
Definition add_reports (st : State) (new : list Report) : State :=
  {| offsets := offsets st; ignoreTokens := ignoreTokens st;
     reports := reports st ++ new |}.

Lemma add_reports_nil st : add_reports st [] = st.
Proof. destruct st. unfold add_reports. simpl. by rewrite app_nil_r. Qed.

Lemma for_of_context_report {A} (f : A -> Report) l st :
  (forall x, fix_ (f x) <> None) ->
  for_of l (fun x => context_report (f x)) st = Done tt (add_reports st (map f l)).
Proof.
  intros Hfix. revert st. induction l as [|x l IH]; intros st; simpl.
  - by rewrite add_reports_nil.
  - unfold mbind, M_bind, context_report at 1.
    destruct (fix_ (f x)) eqn:Hx; [|by apply Hfix in Hx].
    rewrite IH. unfold add_reports. simpl. by rewrite <- app_assoc.
Qed.

Lemma for_of_unexpectedChar options sourceCode lineNo indentText l st :
  for_of l (fun i => context_report
                       (unexpectedChar options sourceCode lineNo indentText i)) st
  = Done tt (add_reports st
               (map (unexpectedChar options sourceCode lineNo indentText) l)).
Proof. by apply for_of_context_report. Qed.

(** [Number_eqb] against a column is equality. *)
Lemma Number_eqb_column (k : Z) e : Number_eqb k e = true <-> Finite k = e.
Proof.
  split; [apply Number_eqb_eq|]. intros <-. simpl. apply Z.eqb_refl.
Qed.

Lemma Number_eqb_column_ne (k : Z) e : Number_eqb k e = false <-> Finite k <> e.
Proof.
  rewrite <- Number_eqb_column. by destruct (Number_eqb k e).
Qed.

(** What [repeat] builds, without reference to how it is built. *)
Lemma repeat_char_length c n : String.length (repeat_char c n) = n.
Proof. induction n; simpl; congruence. Qed.

Lemma repeat_char_get c n i a :
  String.get i (repeat_char c n) = Some a -> a = c.
Proof.
  revert i. induction n as [|n IH]; intros i; simpl; [discriminate|].
  destruct i as [|i]; [congruence|apply IH].
Qed.

Lemma String_repeat_Some maxLength c (n : Z) :
  0 <= n <= maxLength ->
  String_repeat maxLength c n = Some (repeat_char c (Z.to_nat n)).
Proof.
  intros [H0 Hmax]. unfold String_repeat.
  apply Z.ltb_ge in H0. apply Z.ltb_ge in Hmax. by rewrite H0, Hmax.
Qed.

(** The counts that [repeat] refuses. *)
Definition RangeError_count (maxLength : Z) (count : Number) : Prop :=
  match count with
  | Finite n => n < 0 \/ maxLength < n
  | PosInfinity | NegInfinity => True
  | NaN => False
  end.

Lemma String_repeat_None maxLength c count :
  String_repeat maxLength c count = None <-> RangeError_count maxLength count.
Proof.
  unfold String_repeat, RangeError_count. destruct count as [n| | |]; try done.
  destruct (Z.ltb_spec n 0); [split; [lia|done]|].
  destruct (Z.ltb_spec maxLength n); [split; [lia|done]|].
  split; [done|lia].
Qed.

(** The indexes collected are those of the characters that differ from
    [indentChar], each once. *)
Lemma mismatchCharIndexes_from_spec options k s i :
  i ∈ mismatchCharIndexes_from options k s <->
  exists j c, i = (k + j)%nat /\ String.get j s = Some c /\ c <> indentChar options.
Proof.
  revert k. induction s as [|a s IH]; intros k; simpl.
  - split; [by intros ?%elem_of_nil | by intros (j & c & _ & ? & _)].
  - destruct (Ascii.eqb_spec a (indentChar options)) as [Heq|Hne].
    + rewrite IH. split.
      * intros (j & c & -> & Hg & Hc). exists (S j), c. split; [lia|done].
      * intros ([|j] & c & -> & Hg & Hc); [congruence|].
        exists j, c. split; [lia|done].
    + rewrite elem_of_cons, IH. split.
      * intros [->|(j & c & -> & Hg & Hc)].
        -- exists 0%nat, a. split; [lia|done].
        -- exists (S j), c. split; [lia|done].
      * intros ([|j] & c & -> & Hg & Hc).
        -- left. lia.
        -- right. exists j, c. split; [lia|done].
Qed.

Lemma mismatchCharIndexes_from_NoDup options k s :
  NoDup (mismatchCharIndexes_from options k s).
Proof.
  revert k. induction s as [|a s IH]; intros k; simpl; [constructor|].
  destruct (Ascii.eqb a (indentChar options)); [apply IH|].
  constructor; [|apply IH].
  rewrite mismatchCharIndexes_from_spec. intros (j & c & ? & _). lia.
Qed.

(** C3. For a token on an existing line, [validateToken] either returns
    with one [unexpectedIndentation] report or with [unexpectedChar] reports
    only, never both, or throws the [RangeError] of the fix of the width
    report. When the text before the token is white space (its [trim()] is
    the empty string) and the column differs from the expected indent: if
    the expected indent is an integer from 0 to the longest string of the
    engine, the one report made is the [unexpectedIndentation] one, from
    column 0 to the token's column, with a fix that replaces this range by
    a text of [expectedIndent] characters, each of them [indentChar]; if it
    is [NaN] the fix text is empty; if it is negative, infinite or beyond
    the longest string, [repeat] throws in the fix callback, within
    [context.report], and [validateToken] throws without a report. If the
    column is the expected indent, there is one [unexpectedChar] report for
    each position whose character differs from [indentChar], with a fix
    that replaces this one character by [indentChar]. *)
Theorem validateToken_width_or_chars options sourceCode token expectedIndent
    st l text :
  let lineNo := line (start (loc token)) in
  let actualIndent := column (start (loc token)) in
  let indentText := slice0 actualIndent text in
  let mismatches := mismatchCharIndexes_from options 0 indentText in
  let width :=
    unexpectedIndentation options sourceCode lineNo actualIndent expectedIndent
      mismatches in
  let range :=
    (getIndexFromLoc sourceCode (mkPosition lineNo 0),
     getIndexFromLoc sourceCode (mkPosition lineNo actualIndent)) in
  lineNo = S l -> lines sourceCode !! l = Some text ->
  match validateToken options sourceCode token expectedIndent st with
  | Done _ st' =>
      exists new,
        st' = add_reports st new /\
        ((exists r, new = [r] /\ messageId r = "unexpectedIndentation") \/
         Forall (fun r => messageId r = "unexpectedChar") new)
  | Throws =>
      allWhiteSpace indentText = true /\
      Finite (Z.of_nat actualIndent) <> expectedIndent /\
      RangeError_count (maxStringLength sourceCode) expectedIndent
  | OutOfFuel => False
  end /\
  (allWhiteSpace indentText = true ->
   (Finite (Z.of_nat actualIndent) <> expectedIndent ->
    messageId width = "unexpectedIndentation" /\
    report_loc width = {| start := mkPosition lineNo 0;
                          end_ := mkPosition lineNo actualIndent |} /\
    (forall n : Z,
       expectedIndent = Finite n -> 0 <= n <= maxStringLength sourceCode ->
       validateToken options sourceCode token expectedIndent st
         = Done tt (add_reports st [width]) /\
       exists text,
         fix_ width = Some {| edit_range := range; edit_text := text |} /\
         String.length text = Z.to_nat n /\
         forall i c, String.get i text = Some c -> c = indentChar options) /\
    (expectedIndent = NaN ->
       validateToken options sourceCode token expectedIndent st
         = Done tt (add_reports st [width]) /\
       fix_ width = Some {| edit_range := range; edit_text := EmptyString |}) /\
    (RangeError_count (maxStringLength sourceCode) expectedIndent ->
       validateToken options sourceCode token expectedIndent st = Throws)) /\
   (Finite (Z.of_nat actualIndent) = expectedIndent ->
    validateToken options sourceCode token expectedIndent st
      = Done tt (add_reports st
                   (map (unexpectedChar options sourceCode lineNo indentText)
                      mismatches)) /\
    NoDup mismatches /\
    (forall i, i ∈ mismatches <->
       exists c, String.get i indentText = Some c /\ c <> indentChar options) /\
    (forall i,
       let r := unexpectedChar options sourceCode lineNo indentText i in
       messageId r = "unexpectedChar" /\
       report_loc r = {| start := mkPosition lineNo i;
                         end_ := mkPosition lineNo (i + 1) |} /\
       fix_ r =
         Some {| edit_range :=
                   (getIndexFromLoc sourceCode (mkPosition lineNo i),
                    getIndexFromLoc sourceCode (mkPosition lineNo (i + 1)));
                 edit_text := String (indentChar options) EmptyString |}))).
Proof.
  intros lineNo actualIndent indentText mismatches width range Hline Htext.
  assert (forall s, getIndentText sourceCode (start (loc token)) s
                    = Done indentText s) as Hget.
  { intros s. unfold getIndentText. fold lineNo. by rewrite Hline, Htext. }
  assert (validateToken options sourceCode token expectedIndent st =
    (if negb (String.eqb (trim indentText) EmptyString) then mret tt
     else if negb (Number_eqb (Z.of_nat actualIndent) expectedIndent)
          then context_report width
          else for_of mismatches
                 (fun i => context_report
                    (unexpectedChar options sourceCode lineNo indentText i))) st)
    as Hval.
  { unfold validateToken. by rewrite (bind_Done_l _ _ _ _ _ (Hget st)). }
  assert (fix_ width =
          (fun text => {| edit_range := range; edit_text := text |})
            <$> String_repeat (maxStringLength sourceCode) (indentChar options)
                  expectedIndent) as Hfix by reflexivity.
  split.
  - rewrite Hval.
    destruct (String.eqb_spec (trim indentText) EmptyString) as [Htrim|Htrim];
      cbn [negb].
    2:{ exists []. rewrite add_reports_nil. split; [reflexivity|]. right.
        constructor. }
    apply trim_empty in Htrim.
    destruct (Number_eqb (Z.of_nat actualIndent) expectedIndent) eqn:Heq;
      cbn [negb].
    + rewrite for_of_unexpectedChar. eexists. split; [reflexivity|]. right.
      apply Forall_forall. by intros r (i & -> & _)%list_elem_of_fmap.
    + unfold context_report. rewrite Hfix.
      destruct (String_repeat (maxStringLength sourceCode) (indentChar options)
                  expectedIndent) eqn:Hrep; cbn [fmap option_fmap option_map].
      * exists [width]. split; [reflexivity|]. left. by exists width.
      * split; [exact Htrim|]. split; [by apply Number_eqb_column_ne|].
        by apply String_repeat_None in Hrep.
  - intros Htrim%trim_empty. rewrite Hval, Htrim.
    rewrite String.eqb_refl. cbn [negb]. split.
    + intros Hne. apply Number_eqb_column_ne in Hne. rewrite Hne. cbn [negb].
      split; [reflexivity|]. split; [reflexivity|].
      unfold context_report. rewrite Hfix. split; [|split].
      * intros n -> Hn. rewrite (String_repeat_Some _ _ _ Hn).
        cbn [fmap option_fmap option_map].
        split; [reflexivity|]. eexists. split; [reflexivity|].
        split; [apply repeat_char_length|]. intros i c. apply repeat_char_get.
      * by intros ->.
      * intros Hrange%(String_repeat_None _ (indentChar options)).
        by rewrite Hrange.
    + intros Heq. apply Number_eqb_column in Heq. rewrite Heq. cbn [negb].
      split; [apply for_of_unexpectedChar|].
      split; [apply mismatchCharIndexes_from_NoDup|]. split.
      * intros i. unfold mismatches. rewrite mismatchCharIndexes_from_spec. split.
        -- intros (j & c & -> & H). by exists c.
        -- intros (c & H). by exists i, c.
      * intros i. by repeat split.
Qed.

(** The second line indented by one tab, where one space is expected. *)
Definition ex_tab_line : string := String tab "y = 1;".

Definition ex_tab_sourceCode : SourceCode :=
  {| lines := [ "if (x) {"; ex_tab_line; "}" ];
     getIndexFromLoc := getIndexFromLoc ex_sourceCode;
     getTokens := getTokens ex_sourceCode;
     stringLimit := 2 ^ 29 - 24 |}.

Definition ex_tab_y : Token := ex_token "Identifier" 2 1 1 10.

Lemma validateToken_width_or_chars_witness :
  let st := ex_state ∅ ∅ in
  (allWhiteSpace (slice0 0 "y = 1;") = true /\ Finite (Z.of_nat 0) <> Finite 2 /\
   0 <= 2 <= maxStringLength ex_sourceCode /\
   validateToken ex_options ex_sourceCode ex_y 2 st
   = Done tt (add_reports st
                [unexpectedIndentation ex_options ex_sourceCode 2 0 2 []]) /\
   fix_ (unexpectedIndentation ex_options ex_sourceCode 2 0 2 [])
   = Some {| edit_range := (9, 9)%nat; edit_text := "  " |}) /\
  (allWhiteSpace (slice0 1 ex_tab_line) = true /\
   validateToken ex_options ex_tab_sourceCode ex_tab_y 1 st
   = Done tt (add_reports st
                [unexpectedChar ex_options ex_tab_sourceCode 2
                   (String tab EmptyString) 0])).
Proof.
  intros st. split.
  - assert (allWhiteSpace (slice0 0 "y = 1;") = true) as Htrim by reflexivity.
    assert (Finite (Z.of_nat 0) <> Finite 2) as Hne by discriminate.
    assert (0 <= 2 <= maxStringLength ex_sourceCode) as Hn
      by (vm_compute; split; discriminate).
    split; [exact Htrim|]. split; [exact Hne|]. split; [exact Hn|].
    destruct (validateToken_width_or_chars ex_options ex_sourceCode ex_y 2 st
                1%nat "y = 1;" eq_refl eq_refl) as [_ H].
    destruct (H Htrim) as [Hwidth _].
    destruct (Hwidth Hne) as (_ & _ & Hcount & _).
    destruct (Hcount 2 eq_refl Hn) as [Hrun _].
    split; [exact Hrun|reflexivity].
  - assert (allWhiteSpace (slice0 1 ex_tab_line) = true) as Htrim by reflexivity.
    split; [exact Htrim|].
    destruct (validateToken_width_or_chars ex_options ex_tab_sourceCode ex_tab_y
                1 st 1%nat ex_tab_line eq_refl eq_refl) as [_ H].
    destruct (H Htrim) as [_ Hchars]. destruct (Hchars eq_refl) as [Hrun _].
    exact Hrun.
Defined.

(** C3 as the specification words it fails: with the option [indent: -2],
    which [parseOptions] accepts, the token one level under a baseline at
    level 0 has the expected indent -2; its column 0 differs, and the
    validation of its line throws instead of reporting. So it does with
    [indent: 2 ^ 40], an indent beyond the longest string. *)
Lemma negative_indent_throws_without_report :
  let options (n : Z) :=
    parseOptions {| indent := Some (IndentNumber n); u_switchCase := None;
                    u_ignoredNodes := None |}
      (mkPartialIndentOptions None None None None) in
  let st := ex_state ex_graph ∅ in
  let throws (n : Z) :=
    indentSize (options n) = Finite n /\
    getExpectedIndentFromTokens (options n) 2 [ex_y; ex_eq] st
      = Done (Some (Finite n)) st /\
    Finite (Z.of_nat (column (start (loc ex_y)))) <> Finite n /\
    validateToken (options n) ex_sourceCode ex_y n st = Throws /\
    processLine (options n) ex_sourceCode 2 [ex_y; ex_eq] [] (Some ex_brace) st
      = Throws in
  throws (-2) /\ throws (2 ^ 40).
Proof.
  intros options st throws.
  split;
    (split; [reflexivity|]; split; [vm_compute; reflexivity|];
     split; [vm_compute; discriminate|];
     split; vm_compute; reflexivity).
Qed.

(** ** C5: comment lines *)

Section Walker.

Variable options : IndentOptions.
Variable sourceCode : SourceCode.
Variable fuel : nat.

(** The walker defers a buffer of comments: its first token goes to the
    pending comments and nothing is yielded. *)
Lemma iterateLineTokens_loop_defers token rest lineNo pending first more :
  line (start (loc token)) <> lineNo ->
  forallb isCommentToken (first :: more) = true ->
  iterateLineTokens_loop (token :: rest) lineNo pending (first :: more)
  = iterateLineTokens_loop rest (line (start (loc token)))
      (pending ++ [first]) [token].
Proof.
  intros Hline Hall. simpl iterateLineTokens_loop.
  assert ((lineNo =? line (start (loc token)))%nat = false) as ->
    by (apply Nat.eqb_neq; congruence).
  simpl. simpl in Hall. rewrite Hall.
  apply andb_true_iff in Hall as [-> _]. reflexivity.
Qed.

(** The first group that is yielded starts with the pending comments. *)
Lemma iterateLineTokens_loop_pending rest lineNo pending buffer g gs :
  iterateLineTokens_loop rest lineNo pending buffer = g :: gs ->
  pending `prefix_of` prevComments g.
Proof.
  revert lineNo pending buffer.
  induction rest as [|token rest IH]; intros lineNo pending buffer H; simpl in H.
  - destruct (_ && _); [|discriminate]. by inversion H.
  - destruct (_ || _); [by eapply IH|].
    destruct buffer as [|first more]; [by eapply IH|].
    destruct (_ && _).
    + apply IH in H. etrans; [|exact H]. by apply prefix_app_r.
    + by inversion H.
Qed.

(** The comments a group carries are comment tokens, and its own tokens
    are not all comments. *)
Lemma iterateLineTokens_loop_groups rest lineNo pending buffer g :
  forallb isCommentToken pending = true ->
  g ∈ iterateLineTokens_loop rest lineNo pending buffer ->
  forallb isCommentToken (prevComments g) = true /\
  forallb isCommentToken (tokens g) = false.
Proof.
  revert lineNo pending buffer.
  induction rest as [|token rest IH]; intros lineNo pending buffer Hp H;
    simpl in H.
  - destruct (negb (length buffer =? 0)%nat) eqn:Hlen; simpl in H;
      [|by apply elem_of_nil in H].
    destruct (forallb isCommentToken buffer) eqn:Hall; simpl in H;
      [by apply elem_of_nil in H|].
    apply list_elem_of_singleton in H. by subst g.
  - destruct (_ || _); [by eapply IH|].
    destruct buffer as [|first more]; [by eapply IH|].
    destruct (isCommentToken first && forallb isCommentToken (first :: more))
      eqn:Hall.
    + eapply IH; [|exact H]. rewrite forallb_app, Hp. simpl.
      apply andb_true_iff in Hall as [-> _]. reflexivity.
    + apply elem_of_cons in H as [->|H]; [|by eapply (IH _ [])].
      simpl. split; [exact Hp|]. simpl in Hall.
      destruct (isCommentToken first); simpl in *; [exact Hall|reflexivity].
Qed.

(** A line that resolves: after the cache is written, the first pending
    comment and the first token of the line are what is validated. *)
Lemma processLine_resolved firstToken rest prevComments prevToken e st :
  getExpectedIndentFromTokens options fuel (firstToken :: rest) st
    = Done (Some e) st ->
  exists st1,
    saveExpectedIndent (firstToken :: rest) e st = Done tt st1 /\
    processLine options sourceCode fuel (firstToken :: rest) prevComments
      prevToken st
    = ((match prevComments with
        | [] => mret tt
        | comment :: _ =>
            if endsBefore prevToken comment
            then validateToken options sourceCode comment e
            else mret tt
        end) ;;
       (if endsBefore (match prevComments with
                       | [] => prevToken
                       | _ :: _ => last prevComments
                       end) firstToken
        then validateToken options sourceCode firstToken e
        else mret tt)) st1.
Proof.
  intros H.
  destruct (saveExpectedIndent_spec (firstToken :: rest) e st) as (st1 & H1 & _).
  exists st1. split; [exact H1|]. unfold processLine.
  rewrite (bind_Done_l _ _ _ _ _ H). rewrite (bind_Done_l _ _ _ _ _ H1).
  destruct prevComments as [|c cs]; [reflexivity|].
  unfold mbind, M_bind, mret, M_ret.
  destruct (if endsBefore prevToken c then _ else _); reflexivity.
Qed.

End Walker.

(** C5. When the line changes and the buffered tokens are all comments, the
    walker yields nothing and appends the first buffered token to the
    pending comments; the next group that is yielded starts with the pending
    comments, every group carries comment tokens only as its previous
    comments, and its own tokens are not all comments. For a line that
    resolves to an expected indent, [processLine] validates with that indent
    the first of the group's previous comments, when the previous token ends
    on an earlier line, and the first token of the line, when the last
    previous comment ends on an earlier line; it validates no other
    comment. *)
Theorem comment_lines_are_deferred options sourceCode fuel :
  (forall token rest lineNo pending first more,
     line (start (loc token)) <> lineNo ->
     forallb isCommentToken (first :: more) = true ->
     iterateLineTokens_loop (token :: rest) lineNo pending (first :: more)
     = iterateLineTokens_loop rest (line (start (loc token)))
         (pending ++ [first]) [token]) /\
  (forall rest lineNo pending buffer g gs,
     iterateLineTokens_loop rest lineNo pending buffer = g :: gs ->
     pending `prefix_of` prevComments g) /\
  (forall isNotWhitespace node g,
     g ∈ iterateLineTokens sourceCode isNotWhitespace node ->
     forallb isCommentToken (prevComments g) = true /\
     forallb isCommentToken (tokens g) = false) /\
  (forall firstToken rest comment comments prevToken e st,
     getExpectedIndentFromTokens options fuel (firstToken :: rest) st
       = Done (Some e) st ->
     exists st1,
       saveExpectedIndent (firstToken :: rest) e st = Done tt st1 /\
       processLine options sourceCode fuel (firstToken :: rest)
         (comment :: comments) prevToken st
       = ((if endsBefore prevToken comment
           then validateToken options sourceCode comment e
           else mret tt) ;;
          (if endsBefore (last (comment :: comments)) firstToken
           then validateToken options sourceCode firstToken e
           else mret tt)) st1).
Proof.
  split; [apply iterateLineTokens_loop_defers|].
  split; [apply iterateLineTokens_loop_pending|]. split.
  - intros isNW node g. by apply iterateLineTokens_loop_groups.
  - intros firstToken rest comment comments prevToken e st H.
    apply (processLine_resolved options sourceCode fuel firstToken rest
             (comment :: comments) prevToken e st H).
Qed.

(** A file with two comment lines before a code line: [// one], then
    [/* two */ /* three */], then the statement, indented as it should. *)
Definition ex_comment_lines : list string :=
  [ "if (x) {"; "// one"; "/* two */ /* three */"; "  y = 1;"; "}" ].

Definition ex_c1 : Token := ex_token "Line" 2 0 6 9.
Definition ex_c2 : Token := ex_token "Block" 3 0 9 16.
Definition ex_c3 : Token := ex_token "Block" 3 10 11 26.
Definition ex_y4 : Token := ex_token "Identifier" 4 2 1 40.
Definition ex_eq4 : Token := ex_token "Punctuator" 4 4 1 42.
Definition ex_close5 : Token := ex_token "Punctuator" 5 0 1 47.

Definition ex_comment_sourceCode : SourceCode :=
  {| lines := ex_comment_lines;
     getIndexFromLoc := fun p =>
       match line p with
       | 1 => column p
       | 2 => 9 + column p
       | 3 => 16 + column p
       | 4 => 38 + column p
       | _ => 47 + column p
       end%nat;
     getTokens := fun _ includeComments =>
       if includeComments
       then [ex_if; ex_brace; ex_c1; ex_c2; ex_c3; ex_y4; ex_eq4; ex_close5]
       else [ex_if; ex_brace; ex_y4; ex_eq4; ex_close5];
     stringLimit := 2 ^ 29 - 24 |}.

Definition ex_comment_graph : gmap Token OffsetInfo :=
  <[ex_close5 := Relative ex_if 0 None]>
    (<[ex_y4 := Relative ex_if 1 None]> (<[ex_if := Baseline 0 None]> ∅)).

Lemma comment_lines_are_deferred_witness :
  let st := ex_state ex_comment_graph ∅ in
  getExpectedIndentFromTokens ex_options 3 [ex_y4; ex_eq4] st = Done (Some (Finite 2)) st /\
  exists st1,
    saveExpectedIndent [ex_y4; ex_eq4] 2 st = Done tt st1 /\
    processLine ex_options ex_comment_sourceCode 3 [ex_y4; ex_eq4]
      [ex_c1; ex_c2] (Some ex_brace) st
    = (validateToken ex_options ex_comment_sourceCode ex_c1 2 ;;
       validateToken ex_options ex_comment_sourceCode ex_y4 2) st1.
Proof.
  intros st.
  assert (getExpectedIndentFromTokens ex_options 3 [ex_y4; ex_eq4] st
          = Done (Some (Finite 2)) st) as Hres by reflexivity.
  split; [exact Hres|].
  destruct (comment_lines_are_deferred ex_options ex_comment_sourceCode 3)
    as (_ & _ & _ & Hline).
  destruct (Hline ex_y4 [ex_eq4] ex_c1 [ex_c2] (Some ex_brace) 2 st Hres)
    as (st1 & Hsave & Hrun).
  exists st1. split; [exact Hsave | exact Hrun].
Defined.

(** C5 as the specification words it fails: of the two comments buffered on
    the third line only the first is deferred, and of the two deferred
    comments only the first is validated: the second one is at column 0
    where 2 is expected, [validateToken] would report it, and the pass
    reports the first comment alone. *)
Lemma second_deferred_comment_not_validated :
  let st := ex_state ex_comment_graph ∅ in
  iterateLineTokens ex_comment_sourceCode (fun _ => true) ex_program
  = [ {| prevComments := []; tokens := [ex_if; ex_brace] |};
      {| prevComments := [ex_c1; ex_c2]; tokens := [ex_y4; ex_eq4] |} ;
      {| prevComments := []; tokens := [ex_close5] |} ] /\
  reports <$> outcome_state
    (validateToken ex_options ex_comment_sourceCode ex_c2 2 st)
  = Some [unexpectedIndentation ex_options ex_comment_sourceCode 3 0 2 []] /\
  reports <$> outcome_state
    (Program_exit ex_options ex_comment_sourceCode (fun _ => true) 3 ex_program st)
  = Some [unexpectedIndentation ex_options ex_comment_sourceCode 2 0 2 []].
Proof.
  intros st. split; [|split]; vm_compute; reflexivity.
Qed.

(** ** C9: files that are not Svelte files *)

(** C9. For a file whose name does not end with [.svelte], [defineVisitor]
    returns the empty listener; a traversal with it, whatever the nodes and
    the options, returns with the state as it was: no offset, no ignored
    token, no report. *)
Theorem not_svelte_no_listener ES SV isNotWhitespace fuel context defaultOptions :
  (forall p, getFilename context <> p +:+ ".svelte") ->
  defineVisitor ES SV isNotWhitespace fuel context defaultOptions = ∅ /\
  forall events st,
    traverse (defineVisitor ES SV isNotWhitespace fuel context defaultOptions)
      events st = Done tt st.
Proof.
  intros Hname.
  assert (endsWith (getFilename context) ".svelte" = false) as H.
  { destruct (endsWith _ _) eqn:He; [|reflexivity].
    apply endsWith_spec in He as [p Hp]. by destruct (Hname p). }
  unfold defineVisitor. rewrite H. simpl. split; [reflexivity|].
  intros events st. unfold traverse.
  induction events as [|ev events IH]; [reflexivity|]. simpl.
  unfold mbind, M_bind, emit. by rewrite lookup_empty.
Qed.

(** A rule context for [ex_sourceCode] under the given file name. *)
Definition ex_context (filename : string) : RuleContext :=
  {| getFilename := filename;
     context_options := [];
     getSourceCode := ex_sourceCode |}.

Definition ex_no_defaults : PartialIndentOptions :=
  {| d_indentChar := None; d_indentSize := None; d_switchCase := None;
     d_ignoredNodes := None |}.

Lemma not_svelte_no_listener_witness :
  (forall p, "src/index.ts" <> p +:+ ".svelte") /\
  traverse (defineVisitor (fun _ _ => ∅) (fun _ _ => ∅) (fun _ => true) 3
              (ex_context "src/index.ts") ex_no_defaults)
    [("Program:exit", ex_program)] (ex_state ex_graph ∅)
  = Done tt (ex_state ex_graph ∅).
Proof.
  assert (forall p, "src/index.ts" <> p +:+ ".svelte") as Hname.
  { intros p Hp.
    assert (endsWith "src/index.ts" ".svelte" = true) as He
      by (apply endsWith_spec; by exists p).
    discriminate He. }
  split; [exact Hname|].
  apply (not_svelte_no_listener (fun _ _ => ∅) (fun _ _ => ∅) (fun _ => true) 3
           (ex_context "src/index.ts") ex_no_defaults).
  exact Hname.
Defined.

(** ** The depth of recursion that is allowed does not change the result *)

(** [m2] returns what [m1] returns, whenever [m1] returns. *)
Definition refines {A} (m1 m2 : M A) : Prop :=
  forall st a st', m1 st = Done a st' -> m2 st = Done a st'.

Lemma refines_refl {A} (m : M A) : refines m m.
Proof. by intros st a st'. Qed.

Lemma refines_bind {A B} (m1 m2 : M A) (f1 f2 : A -> M B) :
  refines m1 m2 -> (forall a, refines (f1 a) (f2 a)) ->
  refines (m1 ≫= f1) (m2 ≫= f2).
Proof.
  intros Hm Hf st b st' H. apply bind_Done in H as (a & st1 & H1 & H2).
  rewrite (bind_Done_l _ _ _ _ _ (Hm _ _ _ H1)). by apply Hf.
Qed.

Lemma refines_for_of {A} (l : list A) (body1 body2 : A -> M unit) :
  (forall x, refines (body1 x) (body2 x)) ->
  refines (for_of l body1) (for_of l body2).
Proof.
  intros Hb. induction l as [|x l IH]; simpl; [apply refines_refl|].
  apply refines_bind; [apply Hb | intros _; exact IH].
Qed.

(** Two listeners with the same keys, the handlers of the second returning
    what those of the first return. *)
Definition listener_refines (l1 l2 : RuleListener) : Prop :=
  forall key,
    match l1 !! key, l2 !! key with
    | Some h1, Some h2 => forall node, refines (h1 node) (h2 node)
    | None, None => True
    | _, _ => False
    end.

Section Fuel.

Variable options : IndentOptions.
Variable sourceCode : SourceCode.
Variable isNotWhitespace : Token -> bool.
Variables fuel1 fuel2 : nat.
Hypothesis fuel_le : (fuel1 <= fuel2)%nat.

Lemma getExpectedIndentFromTokens_refines tokens :
  refines (getExpectedIndentFromTokens options fuel1 tokens)
          (getExpectedIndentFromTokens options fuel2 tokens).
Proof.
  induction tokens as [|t ts IH]; simpl; [apply refines_refl|].
  apply refines_bind; [apply refines_refl|]. intros [|]; [apply refines_refl|].
  apply refines_bind.
  - intros st r st'. by apply getExpectedIndentFromToken_rec_mono.
  - intros [e|]; [apply refines_refl | exact IH].
Qed.

Lemma processLine_refines tokens prevComments prevToken :
  refines (processLine options sourceCode fuel1 tokens prevComments prevToken)
          (processLine options sourceCode fuel2 tokens prevComments prevToken).
Proof.
  destruct tokens as [|firstToken rest]; [apply refines_refl|].
  apply refines_bind; [apply getExpectedIndentFromTokens_refines|].
  intros r. apply refines_refl.
Qed.

Lemma processLines_refines groups prevToken :
  refines (processLines options sourceCode fuel1 groups prevToken)
          (processLines options sourceCode fuel2 groups prevToken).
Proof.
  revert prevToken. induction groups as [|g gs IH]; intros prevToken; simpl.
  - apply refines_refl.
  - apply refines_bind; [apply processLine_refines | intros _; apply IH].
Qed.

Lemma compositingIgnoresVisitor_refines (v1 v2 : RuleListener) :
  listener_refines v1 v2 ->
  listener_refines (compositingIgnoresVisitor options sourceCode v1)
                   (compositingIgnoresVisitor options sourceCode v2).
Proof.
  unfold compositingIgnoresVisitor. revert v1 v2.
  induction (ignoredNodes options) as [|sel sels IH]; intros v1 v2 Hv; simpl.
  - exact Hv.
  - apply IH. intros key. pose proof (Hv (sel +:+ ":exit")) as Hsel.
    pose proof (Hv key) as Hkey.
    destruct (v1 !! (sel +:+ ":exit")) as [h1|], (v2 !! (sel +:+ ":exit")) as [h2|];
      try contradiction; rewrite !lookup_insert; case_decide; try exact Hkey.
    + intros node. apply refines_bind; [apply Hsel | intros; apply refines_refl].
    + intros node. apply refines_refl.
Qed.

Lemma listener_fuel_refines es sv :
  listener_refines (listener options sourceCode isNotWhitespace fuel1 es sv)
                   (listener options sourceCode isNotWhitespace fuel2 es sv).
Proof.
  apply compositingIgnoresVisitor_refines. intros key.
  rewrite !lookup_insert. case_decide.
  { intros node. apply processLines_refines. }
  case_decide; [intros node; apply refines_refl|].
  destruct (_ !! key); [intros node; apply refines_refl | exact I].
Qed.

End Fuel.

Lemma traverse_refines (l1 l2 : RuleListener) events :
  listener_refines l1 l2 -> refines (traverse l1 events) (traverse l2 events).
Proof.
  intros Hl. apply refines_for_of. intros [key node]. unfold emit. simpl.
  specialize (Hl key). destruct (l1 !! key), (l2 !! key); try contradiction.
  - apply Hl.
  - apply refines_refl.
Qed.

Lemma defineVisitor_fuel_refines ES SV isNotWhitespace fuel1 fuel2 context
    defaultOptions :
  (fuel1 <= fuel2)%nat ->
  listener_refines
    (defineVisitor ES SV isNotWhitespace fuel1 context defaultOptions)
    (defineVisitor ES SV isNotWhitespace fuel2 context defaultOptions).
Proof.
  intros Hle. unfold defineVisitor. destruct (negb _).
  - intros key. by rewrite lookup_empty.
  - by apply listener_fuel_refines.
Qed.

(** Two traversals with the listener of [defineVisitor] for the same
    context, options, handler tables and sequence of nodes, from the same
    state, whatever depth of recursion each is allowed: when both return,
    they end in the same state, with the same reports and the same fixes. *)
Lemma traverse_fuel_independent ES SV isNotWhitespace context defaultOptions
    events fuel1 fuel2 st st1 st2 :
  traverse (defineVisitor ES SV isNotWhitespace fuel1 context defaultOptions)
    events st = Done tt st1 ->
  traverse (defineVisitor ES SV isNotWhitespace fuel2 context defaultOptions)
    events st = Done tt st2 ->
  st1 = st2 /\ reports st1 = reports st2 /\
  map fix_ (reports st1) = map fix_ (reports st2).
Proof.
  intros H1 H2.
  assert (st1 = st2) as ->; [|done].
  pose proof (traverse_refines _ _ events
    (defineVisitor_fuel_refines ES SV isNotWhitespace fuel1 (fuel1 `max` fuel2)
       context defaultOptions (Nat.le_max_l _ _)) _ _ _ H1) as H1'.
  pose proof (traverse_refines _ _ events
    (defineVisitor_fuel_refines ES SV isNotWhitespace fuel2 (fuel1 `max` fuel2)
       context defaultOptions (Nat.le_max_r _ _)) _ _ _ H2) as H2'.
  rewrite H1' in H2'. by inversion H2'.
Qed.

(** A handler table with a handler for the [if] statement of [ex_lines]
    and one, without calls, for the program. *)
Definition ex_ES (_ : SourceCode) (_ : IndentOptions) : NodeVisitor :=
  <["IfStatement" := fun _ =>
      [ CallSetOffsetBaseLine (Single (Some ex_if)) 0;
        CallSetOffset (Array [Some ex_y; None]) 1 ex_if;
        CallSetOffset (Single (Some ex_close)) 0 ex_if ]]>
    (<["Program" := fun _ => []]> ∅).

Definition ex_if_node : ASTNode :=
  {| node_type := "IfStatement"; node_range := (0, 17)%nat |}.

Definition ex_events : list (string * ASTNode) :=
  [ ("IfStatement", ex_if_node); ("*:exit", ex_if_node);
    ("*:exit", ex_program); ("Program:exit", ex_program) ].

Definition ex_final_state : State :=
  {| offsets :=
       <[ex_close := Relative ex_if 0 (Some (Finite 0))]>
         (<[ex_y := Relative ex_if 1 (Some (Finite 2))]>
            (<[ex_if := Baseline 0 (Some (Finite 0))]> ∅));
     ignoreTokens := ∅;
     reports := [unexpectedIndentation ex_options ex_sourceCode 2 0 2 []] |}.

Lemma traverse_fuel_independent_example :
  let run fuel :=
    traverse (defineVisitor ex_ES (fun _ _ => ∅) (fun _ => true) fuel
                (ex_context "App.svelte") ex_no_defaults)
      ex_events initial_state in
  run 2%nat = Done tt ex_final_state /\ run 5%nat = Done tt ex_final_state /\
  reports ex_final_state = reports ex_final_state.
Proof.
  intros run.
  assert (run 2%nat = Done tt ex_final_state) as H2 by (vm_compute; reflexivity).
  assert (run 5%nat = Done tt ex_final_state) as H5 by (vm_compute; reflexivity).
  split; [exact H2|]. split; [exact H5|].
  exact (proj1 (proj2 (traverse_fuel_independent ex_ES (fun _ _ => ∅)
    (fun _ => true) (ex_context "App.svelte") ex_no_defaults ex_events 2 5
    initial_state ex_final_state ex_final_state H2 H5))).
Defined.

(** * Further properties of the engine *)

(** ** What the graph mutations write *)

(** The tokens of an argument that are not null. *)
Definition arg_tokens (token : TokenArg) : list Token :=
  match token with
  | Single t => option_list t
  | Array ts => omap id ts
  end.

(** A loop that writes one and the same entry for the tokens it selects. *)
Lemma for_of_offsets_set (good : Token -> bool) (v : OffsetInfo)
    (body : option Token -> M unit) ts st :
  (forall x s,
     body x s = match x with
                | Some t => if good t then offsets_set t v s else Done tt s
                | None => Done tt s
                end) ->
  exists st', for_of ts body st = Done tt st' /\
    ignoreTokens st' = ignoreTokens st /\ reports st' = reports st /\
    forall u, offsets st' !! u =
      if decide (u ∈ omap id ts /\ good u = true) then Some v
      else offsets st !! u.
Proof.
  intros Hbody. revert st. induction ts as [|x ts IH]; intros st.
  - exists st. do 3 (split; [reflexivity|]). intros u.
    destruct (decide _) as [[H _]|]; [by apply elem_of_nil in H | done].
  - cbn [for_of]. unfold mbind, M_bind. rewrite Hbody.
    destruct x as [t|]; [destruct (good t) eqn:Hg|].
    + change (omap id (Some t :: ts)) with (t :: omap id ts).
      unfold offsets_set at 1.
      match goal with |- context [for_of ts body ?s] => destruct (IH s)
        as (st' & H & Hi & Hr & Ho) end.
      exists st'. split; [exact H|]. split; [exact Hi|]. split; [exact Hr|].
      intros u. rewrite Ho. cbn [offsets]. rewrite lookup_insert.
      destruct (decide (u ∈ omap id ts /\ good u = true)) as [[Hin Hu]|Hn].
      * rewrite decide_True; [done|]. split; [by right|done].
      * destruct (decide (t = u)) as [->|Hne].
        -- rewrite decide_True; [done|]. split; [by left|done].
        -- rewrite decide_False; [done|].
           intros [[?|?]%elem_of_cons ?]; [congruence|]. by apply Hn.
    + change (omap id (Some t :: ts)) with (t :: omap id ts).
      destruct (IH st) as (st' & H & Hi & Hr & Ho).
      exists st'. split; [exact H|]. split; [exact Hi|]. split; [exact Hr|].
      intros u. rewrite Ho.
      destruct (decide (u ∈ omap id ts /\ good u = true)) as [[Hin Hu]|Hn].
      * rewrite decide_True; [done|]. split; [by right|done].
      * rewrite decide_False; [done|].
        intros [[?|?]%elem_of_cons ?]; [congruence|]. by apply Hn.
    + change (omap id (None :: ts)) with (omap id ts).
      destruct (IH st) as (st' & H & Hi & Hr & Ho).
      exists st'. split; [exact H|]. split; [exact Hi|]. split; [exact Hr|].
      exact Ho.
Qed.

Lemma setOffset_lookup token o b st :
  exists st', setOffset token o b st = Done tt st' /\
    ignoreTokens st' = ignoreTokens st /\ reports st' = reports st /\
    forall u, offsets st' !! u =
      if decide (u ∈ arg_tokens token /\ u <> b)
      then Some (Relative b o None) else offsets st !! u.
Proof.
  destruct (for_of_offsets_set (fun t => bool_decide (t <> b))
              (Relative b o None) (fun t => setOffset_token t o b)
              (match token with Single t => [t] | Array ts => ts end) st)
    as (st' & H & Hi & Hr & Ho).
  { intros [t|] s; simpl; [|reflexivity].
    destruct (decide (t = b)) as [->|Hne].
    - by rewrite bool_decide_false by (intros ?; done).
    - by rewrite bool_decide_true. }
  exists st'. split.
  { destruct token as [t|ts]; simpl in *; [|exact H].
    unfold mbind, M_bind in H.
    destruct (setOffset_token t o b st) as [[] s| |]; simpl in H;
      try discriminate. by inversion H. }
  split; [exact Hi|]. split; [exact Hr|]. intros u. rewrite Ho.
  assert (omap id (match token with Single t => [t] | Array ts => ts end)
          = arg_tokens token) as -> by (by destruct token as [[t|]|ts]).
  destruct (decide (u ∈ arg_tokens token /\ u <> b)) as [[Hin Hu]|Hn].
  - rewrite decide_True; [done|]. split; [done|]. by apply bool_decide_eq_true.
  - rewrite decide_False; [done|]. intros [Hin Hu%bool_decide_eq_true]. by apply Hn.
Qed.

Lemma setOffsetBaseLine_lookup token o st :
  exists st', setOffsetBaseLine token o st = Done tt st' /\
    ignoreTokens st' = ignoreTokens st /\ reports st' = reports st /\
    forall u, offsets st' !! u =
      if decide (u ∈ arg_tokens token)
      then Some (Baseline o None) else offsets st !! u.
Proof.
  destruct (for_of_offsets_set (fun _ => true)
              (Baseline o None) (fun t => setOffsetBaseLine_token t o)
              (match token with Single t => [t] | Array ts => ts end) st)
    as (st' & H & Hi & Hr & Ho).
  { by intros [t|] s. }
  exists st'. split.
  { destruct token as [t|ts]; simpl in *; [|exact H].
    unfold mbind, M_bind in H.
    destruct (setOffsetBaseLine_token t o st) as [[] s| |]; simpl in H;
      try discriminate. by inversion H. }
  split; [exact Hi|]. split; [exact Hr|]. intros u. rewrite Ho.
  assert (omap id (match token with Single t => [t] | Array ts => ts end)
          = arg_tokens token) as -> by (by destruct token as [[t|]|ts]).
  destruct (decide (u ∈ arg_tokens token)) as [Hin|Hn].
  - by rewrite decide_True.
  - rewrite decide_False; [done|]. by intros [? _].
Qed.

(** [setOffset] returns; it gives each token of its argument other than the
    base token the entry relative to the base token, without cached value,
    and leaves every other entry, the ignore registry and the reports. Such
    a token then resolves to what the base token resolves to, plus
    [offset * indentSize], the sum and the product being those of
    JavaScript numbers. *)
Theorem setOffset_writes options token o b st :
  exists st', setOffset token o b st = Done tt st' /\
    ignoreTokens st' = ignoreTokens st /\ reports st' = reports st /\
    (forall u, offsets st' !! u =
       if decide (u ∈ arg_tokens token /\ u <> b)
       then Some (Relative b o None) else offsets st !! u) /\
    (forall u n r,
       u ∈ arg_tokens token -> u <> b ->
       getExpectedIndentFromToken options n b st' = Done r st' ->
       getExpectedIndentFromToken options (S n) u st'
       = Done ((fun baseIndent =>
                  Number_add baseIndent (Number_mul o (indentSize options)))
                 <$> r) st').
Proof.
  destruct (setOffset_lookup token o b st) as (st' & H & Hi & Hr & Ho).
  exists st'. split; [exact H|]. split; [exact Hi|]. split; [exact Hr|].
  split; [exact Ho|]. intros u n r Hin Hne Hb.
  apply (resolve_relative options n u st' b o r); [|exact Hb].
  by rewrite Ho, decide_True.
Qed.

(** [setOffsetBaseLine] returns; it gives each token of its argument the
    baseline entry without cached value, whatever entry and cached value the
    token had, and leaves everything else. Such a token then resolves to
    [offset * indentSize], the product of JavaScript numbers. *)
Theorem setOffsetBaseLine_writes options token o st :
  exists st', setOffsetBaseLine token o st = Done tt st' /\
    ignoreTokens st' = ignoreTokens st /\ reports st' = reports st /\
    (forall u, offsets st' !! u =
       if decide (u ∈ arg_tokens token)
       then Some (Baseline o None) else offsets st !! u) /\
    (forall u n,
       u ∈ arg_tokens token ->
       getExpectedIndentFromToken options (S n) u st'
       = Done (Some (Number_mul o (indentSize options))) st').
Proof.
  destruct (setOffsetBaseLine_lookup token o st) as (st' & H & Hi & Hr & Ho).
  exists st'. split; [exact H|]. split; [exact Hi|]. split; [exact Hr|].
  split; [exact Ho|]. intros u n Hin.
  unfold getExpectedIndentFromToken. simpl.
  unfold mbind, M_bind, offsets_get. by rewrite Ho, decide_True.
Qed.

(** The base token of an entry, if it has one. *)
Definition base_of (info : OffsetInfo) : option Token :=
  match info with
  | Relative b _ _ => Some b
  | Baseline _ _ => None
  end.

Lemma copyOffset_lookup token srcToken info st :
  offsets st !! srcToken = Some info ->
  exists st', copyOffset token srcToken st = Done tt st' /\
    ignoreTokens st' = ignoreTokens st /\ reports st' = reports st /\
    forall u, offsets st' !! u =
      if decide (u ∈ arg_tokens token /\ base_of info <> Some u)
      then Some (with_expectedIndent info None) else offsets st !! u.
Proof.
  intros Hsrc.
  assert (exists st',
    (offsetData ← offsets_get srcToken;
     match offsetData with
     | None => mret tt
     | Some (Relative baseToken offset _) => setOffset token offset baseToken
     | Some (Baseline offset _) => setOffsetBaseLine token offset
     end) st = Done tt st' /\
    ignoreTokens st' = ignoreTokens st /\ reports st' = reports st /\
    forall u, offsets st' !! u =
      if decide (u ∈ arg_tokens token /\ base_of info <> Some u)
      then Some (with_expectedIndent info None) else offsets st !! u) as H.
  { unfold mbind, M_bind, offsets_get. rewrite Hsrc.
    destruct info as [b o e|o e]; simpl.
    - destruct (setOffset_lookup token o b st) as (st' & H & Hi & Hr & Ho).
      exists st'. split; [exact H|]. split; [exact Hi|]. split; [exact Hr|].
      intros u. rewrite Ho.
      destruct (decide (u ∈ arg_tokens token /\ u <> b)) as [[Hin Hu]|Hn].
      + rewrite decide_True; [done|]. split; [done|]. congruence.
      + rewrite decide_False; [done|]. intros [Hin Hu]. apply Hn.
        split; [done|]. congruence.
    - destruct (setOffsetBaseLine_lookup token o st) as (st' & H & Hi & Hr & Ho).
      exists st'. split; [exact H|]. split; [exact Hi|]. split; [exact Hr|].
      intros u. rewrite Ho.
      destruct (decide (u ∈ arg_tokens token)) as [Hin|Hn].
      + by rewrite decide_True.
      + rewrite decide_False; [done|]. by intros [? _]. }
  destruct token as [[t|]|ts]; simpl copyOffset; [exact H| |exact H].
  exists st. do 3 (split; [reflexivity|]). intros u.
  destruct (decide _) as [[Hin _]|]; [by apply elem_of_nil in Hin | done].
Qed.

(** The resolver looks at the entry of the token only: two tokens with the
    same entry resolve alike. *)
Lemma same_entry_same_resolution options n t u st :
  offsets st !! t = offsets st !! u ->
  getExpectedIndentFromToken options n t st
  = getExpectedIndentFromToken options n u st.
Proof.
  intros H. unfold getExpectedIndentFromToken. destruct n as [|n]; [reflexivity|].
  simpl. unfold mbind, M_bind, offsets_get. by rewrite H.
Qed.

(** [copyOffset] from a source token with an entry returns; each token of
    its argument other than the base token of that entry gets a copy of the
    entry, of the same kind, offset and base token, without the cached value;
    every other entry, the ignore registry and the reports stay. When the
    entry of the source token has no cached value, each token that received
    the copy resolves, with any fuel, to what the source token resolves
    to. *)
Theorem copyOffset_copies options token srcToken info st :
  offsets st !! srcToken = Some info ->
  exists st', copyOffset token srcToken st = Done tt st' /\
    ignoreTokens st' = ignoreTokens st /\ reports st' = reports st /\
    (forall u, offsets st' !! u =
       if decide (u ∈ arg_tokens token /\ base_of info <> Some u)
       then Some (with_expectedIndent info None) else offsets st !! u) /\
    (expectedIndent_of info = None ->
     forall u n,
       u ∈ arg_tokens token -> base_of info <> Some u ->
       getExpectedIndentFromToken options n u st'
       = getExpectedIndentFromToken options n srcToken st').
Proof.
  intros Hsrc.
  destruct (copyOffset_lookup token srcToken info st Hsrc)
    as (st' & H & Hi & Hr & Ho).
  exists st'. split; [exact H|]. split; [exact Hi|]. split; [exact Hr|].
  split; [exact Ho|]. intros Hc u n Hin Hb.
  apply same_entry_same_resolution. rewrite !Ho.
  assert (with_expectedIndent info None = info) as ->.
  { destruct info as [b o e|o e]; simpl in *; by subst. }
  rewrite decide_True by done. rewrite Hsrc. by case_decide.
Qed.

Lemma copyOffset_copies_witness :
  let st := ex_state ex_graph ∅ in
  offsets st !! ex_y = Some (Relative ex_if 1 None) /\
  exists st',
    copyOffset (Array [Some ex_eq; Some ex_if; None]) ex_y st = Done tt st' /\
    offsets st' !! ex_eq = Some (Relative ex_if 1 None) /\
    offsets st' !! ex_if = Some (Baseline 0 None) /\
    getExpectedIndentFromToken ex_options 2 ex_eq st'
    = getExpectedIndentFromToken ex_options 2 ex_y st'.
Proof.
  intros st. split; [reflexivity|].
  destruct (copyOffset_copies ex_options (Array [Some ex_eq; Some ex_if; None])
              ex_y (Relative ex_if 1 None) st eq_refl)
    as (st' & H & _ & _ & Ho & Hres).
  exists st'. split; [exact H|]. split; [|split].
  - rewrite Ho. rewrite decide_True; [reflexivity|].
    split; [by left | discriminate].
  - rewrite Ho. rewrite decide_False; [reflexivity|]. intros [_ Hb]. by apply Hb.
  - apply (Hres eq_refl); [by left | discriminate].
Defined.

(** ** Options *)

(** What [parseOptions] takes from where: ["tab"] fixes the character and a
    unit of 1 whatever the defaults say; a safe integer sets the unit and
    leaves the character to the defaults; an integer that is not safe is
    ignored, as is such a [switchCase]; the user's [ignoredNodes] replace
    the default ones. *)
Theorem parseOptions_precedence user d :
  let r := parseOptions user d in
  (indent user = Some IndentTab -> indentChar r = tab /\ indentSize r = 1) /\
  (forall n, indent user = Some (IndentNumber n) ->
     indentChar r = default space (d_indentChar d) /\
     indentSize r =
       if Number_isSafeInteger n then n else default (Finite 2) (d_indentSize d)) /\
  (indent user = None ->
     indentChar r = default space (d_indentChar d) /\
     indentSize r = default (Finite 2) (d_indentSize d)) /\
  switchCase r =
    match u_switchCase user with
    | Some n => if Number_isSafeInteger n then n else default (Finite 1) (d_switchCase d)
    | None => default (Finite 1) (d_switchCase d)
    end /\
  ignoredNodes r = default (default [] (d_ignoredNodes d)) (u_ignoredNodes user).
Proof.
  intros r. subst r. unfold parseOptions.
  destruct user as [[[n|]|] [sc|] [ign|]]; simpl;
    try destruct (Number_isSafeInteger n) eqn:Hn;
    try destruct (Number_isSafeInteger sc) eqn:Hsc; simpl;
    (split; [|split; [|split; [|split]]]); intros; simplify_eq;
    rewrite ?Hn, ?Hsc; auto.
Qed.

Lemma parseOptions_precedence_witness :
  let d := {| d_indentChar := Some tab; d_indentSize := Some (Finite 1);
              d_switchCase := None; d_ignoredNodes := None |} in
  let user := {| indent := Some (IndentNumber 4); u_switchCase := Some (Finite (2 ^ 60));
                 u_ignoredNodes := None |} in
  indentChar (parseOptions user d) = tab /\
  indentSize (parseOptions user d) = 4 /\
  switchCase (parseOptions user d) = 1.
Proof.
  intros d user.
  destruct (parseOptions_precedence user d) as (_ & Hn & _ & Hsc & _).
  destruct (Hn 4 eq_refl) as [Hc Hs].
  split; [exact Hc|]. split; [exact Hs | exact Hsc].
Defined.

(** ** The handlers of the listener *)

(** A handler that returns for every node and state. *)
Definition handler_total (h : ASTNode -> M unit) : Prop :=
  forall node st, exists st', h node st = Done tt st'.

(** A handler that returns for every node, with the tokens of the node in
    the ignore registry. *)
Definition handler_ignores (sourceCode : SourceCode) (h : ASTNode -> M unit)
    : Prop :=
  forall node st, exists st',
    h node st = Done tt st' /\
    forall t, t ∈ getTokens sourceCode node false -> t ∈ ignoreTokens st'.

Section Listener.

Variable options : IndentOptions.
Variable sourceCode : SourceCode.
Variable isNotWhitespace : Token -> bool.
Variable fuel : nat.

Lemma handler_ignores_ignore : handler_ignores sourceCode (ignore sourceCode).
Proof.
  intros node st. destruct (ignore_spec sourceCode node st) as (st' & H & _ & _ & _ & Hin).
  by exists st'.
Qed.

Lemma handler_ignores_then_ignore h :
  handler_total h ->
  handler_ignores sourceCode (fun node => h node ;; ignore sourceCode node).
Proof.
  intros Hh node st. destruct (Hh node st) as [st1 H1].
  destruct (ignore_spec sourceCode node st1) as (st' & H & _ & _ & _ & Hin).
  exists st'. split; [by rewrite (bind_Done_l _ _ _ _ _ H1) | exact Hin].
Qed.

Lemma handler_ignores_total h : handler_ignores sourceCode h -> handler_total h.
Proof. intros Hh node st. destruct (Hh node st) as (st' & H & _). by exists st'. Qed.

(** The step of the loop of [compositingIgnoresVisitor]. *)
Definition compositing_step (visitor : RuleListener) (ignoreSelector : string)
    : RuleListener :=
  let key := ignoreSelector +:+ ":exit" in
  match visitor !! key with
  | Some handler =>
      <[key := fun node => handler node ;; ignore sourceCode node]> visitor
  | None => <[key := ignore sourceCode]> visitor
  end.

Lemma compositingIgnoresVisitor_fold visitor :
  compositingIgnoresVisitor options sourceCode visitor
  = fold_left compositing_step (ignoredNodes options) visitor.
Proof. reflexivity. Qed.

(** All handlers but the one of ["Program:exit"] return. *)
Definition handlers_total (visitor : RuleListener) : Prop :=
  forall key h, key <> "Program:exit" -> visitor !! key = Some h -> handler_total h.

Lemma compositing_step_total visitor sel :
  handlers_total visitor -> handlers_total (compositing_step visitor sel).
Proof.
  intros Hv key h Hkey. unfold compositing_step.
  destruct (visitor !! (sel +:+ ":exit")) as [h0|] eqn:Hsel;
    rewrite lookup_insert; case_decide; intros ?; simplify_eq; eauto.
  - apply handler_ignores_total, handler_ignores_then_ignore. by eapply Hv.
  - apply handler_ignores_total, handler_ignores_ignore.
Qed.

Lemma fold_compositing_step_other sels visitor key :
  (forall sel, sel ∈ sels -> key <> sel +:+ ":exit") ->
  fold_left compositing_step sels visitor !! key = visitor !! key.
Proof.
  revert visitor. induction sels as [|sel sels IH]; intros visitor Hk; simpl.
  - reflexivity.
  - rewrite IH by (intros s Hs; apply Hk; by right).
    assert (key <> sel +:+ ":exit") as Hne by (apply Hk; by left).
    unfold compositing_step.
    destruct (visitor !! (sel +:+ ":exit")); by rewrite lookup_insert_ne.
Qed.

Lemma fold_compositing_step_keeps sels visitor key :
  key <> "Program:exit" -> handlers_total visitor ->
  (exists h, visitor !! key = Some h /\ handler_ignores sourceCode h) ->
  exists h, fold_left compositing_step sels visitor !! key = Some h /\
            handler_ignores sourceCode h.
Proof.
  intros Hkey. revert visitor.
  induction sels as [|sel sels IH]; intros visitor Ht Hv; simpl; [exact Hv|].
  apply IH; [by apply compositing_step_total|].
  destruct Hv as (h & Hh & Hign). unfold compositing_step.
  destruct (decide (sel +:+ ":exit" = key)) as [<-|Hne].
  - rewrite Hh. eexists. rewrite lookup_insert_eq. split; [reflexivity|].
    apply handler_ignores_then_ignore. by apply handler_ignores_total.
  - exists h. split; [|exact Hign].
    destruct (visitor !! (sel +:+ ":exit")); by rewrite lookup_insert_ne.
Qed.

Lemma fold_compositing_step_ignores sels visitor sel :
  sel ∈ sels -> sel +:+ ":exit" <> "Program:exit" -> handlers_total visitor ->
  exists h, fold_left compositing_step sels visitor !! (sel +:+ ":exit") = Some h /\
            handler_ignores sourceCode h.
Proof.
  intros Hin Hkey. revert visitor.
  induction sels as [|sel0 sels IH]; intros visitor Ht;
    [by apply elem_of_nil in Hin|].
  simpl. destruct (decide (sel ∈ sels)) as [Hin'|Hnin].
  - apply IH; [done | by apply compositing_step_total].
  - apply elem_of_cons in Hin as [->|?]; [|done].
    apply fold_compositing_step_keeps;
      [done | by apply compositing_step_total |].
    unfold compositing_step.
    destruct (visitor !! (sel0 +:+ ":exit")) as [h0|] eqn:Hsel;
      eexists; rewrite lookup_insert_eq; (split; [reflexivity|]).
    + apply handler_ignores_then_ignore. by eapply Ht.
    + apply handler_ignores_ignore.
Qed.

Lemma run_handler_total calls : handler_total (run_handler sourceCode calls).
Proof.
  intros node st. apply for_of_total. intros c s. apply run_call_total.
Qed.

Lemma star_exit_total knownNodes :
  handler_total (star_exit sourceCode knownNodes).
Proof.
  intros node st. unfold star_exit. case_decide; [by eexists | apply ignore_total].
Qed.

Lemma base_listener_total es sv :
  handlers_total
    (<["Program:exit" := Program_exit options sourceCode isNotWhitespace fuel]>
       (<["*:exit" := star_exit sourceCode (dom (run_handler sourceCode <$> (sv ∪ es)))]>
          (run_handler sourceCode <$> (sv ∪ es)))).
Proof.
  intros key h Hkey. rewrite lookup_insert_ne by done.
  rewrite lookup_insert. case_decide.
  - intros [= <-]. apply star_exit_total.
  - rewrite lookup_fmap. destruct ((sv ∪ es) !! key); intros [= <-].
    apply run_handler_total.
Qed.

End Listener.

(** For each selector of [ignoredNodes], other than [Program], the listener
    has a handler under the selector's exit key; for every node it is
    called with, it returns with all tokens of the node in the ignore
    registry, whatever handler the tables have under that key. *)
Theorem ignored_selector_is_ignored options sourceCode isNotWhitespace fuel
    es sv sel :
  sel ∈ ignoredNodes options -> sel +:+ ":exit" <> "Program:exit" ->
  exists h,
    listener options sourceCode isNotWhitespace fuel es sv !! (sel +:+ ":exit")
      = Some h /\
    handler_ignores sourceCode h.
Proof.
  intros Hin Hkey. unfold listener. rewrite compositingIgnoresVisitor_fold.
  apply fold_compositing_step_ignores; [done..|]. apply base_listener_total.
Qed.

Definition ex_options_ignoring : IndentOptions :=
  {| indentChar := space; indentSize := 2; switchCase := 1;
     ignoredNodes := ["IfStatement"; "FutureStatement"] |}.

Lemma ignored_selector_is_ignored_witness :
  exists h st',
    listener ex_options_ignoring ex_sourceCode_unknown (fun _ => true) 2
      (ex_ES ex_sourceCode_unknown ex_options_ignoring) ∅ !! "IfStatement:exit"
      = Some h /\
    h ex_unknown initial_state = Done tt st' /\
    ex_y ∈ ignoreTokens st'.
Proof.
  destruct (ignored_selector_is_ignored ex_options_ignoring
              ex_sourceCode_unknown (fun _ => true) 2
              (ex_ES ex_sourceCode_unknown ex_options_ignoring) ∅ "IfStatement")
    as (h & Hh & Hign).
  - by left.
  - discriminate.
  - destruct (Hign ex_unknown initial_state) as (st' & Hrun & Hin).
    exists h, st'. split; [exact Hh|]. split; [exact Hrun|].
    apply Hin. by left.
Defined.

(** A key that is neither ["Program:exit"], nor ["*:exit"], nor the exit key
    of an ignored selector has the handler of the tables: the one of the
    Svelte table if it has one, else the one of the script table; a handler
    that the tables have under ["Program:exit"] or ["*:exit"] is replaced by
    the engine's own. *)
Theorem listener_handlers options sourceCode isNotWhitespace fuel es sv :
  let l := listener options sourceCode isNotWhitespace fuel es sv in
  (forall key,
     key <> "Program:exit" -> key <> "*:exit" ->
     (forall sel, sel ∈ ignoredNodes options -> key <> sel +:+ ":exit") ->
     l !! key = run_handler sourceCode <$>
                  (match sv !! key with Some h => Some h | None => es !! key end)) /\
  ((forall sel, sel ∈ ignoredNodes options -> "Program:exit" <> sel +:+ ":exit") ->
   l !! "Program:exit"
   = Some (Program_exit options sourceCode isNotWhitespace fuel)) /\
  ((forall sel, sel ∈ ignoredNodes options -> "*:exit" <> sel +:+ ":exit") ->
   l !! "*:exit" = Some (star_exit sourceCode (dom (sv ∪ es)))).
Proof.
  intros l. unfold l, listener. rewrite compositingIgnoresVisitor_fold.
  split; [|split].
  - intros key Hp Hs Hsel. rewrite fold_compositing_step_other by done.
    rewrite !lookup_insert_ne by done. rewrite lookup_fmap, lookup_union.
    by destruct (sv !! key), (es !! key).
  - intros Hsel. rewrite fold_compositing_step_other by done.
    by rewrite lookup_insert_eq.
  - intros Hsel. rewrite fold_compositing_step_other by done.
    rewrite lookup_insert_ne by done. rewrite lookup_insert_eq.
    by rewrite dom_fmap_L.
Qed.

Lemma listener_handlers_witness :
  listener ex_options ex_sourceCode (fun _ => true) 2
    (<["Program:exit" := fun _ => [CallIgnore ex_program]]> ∅) ∅ !! "Program:exit"
  = Some (Program_exit ex_options ex_sourceCode (fun _ => true) 2).
Proof.
  destruct (listener_handlers ex_options ex_sourceCode (fun _ => true) 2
              (<["Program:exit" := fun _ => [CallIgnore ex_program]]> ∅) ∅)
    as (_ & Hp & _).
  apply Hp. intros sel Hsel. by apply elem_of_nil in Hsel.
Defined.

(** ** What the two phases leave alone *)

(** The calls of a node handler return without a report; they take no token
    out of the ignore registry. *)
Theorem handler_calls_never_report sourceCode calls node st :
  exists st', run_handler sourceCode calls node st = Done tt st' /\
    reports st' = reports st /\ ignoreTokens st ⊆ ignoreTokens st'.
Proof.
  unfold run_handler. generalize (calls node) as cs. intros cs. revert st.
  induction cs as [|c cs IH]; intros st; simpl.
  - by exists st.
  - assert (exists s, run_call sourceCode c st = Done tt s /\
              reports s = reports st /\ ignoreTokens st ⊆ ignoreTokens s)
      as (s & Hs & Hr & Hi).
    { destruct c as [token o b|token src|token o|n]; simpl.
      - destruct (setOffset_lookup token o b st) as (s & H & Hi & Hr & _).
        exists s. by rewrite Hi.
      - destruct (offsets st !! src) as [info|] eqn:Hsrc.
        + destruct (copyOffset_lookup token src info st Hsrc)
            as (s & H & Hi & Hr & _).
          exists s. by rewrite Hi.
        + exists st. split; [|done].
          destruct token as [[t|]|ts]; simpl; try reflexivity;
            unfold mbind, M_bind, offsets_get; by rewrite Hsrc.
      - destruct (setOffsetBaseLine_lookup token o st) as (s & H & Hi & Hr & _).
        exists s. by rewrite Hi.
      - destruct (ignore_spec sourceCode n st) as (s & H & _ & Hr & Hi & _).
        by exists s. }
    destruct (IH s) as (st' & H' & Hr' & Hi').
    exists st'. rewrite (bind_Done_l _ _ _ _ _ Hs).
    split; [exact H'|]. split; [congruence | set_solver].
Qed.

(** A property of the state that writing a cached value and reporting keep
    is kept by the validation pass. *)
Section ValidationPass.

Variable options : IndentOptions.
Variable sourceCode : SourceCode.
Variable isNotWhitespace : Token -> bool.
Variable fuel : nat.

Variable P : State -> Prop.

Hypothesis P_set_cache : forall t info e st st',
  offsets st !! t = Some info -> expectedIndent_of info = None ->
  P st -> offsets_set t (with_expectedIndent info (Some e)) st = Done tt st' ->
  P st'.
Hypothesis P_report : forall r, preserves P (context_report r).

Lemma saveExpectedIndent_keeps tokens e :
  preserves P (saveExpectedIndent tokens e).
Proof.
  apply preserves_for_of. intros t _ st a st' HP H.
  unfold mbind, M_bind, offsets_get in H.
  destruct (offsets st !! t) as [info|] eqn:Ht; [|by inversion H; subst].
  destruct (expectedIndent_of info) eqn:He; [by inversion H; subst|].
  destruct a. eapply P_set_cache; eauto.
Qed.

Lemma validateToken_keeps token e :
  preserves P (validateToken options sourceCode token e).
Proof.
  apply preserves_bind.
  - apply read_only_preserves, getIndentText_read_only.
  - intros indentText. apply preserves_if; [apply preserves_ret|].
    apply preserves_if; [apply P_report|].
    apply preserves_for_of. intros. apply P_report.
Qed.

Lemma processLine_keeps tokens prevComments prevToken :
  preserves P (processLine options sourceCode fuel tokens prevComments prevToken).
Proof.
  destruct tokens as [|firstToken rest]; [intros st a st' _ H; discriminate|].
  apply preserves_bind.
  - apply read_only_preserves, getExpectedIndentFromTokens_read_only.
  - intros [e|]; [|apply saveExpectedIndent_keeps].
    apply preserves_bind; [apply saveExpectedIndent_keeps|]. intros _.
    apply preserves_bind.
    + destruct prevComments as [|c cs]; [apply preserves_ret|].
      apply preserves_bind; [|intros; apply preserves_ret].
      apply preserves_if; [apply validateToken_keeps | apply preserves_ret].
    + intros prev.
      apply preserves_if; [apply validateToken_keeps | apply preserves_ret].
Qed.

Lemma Program_exit_keeps node :
  preserves P (Program_exit options sourceCode isNotWhitespace fuel node).
Proof.
  unfold Program_exit. generalize (@None Token) as prevToken.
  induction (iterateLineTokens sourceCode isNotWhitespace node) as [|g gs IH];
    intros prevToken; simpl.
  - apply preserves_ret.
  - apply preserves_bind; [apply processLine_keeps | intros; apply IH].
Qed.

End ValidationPass.

(** [st'] is [st] with more cached values and more reports: the same ignore
    registry, the reports of [st] first, the same tokens with an entry, each
    entry of the same kind, offset and base token, and each cached value of
    [st] still there. *)
Definition fills_caches (st st' : State) : Prop :=
  ignoreTokens st' = ignoreTokens st /\
  reports st `prefix_of` reports st' /\
  forall t,
    match offsets st !! t with
    | None => offsets st' !! t = None
    | Some info =>
        exists e, offsets st' !! t = Some (with_expectedIndent info e) /\
                  forall c, expectedIndent_of info = Some c -> e = Some c
    end.

Lemma fills_caches_refl st : fills_caches st st.
Proof.
  split; [reflexivity|]. split; [reflexivity|]. intros t.
  destruct (offsets st !! t) as [info|]; [|reflexivity].
  exists (expectedIndent_of info). split; [|done]. by destruct info.
Qed.

(** The validation pass adds cached values and reports and does nothing
    else: it adds no entry and removes none, changes no kind, offset or base
    token, never changes a cached value once it is set, removes no report
    and leaves the ignore registry. *)
Theorem Program_exit_only_fills_caches options sourceCode isNotWhitespace fuel
    node st st' :
  Program_exit options sourceCode isNotWhitespace fuel node st = Done tt st' ->
  fills_caches st st'.
Proof.
  intros H.
  eapply (Program_exit_keeps options sourceCode isNotWhitespace fuel
            (fills_caches st)); [| |apply fills_caches_refl|exact H].
  - intros t info e s s' Ht Hc (Hi & Hr & Ho) Hd. done_inv Hd.
    split; [exact Hi|]. split; [exact Hr|]. intros u. specialize (Ho u).
    cbn [offsets]. rewrite lookup_insert. case_decide; [subst u|exact Ho].
    destruct (offsets st !! t) as [info0|]; [|congruence].
    destruct Ho as (e0 & He0 & Hkeep). rewrite Ht in He0.
    injection He0 as ->. exists (Some e). split.
    + by destruct info0.
    + intros c Hc0. specialize (Hkeep c Hc0). subst e0.
      by destruct info0.
  - intros r s a s' (Hi & Hr & Ho) Hd. done_inv Hd.
    split; [exact Hi|]. split; [by apply prefix_app_r | exact Ho].
Qed.

Lemma Program_exit_only_fills_caches_witness :
  let st := ex_state ex_graph ∅ in
  Program_exit ex_options ex_sourceCode (fun _ => true) 2 ex_program st
    = Done tt
        {| offsets := <[ex_y := Relative ex_if 1 (Some (Finite 2))]>
                        (<[ex_if := Baseline 0 (Some (Finite 0))]> ∅);
           ignoreTokens := ∅;
           reports := [unexpectedIndentation ex_options ex_sourceCode 2 0 2 []] |} /\
  fills_caches st
    {| offsets := <[ex_y := Relative ex_if 1 (Some (Finite 2))]>
                    (<[ex_if := Baseline 0 (Some (Finite 0))]> ∅);
       ignoreTokens := ∅;
       reports := [unexpectedIndentation ex_options ex_sourceCode 2 0 2 []] |}.
Proof.
  intros st.
  assert (Program_exit ex_options ex_sourceCode (fun _ => true) 2 ex_program st
    = Done tt
        {| offsets := <[ex_y := Relative ex_if 1 (Some (Finite 2))]>
                        (<[ex_if := Baseline 0 (Some (Finite 0))]> ∅);
           ignoreTokens := ∅;
           reports := [unexpectedIndentation ex_options ex_sourceCode 2 0 2 []] |})
    as H by (vm_compute; reflexivity).
  split; [exact H|].
  exact (Program_exit_only_fills_caches ex_options ex_sourceCode (fun _ => true)
           2 ex_program st _ H).
Defined.

(** ** What the validator reports, and what it does not *)

Lemma String_get_lt i s c : String.get i s = Some c -> (i < String.length s)%nat.
Proof.
  revert i. induction s as [|a s IH]; intros i H; simpl in *; [discriminate|].
  destruct i as [|i]; [lia|]. apply IH in H. lia.
Qed.

Lemma length_slice0 k s : (String.length (slice0 k s) <= k)%nat.
Proof.
  unfold slice0. revert s. induction k as [|k IH]; intros s.
  - destruct s; simpl; lia.
  - destruct s as [|a s]; simpl; [lia|]. specialize (IH s). lia.
Qed.

Lemma validateToken_unfold options sourceCode token expectedIndent st l text :
  line (start (loc token)) = S l -> lines sourceCode !! l = Some text ->
  validateToken options sourceCode token expectedIndent st =
  let lineNo := line (start (loc token)) in
  let actualIndent := column (start (loc token)) in
  let indentText := slice0 actualIndent text in
  let mismatches := mismatchCharIndexes_from options 0 indentText in
  (if negb (String.eqb (trim indentText) EmptyString) then mret tt
   else if negb (Number_eqb (Z.of_nat actualIndent) expectedIndent)
        then context_report
               (unexpectedIndentation options sourceCode lineNo actualIndent
                  expectedIndent mismatches)
        else for_of mismatches
               (fun i => context_report
                  (unexpectedChar options sourceCode lineNo indentText i))) st.
Proof.
  intros Hline Htext. unfold validateToken.
  assert (getIndentText sourceCode (start (loc token)) st
          = Done (slice0 (column (start (loc token))) text) st) as Hget.
  { unfold getIndentText. by rewrite Hline, Htext. }
  by rewrite (bind_Done_l _ _ _ _ _ Hget).
Qed.

(** When a character that is not white space stands before the token on its
    line, [validateToken] returns without a report, whatever the expected
    indent. *)
Theorem validateToken_skips_packed_line options sourceCode token expectedIndent
    st l text :
  line (start (loc token)) = S l -> lines sourceCode !! l = Some text ->
  allWhiteSpace (slice0 (column (start (loc token))) text) = false ->
  validateToken options sourceCode token expectedIndent st = Done tt st.
Proof.
  intros Hline Htext Hws.
  rewrite (validateToken_unfold _ _ _ _ _ _ _ Hline Htext). simpl.
  destruct (String.eqb_spec
              (trim (slice0 (column (start (loc token))) text)) EmptyString)
    as [Heq|Hne]; [|reflexivity].
  apply trim_empty in Heq. congruence.
Qed.

Lemma validateToken_skips_packed_line_witness :
  allWhiteSpace (slice0 2 "y = 1;") = false /\
  validateToken ex_options ex_sourceCode ex_eq 7 (ex_state ∅ ∅)
  = Done tt (ex_state ∅ ∅).
Proof.
  split; [reflexivity|].
  apply (validateToken_skips_packed_line ex_options ex_sourceCode ex_eq 7
           (ex_state ∅ ∅) 1%nat "y = 1;"); reflexivity.
Defined.

(** With a token whose line is not a line of the file, [validateToken]
    throws: [sourceCode.lines[line - 1]] is undefined. *)
Theorem validateToken_missing_line options sourceCode token expectedIndent st :
  (length (lines sourceCode) < line (start (loc token)))%nat \/
  line (start (loc token)) = 0%nat ->
  validateToken options sourceCode token expectedIndent st = Throws.
Proof.
  intros H. unfold validateToken, mbind, M_bind, getIndentText.
  destruct (line (start (loc token))) as [|l]; [reflexivity|].
  destruct H as [H|H]; [|discriminate].
  rewrite (lookup_ge_None_2 (lines sourceCode) l); [reflexivity | lia].
Qed.

Lemma validateToken_missing_line_witness :
  validateToken ex_options ex_sourceCode (ex_token "Identifier" 4 0 1 17) 0
    (ex_state ∅ ∅) = Throws.
Proof.
  apply validateToken_missing_line. left. simpl. lia.
Defined.

(** A line of the file is a string of the engine. *)
Lemma line_within_maxStringLength sourceCode l text :
  lines sourceCode !! l = Some text ->
  Z.of_nat (String.length text) <= maxStringLength sourceCode.
Proof.
  intros H. unfold maxStringLength.
  assert (String.length text ≤ max_list (String.length <$> lines sourceCode))%nat.
  { apply max_list_elem_of_le, list_elem_of_fmap. exists text.
    split; [done|]. by eapply list_elem_of_lookup_2. }
  lia.
Qed.

Lemma allWhiteSpace_repeat_char c k :
  isWhiteSpace c = true -> allWhiteSpace (repeat_char c k) = true.
Proof. intros Hc. induction k as [|k IH]; simpl; [done | by rewrite Hc]. Qed.

Lemma mismatchCharIndexes_from_repeat_char options i k :
  mismatchCharIndexes_from options i (repeat_char (indentChar options) k) = [].
Proof.
  revert i. induction k as [|k IH]; intros i; simpl; [done|].
  by rewrite Ascii.eqb_refl.
Qed.

Lemma slice0_repeat_char c k rest :
  slice0 k (repeat_char c k +:+ rest) = repeat_char c k.
Proof.
  unfold slice0. induction k as [|k IH]; simpl.
  - by destruct rest.
  - by rewrite IH.
Qed.

(** A line that starts with [indentChar] repeated as many times as the
    expected indent, [indentChar] being white space, followed by the token:
    [validateToken] returns without a report. This is the text that the fix
    of the width report writes. *)
Theorem validateToken_accepts_fixed_line options sourceCode token st l k rest :
  isWhiteSpace (indentChar options) = true ->
  line (start (loc token)) = S l -> column (start (loc token)) = k ->
  lines sourceCode !! l = Some (repeat_char (indentChar options) k +:+ rest) ->
  validateToken options sourceCode token (Z.of_nat k) st = Done tt st /\
  String_repeat (maxStringLength sourceCode) (indentChar options) (Z.of_nat k)
  = Some (repeat_char (indentChar options) k).
Proof.
  intros Hc Hline Hcol Htext. split.
  - rewrite (validateToken_unfold _ _ _ _ _ _ _ Hline Htext). simpl.
    rewrite Hcol, slice0_repeat_char.
    assert (trim (repeat_char (indentChar options) k) = EmptyString) as ->
      by (by apply trim_empty, allWhiteSpace_repeat_char).
    simpl. rewrite Z.eqb_refl. simpl.
    by rewrite mismatchCharIndexes_from_repeat_char.
  - rewrite String_repeat_Some; [by rewrite Nat2Z.id|].
    apply line_within_maxStringLength in Htext.
    rewrite length_append, repeat_char_length in Htext. lia.
Qed.

Lemma validateToken_accepts_fixed_line_witness :
  validateToken ex_options ex_comment_sourceCode ex_y4 2
    (ex_state ex_comment_graph ∅)
  = Done tt (ex_state ex_comment_graph ∅).
Proof.
  apply (validateToken_accepts_fixed_line ex_options ex_comment_sourceCode
           ex_y4 (ex_state ex_comment_graph ∅) 3%nat 2%nat "y = 1;");
    reflexivity.
Defined.

(** A report lies on line [lineNo], between column 0 and column
    [actualIndent]. *)
Definition report_within (lineNo actualIndent : nat) (r : Report) : Prop :=
  line (start (report_loc r)) = lineNo /\ line (end_ (report_loc r)) = lineNo /\
  (column (start (report_loc r)) <= column (end_ (report_loc r)))%nat /\
  (column (end_ (report_loc r)) <= actualIndent)%nat.

(** Every report of [validateToken] for a token lies on the token's line,
    before the token; there are at most as many as the token's column, or
    one. On an existing line [validateToken] throws only where the column
    differs from the expected indent and [repeat] refuses the expected
    indent as a count, and then it reports nothing. *)
Theorem validateToken_reports_before_token options sourceCode token
    expectedIndent st l text :
  line (start (loc token)) = S l -> lines sourceCode !! l = Some text ->
  match validateToken options sourceCode token expectedIndent st with
  | Done _ st' =>
      exists new,
        st' = add_reports st new /\
        Forall (report_within (line (start (loc token)))
                  (column (start (loc token)))) new /\
        (length new <= Nat.max 1 (column (start (loc token))))%nat
  | Throws =>
      Finite (Z.of_nat (column (start (loc token)))) <> expectedIndent /\
      RangeError_count (maxStringLength sourceCode) expectedIndent
  | OutOfFuel => False
  end.
Proof.
  intros Hline Htext.
  rewrite (validateToken_unfold _ _ _ _ _ _ _ Hline Htext). cbv zeta.
  set (k := column (start (loc token))). set (indentText := slice0 k text).
  destruct (negb (String.eqb _ _)).
  { exists []. rewrite add_reports_nil. split; [reflexivity|].
    split; [constructor | simpl; lia]. }
  destruct (Number_eqb (Z.of_nat k) expectedIndent) eqn:Heq; cbn [negb].
  - rewrite for_of_unexpectedChar. eexists. split; [reflexivity|]. split.
    + apply Forall_forall. intros r (i & -> & Hi)%list_elem_of_fmap.
      apply mismatchCharIndexes_from_spec in Hi as (j & c & -> & Hg & _).
      apply String_get_lt in Hg. pose proof (length_slice0 k text).
      fold indentText in H. repeat split; simpl; lia.
    + rewrite length_map.
      assert (forall i, i ∈ mismatchCharIndexes_from options 0 indentText ->
                        (i < k)%nat) as Hlt.
      { intros i (j & c & -> & Hg & _)%mismatchCharIndexes_from_spec.
        apply String_get_lt in Hg. pose proof (length_slice0 k text).
        fold indentText in H. lia. }
      pose proof (mismatchCharIndexes_from_NoDup options 0 indentText) as Hnd.
      assert (mismatchCharIndexes_from options 0 indentText ⊆+ seq 0 k) as Hsub.
      { apply NoDup_submseteq; [exact Hnd|]. intros i Hi.
        apply elem_of_seq. specialize (Hlt i Hi). lia. }
      apply submseteq_length in Hsub. rewrite length_seq in Hsub. lia.
  - unfold context_report.
    destruct (fix_ _) eqn:Hfix.
    + eexists [_]. split; [reflexivity|]. split; [|simpl; lia].
      constructor; [|constructor]. repeat split; simpl; lia.
    + split; [by apply Number_eqb_column_ne|].
      apply (String_repeat_None _ (indentChar options)).
      unfold unexpectedIndentation in Hfix. simpl in Hfix.
      by destruct (String_repeat _ _ _).
Qed.

Lemma validateToken_reports_before_token_witness :
  exists new,
    validateToken ex_options ex_tab_sourceCode ex_tab_y 1 (ex_state ∅ ∅)
      = Done tt (add_reports (ex_state ∅ ∅) new) /\
    Forall (report_within 2 1) new.
Proof.
  pose proof (validateToken_reports_before_token ex_options ex_tab_sourceCode
                ex_tab_y 1 (ex_state ∅ ∅) 1%nat ex_tab_line eq_refl eq_refl)
    as H.
  assert (validateToken ex_options ex_tab_sourceCode ex_tab_y 1 (ex_state ∅ ∅)
          = Done tt (add_reports (ex_state ∅ ∅)
                       [unexpectedChar ex_options ex_tab_sourceCode 2
                          (String tab EmptyString) 0])) as Hrun
    by reflexivity.
  rewrite Hrun in H. destruct H as (new & Hst & Hw & _).
  exists new. split; [by rewrite Hrun, Hst | exact Hw].
Defined.

(** ** What [processLine] validates and what it leaves cached *)

Lemma validateToken_offsets options sourceCode token e X :
  preserves (fun s => offsets s = X) (validateToken options sourceCode token e).
Proof.
  apply validateToken_keeps. intros r s a s' H Hd. by done_inv Hd.
Qed.

(** A line without previous comments whose first token does not start on a
    later line than the previous token ends, or that has no previous token
    (the first line of the file): [processLine] returns without a report,
    whatever the indentation of the line. *)
Theorem processLine_continuation_not_validated options sourceCode fuel
    firstToken rest prevToken r st :
  getExpectedIndentFromTokens options fuel (firstToken :: rest) st = Done r st ->
  endsBefore prevToken firstToken = false ->
  exists st',
    processLine options sourceCode fuel (firstToken :: rest) [] prevToken st
      = Done tt st' /\
    reports st' = reports st.
Proof.
  intros Hres Hprev. destruct r as [e|].
  - destruct (processLine_resolved options sourceCode fuel firstToken rest []
                prevToken e st Hres) as (st1 & Hsave & Hrun).
    destruct (saveExpectedIndent_spec (firstToken :: rest) e st)
      as (st2 & H2 & _ & Hr & _).
    rewrite H2 in Hsave. inversion Hsave; subst st2.
    exists st1. split; [|exact Hr]. rewrite Hrun, Hprev. reflexivity.
  - rewrite (processLine_unresolved _ _ _ _ _ _ _ _ Hres).
    destruct (saveExpectedIndent_spec (firstToken :: rest)
                (Z.of_nat (column (start (loc firstToken)))) st)
      as (st' & H & _ & Hr & _).
    by exists st'.
Qed.

Lemma processLine_continuation_not_validated_witness :
  let st := ex_state ex_graph ∅ in
  getExpectedIndentFromTokens ex_options 2 [ex_y; ex_eq] st = Done (Some (Finite 2)) st /\
  endsBefore None ex_y = false /\
  exists st',
    processLine ex_options ex_sourceCode 2 [ex_y; ex_eq] [] None st = Done tt st' /\
    reports st' = reports st.
Proof.
  intros st.
  assert (getExpectedIndentFromTokens ex_options 2 [ex_y; ex_eq] st
          = Done (Some (Finite 2)) st) as H by reflexivity.
  split; [exact H|]. split; [reflexivity|].
  exact (processLine_continuation_not_validated ex_options ex_sourceCode 2
           ex_y [ex_eq] None (Some (Finite 2)) st H eq_refl).
Defined.

(** When [processLine] returns, every token of the line that has an entry
    has a cached value, and resolves to it from then on: the value it had
    cached before, if any, and else the expected indent of the line, which
    is the column of the first token when the line did not resolve. *)
Theorem processLine_memoizes options sourceCode fuel firstToken rest
    prevComments prevToken st st' :
  processLine options sourceCode fuel (firstToken :: rest) prevComments
    prevToken st = Done tt st' ->
  exists r,
    getExpectedIndentFromTokens options fuel (firstToken :: rest) st = Done r st /\
    forall t info,
      t ∈ firstToken :: rest -> offsets st !! t = Some info ->
      let lineIndent := default (Finite (Z.of_nat (column (start (loc firstToken))))) r in
      let v := default lineIndent (expectedIndent_of info) in
      offsets st' !! t = Some (with_expectedIndent info (Some v)) /\
      forall n, getExpectedIndentFromToken options (S n) t st' = Done (Some v) st'.
Proof.
  intros H.
  destruct (getExpectedIndentFromTokens options fuel (firstToken :: rest) st)
    as [r s| |] eqn:Hres;
    try (unfold processLine, mbind, M_bind in H; rewrite Hres in H; discriminate).
  pose proof (getExpectedIndentFromTokens_read_only _ _ _ _ _ _ Hres). subst s.
  exists r. split; [reflexivity|].
  set (lineIndent := default (Finite (Z.of_nat (column (start (loc firstToken))))) r).
  assert (exists st1, saveExpectedIndent (firstToken :: rest) lineIndent st
                      = Done tt st1 /\ offsets st' = offsets st1)
    as (st1 & Hsave & Hoff).
  { destruct r as [e|].
    - destruct (processLine_resolved options sourceCode fuel firstToken rest
                  prevComments prevToken e st Hres) as (st1 & Hsave & Hrun).
      exists st1. split; [exact Hsave|]. rewrite Hrun in H.
      apply bind_Done in H as ([] & s & H1 & H2).
      assert (offsets s = offsets st1) as Hs.
      { destruct prevComments as [|c cs]; [by inversion H1|].
        destruct (endsBefore prevToken c); [|by inversion H1].
        by eapply (validateToken_offsets _ _ _ _ (offsets st1)) in H1. }
      destruct (endsBefore _ firstToken); [|inversion H2; by subst].
      by eapply (validateToken_offsets _ _ _ _ (offsets st1)) in H2.
    - rewrite (processLine_unresolved _ _ _ _ _ _ _ _ Hres) in H.
      by exists st'. }
  destruct (saveExpectedIndent_spec (firstToken :: rest) lineIndent st)
    as (st2 & H2 & _ & _ & Ho).
  rewrite H2 in Hsave. inversion Hsave; subst st2.
  intros t info Hin Ht. simpl.
  assert (offsets st' !! t
          = Some (with_expectedIndent info
                    (Some (default lineIndent (expectedIndent_of info))))) as Hentry.
  { rewrite Hoff, Ho, decide_True, Ht by done. simpl. unfold save_entry.
    by destruct info as [b o [c|]|o [c|]]. }
  split; [exact Hentry|]. intros n.
  eapply resolve_cached; [exact Hentry|]. by destruct info.
Qed.

Lemma processLine_memoizes_witness :
  let st := ex_state ex_graph ∅ in
  exists st',
    processLine ex_options ex_sourceCode 2 [ex_y; ex_eq] [] (Some ex_brace) st
      = Done tt st' /\
    offsets st' !! ex_y = Some (Relative ex_if 1 (Some (Finite 2))) /\
    getExpectedIndentFromToken ex_options 1 ex_y st' = Done (Some (Finite 2)) st'.
Proof.
  intros st.
  destruct (processLine ex_options ex_sourceCode 2 [ex_y; ex_eq] []
              (Some ex_brace) st) as [[] st'| |] eqn:Hrun;
    [|vm_compute in Hrun; discriminate Hrun..].
  exists st'. split; [reflexivity|].
  destruct (processLine_memoizes ex_options ex_sourceCode 2 ex_y [ex_eq] []
              (Some ex_brace) st st' Hrun) as (r & Hres & Hmemo).
  assert (r = Some (Finite 2)) as ->.
  { assert (getExpectedIndentFromTokens ex_options 2 [ex_y; ex_eq] st
            = Done (Some (Finite 2)) st) as H by reflexivity.
    rewrite H in Hres. by inversion Hres. }
  destruct (Hmemo ex_y (Relative ex_if 1 None)) as [He Hr];
    [by left | reflexivity |].
  split; [exact He | exact (Hr 0%nat)].
Defined.

(** ** What the walker yields *)

Definition notComment (t : Token) : bool := negb (isCommentToken t).

Lemma filter_notComment_comments l :
  forallb isCommentToken l = true -> List.filter notComment l = [].
Proof.
  induction l as [|t l IH]; simpl; [done|].
  intros [Ht Hl]%andb_true_iff. unfold notComment at 1. rewrite Ht. simpl. auto.
Qed.

Lemma iterateLineTokens_loop_code_tokens rest lineNo pending buffer :
  List.filter notComment
    (concat (map tokens (iterateLineTokens_loop rest lineNo pending buffer)))
  = List.filter notComment (buffer ++ rest).
Proof.
  revert lineNo pending buffer.
  induction rest as [|token rest IH]; intros lineNo pending buffer; simpl.
  - rewrite app_nil_r.
    destruct (forallb isCommentToken buffer) eqn:Hall.
    + rewrite andb_false_r. simpl. by rewrite filter_notComment_comments.
    + destruct buffer as [|b bs]; [discriminate|]. simpl. by rewrite app_nil_r.
  - destruct (_ || _).
    { rewrite IH. by rewrite <- app_assoc. }
    destruct buffer as [|first more]; [by rewrite IH|].
    destruct (isCommentToken first && forallb isCommentToken (first :: more))
      eqn:Hall.
    + rewrite IH. apply andb_true_iff in Hall as [_ Hall].
      rewrite (List.filter_app _ (first :: more)).
      by rewrite (filter_notComment_comments _ Hall).
    + cbn [map concat tokens]. rewrite !List.filter_app, IH. reflexivity.
Qed.

(** The walker loses no token that is not a comment and keeps their order:
    the tokens of the groups, comments left out, are the tokens of the
    program that are not white space, comments left out. *)
Theorem iterateLineTokens_keeps_code_tokens sourceCode isNotWhitespace node :
  List.filter notComment
    (concat (map tokens (iterateLineTokens sourceCode isNotWhitespace node)))
  = List.filter notComment
      (filter (fun t => Is_true (isNotWhitespace t))
         (getTokens sourceCode node true)).
Proof. unfold iterateLineTokens. by rewrite iterateLineTokens_loop_code_tokens. Qed.

Lemma iterateLineTokens_loop_same_line rest lineNo pending buffer g :
  Forall (fun t => line (start (loc t)) = lineNo) buffer ->
  g ∈ iterateLineTokens_loop rest lineNo pending buffer ->
  exists ln, Forall (fun t => line (start (loc t)) = ln) (tokens g).
Proof.
  revert lineNo pending buffer.
  induction rest as [|token rest IH]; intros lineNo pending buffer Hb H;
    simpl in H.
  - destruct (_ && _); [|by apply elem_of_nil in H].
    apply list_elem_of_singleton in H. subst g. by exists lineNo.
  - destruct ((lineNo =? line (start (loc token)))%nat) eqn:Hline; simpl in H.
    { apply Nat.eqb_eq in Hline. eapply IH; [|exact H].
      apply Forall_app. split; [by rewrite <- Hline | by repeat constructor]. }
    destruct buffer as [|first more]; simpl in H.
    { eapply IH; [|exact H]. by repeat constructor. }
    destruct (isCommentToken first && _).
    + eapply IH; [|exact H]. by repeat constructor.
    + apply elem_of_cons in H as [->|H]; [by exists lineNo|].
      eapply IH; [|exact H]. by repeat constructor.
Qed.

(** The tokens of a group all start on one line. *)
Theorem iterateLineTokens_one_line sourceCode isNotWhitespace node g :
  g ∈ iterateLineTokens sourceCode isNotWhitespace node ->
  exists ln, Forall (fun t => line (start (loc t)) = ln) (tokens g).
Proof. apply iterateLineTokens_loop_same_line. constructor. Qed.

Lemma iterateLineTokens_one_line_witness :
  let g := {| prevComments := [ex_c1; ex_c2]; tokens := [ex_y4; ex_eq4] |} in
  g ∈ iterateLineTokens ex_comment_sourceCode (fun _ => true) ex_program /\
  exists ln, Forall (fun t => line (start (loc t)) = ln) (tokens g).
Proof.
  intros g.
  assert (g ∈ iterateLineTokens ex_comment_sourceCode (fun _ => true) ex_program)
    as Hin by (right; left).
  split; [exact Hin|].
  exact (iterateLineTokens_one_line ex_comment_sourceCode (fun _ => true)
           ex_program g Hin).
Defined.

Lemma iterateLineTokens_loop_comments_only rest lineNo pending buffer :
  forallb isCommentToken rest = true -> forallb isCommentToken buffer = true ->
  iterateLineTokens_loop rest lineNo pending buffer = [].
Proof.
  revert lineNo pending buffer.
  induction rest as [|token rest IH]; intros lineNo pending buffer Hr Hb; simpl.
  - by rewrite Hb, andb_false_r.
  - simpl in Hr. apply andb_true_iff in Hr as [Ht Hr].
    destruct (_ || _).
    { apply IH; [done|]. rewrite forallb_app, Hb. simpl. by rewrite Ht. }
    destruct buffer as [|first more].
    { apply IH; [done|]. simpl. by rewrite Ht. }
    rewrite Hb. simpl in Hb. apply andb_true_iff in Hb as [-> _]. simpl.
    apply IH; [done|]. simpl. by rewrite Ht.
Qed.

(** For a program whose tokens, white space left out, are all comments (or
    that has none), the walker yields nothing and ["Program:exit"] returns
    with the state as it was: comments that no code line follows are not
    validated. *)
Theorem Program_exit_comments_only options sourceCode isNotWhitespace fuel
    node st :
  forallb isCommentToken
    (filter (fun t => Is_true (isNotWhitespace t))
       (getTokens sourceCode node true)) = true ->
  iterateLineTokens sourceCode isNotWhitespace node = [] /\
  Program_exit options sourceCode isNotWhitespace fuel node st = Done tt st.
Proof.
  intros H.
  assert (iterateLineTokens sourceCode isNotWhitespace node = []) as Hnil
    by (by apply iterateLineTokens_loop_comments_only).
  split; [exact Hnil|]. unfold Program_exit. by rewrite Hnil.
Qed.

(** A file of two badly indented comment lines. *)
Definition ex_comments_only_sourceCode : SourceCode :=
  {| lines := [ "    // one"; "  /* two */" ];
     getIndexFromLoc := fun p =>
       match line p with 1 => column p | _ => 11 + column p end%nat;
     getTokens := fun _ includeComments =>
       if includeComments
       then [ex_token "Line" 1 4 6 4; ex_token "Block" 2 2 9 13]
       else [];
     stringLimit := 2 ^ 29 - 24 |}.

Lemma Program_exit_comments_only_witness :
  Program_exit ex_options ex_comments_only_sourceCode (fun _ => true) 2
    ex_program initial_state = Done tt initial_state.
Proof.
  apply (Program_exit_comments_only ex_options ex_comments_only_sourceCode
           (fun _ => true) 2 ex_program initial_state).
  reflexivity.
Defined.

(** ** More on the resolver *)

(** On a set of tokens that each have an uncached relative entry with its
    base token in the set (a cycle, or a path into one) the resolver does
    not return, whatever fuel it is given: the recursion of the source has
    no end there. *)
Theorem resolver_does_not_return_on_cycle options st (cyclic : Token -> Prop) :
  (forall t, cyclic t ->
     exists b o, offsets st !! t = Some (Relative b o None) /\ cyclic b) ->
  forall n t, cyclic t ->
    getExpectedIndentFromToken options n t st = OutOfFuel.
Proof.
  intros Hc n. unfold getExpectedIndentFromToken.
  induction n as [|n IH]; intros t Ht; [reflexivity|].
  simpl. unfold mbind, M_bind, offsets_get.
  destruct (Hc t Ht) as (b & o & -> & Hb). by rewrite (IH b Hb).
Qed.

Lemma resolver_does_not_return_on_cycle_witness :
  let st := ex_state (<[ex_y := Relative ex_if 1 None]>
                        (<[ex_if := Relative ex_y 0 None]> ∅)) ∅ in
  getExpectedIndentFromToken ex_options 100 ex_y st = OutOfFuel.
Proof.
  intros st.
  apply (resolver_does_not_return_on_cycle ex_options st
           (fun t => t = ex_if \/ t = ex_y)); [|by right].
  intros t [->| ->].
  - exists ex_y, 0. split; [reflexivity | by right].
  - exists ex_if, 1. split; [reflexivity | by left].
Defined.

(** Within the safe integers the resolver computes exactly. When the indent
    unit is the integer [s], every offset of the graph is an integer of
    absolute value at most [K], every cached value is an integer multiple of
    [s] of absolute value at most [C], and [C + n * K * |s|] is a safe
    integer, an expected indent that the resolver returns with a recursion
    of depth at most [n] is an integer multiple of [s], of absolute value at
    most [C + n * K * |s|]. *)
Theorem resolved_indent_is_multiple options n t st st' v (s K C : Z) :
  indentSize options = Finite s ->
  (forall u info,
     offsets st !! u = Some info ->
     exists o : Z, offset_of info = Finite o /\ Z.abs o <= K) ->
  (forall u info c,
     offsets st !! u = Some info -> expectedIndent_of info = Some c ->
     exists z : Z, c = Finite z /\ Z.abs z <= C /\ (s | z)) ->
  0 <= C -> C + Z.of_nat n * (K * Z.abs s) <= MAX_SAFE_INTEGER ->
  getExpectedIndentFromToken options n t st = Done (Some v) st' ->
  exists z : Z,
    v = Finite z /\ (s | z) /\ Z.abs z <= C + Z.of_nat n * (K * Z.abs s).
Proof.
  intros Hs Hoff Hcache HC. unfold getExpectedIndentFromToken.
  revert t v st'. induction n as [|n IH]; intros t v st' Hsafe H;
    [discriminate|].
  simpl in H. unfold mbind, M_bind, offsets_get in H.
  destruct (offsets st !! t) as [info|] eqn:Ht; [|discriminate].
  destruct (Hoff t info Ht) as (o & Ho & HK).
  assert (Z.abs (o * s) <= K * Z.abs s) as Hprod.
  { rewrite Z.abs_mul. apply Z.mul_le_mono_nonneg_r; lia. }
  assert (0 <= K * Z.abs s) as Hstep by lia.
  destruct info as [b o' [e|]|o' [e|]]; simpl in Ho; subst o'.
  - inversion H; subst.
    destruct (Hcache t _ v Ht eq_refl) as (z & -> & Hz & Hd).
    exists z. split; [done|]. split; [done|]. lia.
  - destruct (getExpectedIndentFromToken_rec options n b st)
      as [[bi|] s1| |] eqn:Hb; try discriminate.
    inversion H; subst.
    apply IH in Hb as (zb & -> & Hd & Hzb); [|lia].
    rewrite Hs, Number_mul_exact by lia.
    rewrite Number_add_exact by lia.
    exists (zb + o * s). split; [done|]. split; [|lia].
    apply Z.divide_add_r; [exact Hd | apply Z.divide_factor_r].
  - inversion H; subst.
    destruct (Hcache t _ v Ht eq_refl) as (z & -> & Hz & Hd).
    exists z. split; [done|]. split; [done|]. lia.
  - inversion H; subst. rewrite Hs, Number_mul_exact by lia.
    exists (o * s). split; [done|]. split; [apply Z.divide_factor_r | lia].
Qed.

Lemma resolved_indent_is_multiple_witness :
  exists z : Z, Finite 2 = Finite z /\ (2 | z) /\ Z.abs z <= 0 + 2 * (1 * 2).
Proof.
  apply (resolved_indent_is_multiple ex_options 2 ex_y (ex_state ex_graph ∅)
           (ex_state ex_graph ∅) 2 2 1 0);
    [reflexivity| | |lia|vm_compute; discriminate|reflexivity].
  - intros u info Hu. unfold ex_state, ex_graph in Hu. simpl in Hu.
    rewrite lookup_insert in Hu.
    case_decide; [simplify_eq; exists 1; simpl; split; [done|lia]|].
    rewrite lookup_insert in Hu.
    case_decide; [simplify_eq; exists 0; simpl; split; [done|lia]|].
    by rewrite lookup_empty in Hu.
  - intros u info c Hu Hc. exfalso.
    unfold ex_state, ex_graph in Hu. simpl in Hu.
    rewrite lookup_insert in Hu. case_decide; [by simplify_eq|].
    rewrite lookup_insert in Hu. case_decide; [by simplify_eq|].
    by rewrite lookup_empty in Hu.
Defined.

(** ** The validation pass returns, or the fix of a width report throws *)





Section PassReturns.

Variable options : IndentOptions.
Variable sourceCode : SourceCode.
Variable isNotWhitespace : Token -> bool.
Variable fuel : nat.
Variable rank : Token -> nat.
Hypothesis rank_below_fuel : forall t, (rank t < fuel)%nat.






End PassReturns.




(** ** The expected indent of a line *)

(** The resolution of a line gives an expected indent exactly when some
    token of the line resolves to it while no token before it is ignored or
    resolves, and the token itself is not ignored: the first token that
    resolves decides, and an ignored token before it hides it. *)
Theorem getExpectedIndentFromTokens_first_resolving options fuel tokens st e :
  getExpectedIndentFromTokens options fuel tokens st = Done (Some e) st <->
  exists pre t post,
    tokens = pre ++ t :: post /\
    (t ∉ ignoreTokens st) /\
    getExpectedIndentFromToken options fuel t st = Done (Some e) st /\
    forall u, u ∈ pre ->
      (u ∉ ignoreTokens st) /\
      getExpectedIndentFromToken options fuel u st = Done None st.
Proof.
  split.
  - induction tokens as [|t ts IH]; simpl; [discriminate|].
    unfold mbind, M_bind, ignoreTokens_has.
    destruct (bool_decide (t ∈ ignoreTokens st)) eqn:Hign; [discriminate|].
    apply bool_decide_eq_false in Hign.
    destruct (getExpectedIndentFromToken options fuel t st) as [[v|] s| |] eqn:Ht;
      try discriminate;
      pose proof (getExpectedIndentFromToken_rec_read_only _ _ _ _ _ _ Ht);
      subst s.
    + intros Heq. inversion Heq; subst v. exists [], t, ts. split; [reflexivity|].
      split; [exact Hign|]. split; [exact Ht|].
      intros u Hu. by apply elem_of_nil in Hu.
    + intros H. destruct (IH H) as (pre & t' & post & -> & Hi & Hr & Hpre).
      exists (t :: pre), t', post. split; [reflexivity|].
      split; [exact Hi|]. split; [exact Hr|].
      intros u [->|Hu]%elem_of_cons; [done | by apply Hpre].
  - intros (pre & t & post & -> & Hi & Hr & Hpre).
    induction pre as [|u pre IH]; simpl.
    + unfold mbind, M_bind, ignoreTokens_has.
      rewrite bool_decide_false by done. by rewrite Hr.
    + unfold mbind, M_bind, ignoreTokens_has.
      destruct (Hpre u) as [Hu Hn]; [by left|].
      rewrite bool_decide_false by done. rewrite Hn.
      apply IH. intros v Hv. apply Hpre. by right.
Qed.

Lemma getExpectedIndentFromTokens_first_resolving_witness :
  let st := ex_state ex_graph ∅ in
  getExpectedIndentFromTokens ex_options 2 [ex_brace; ex_y; ex_eq] st
  = Done (Some (Finite 2)) st.
Proof.
  intros st.
  apply (getExpectedIndentFromTokens_first_resolving ex_options 2
           [ex_brace; ex_y; ex_eq] st 2).
  exists [ex_brace], ex_y, [ex_eq]. split; [reflexivity|].
  split; [apply not_elem_of_empty|]. split; [reflexivity|].
  intros u Hu. split; [apply not_elem_of_empty|].
  apply list_elem_of_singleton in Hu. by subst u.
Defined.

(** * The markdown-it rule that injects component imports

    A shallow embedding of
    [docs-svelte-kit/tools/markdown-it-auto-inject-components.mjs]. A
    markdown-it token is its [type], [content] and [children] (null or an
    array); a JavaScript [Set] is the list of its elements in insertion
    order; the two regular expressions are scanners that return the first
    capture of the leftmost match, as [exec] does. *)

#[local] Unset Elimination Schemes.
Inductive MdToken :=
| mkMdToken (md_type : string) (content : string)
            (children : option (list MdToken)).
#[local] Set Elimination Schemes.

Definition md_type (t : MdToken) : string :=
  match t with mkMdToken ty _ _ => ty end.

Definition content (t : MdToken) : string :=
  match t with mkMdToken _ c _ => c end.

Definition children (t : MdToken) : option (list MdToken) :=
  match t with mkMdToken _ _ cs => cs end.

(** [A-Z]. *)
Definition isUpper (c : ascii) : bool :=
  let n := nat_of_ascii c in ((65 <=? n) && (n <=? 90))%nat.

(** A word character: a letter, a digit or the underscore. *)
Definition isWordChar (c : ascii) : bool :=
  let n := nat_of_ascii c in
  (((65 <=? n) && (n <=? 90)) || ((97 <=? n) && (n <=? 122))
   || ((48 <=? n) && (n <=? 57)) || (n =? 95))%nat.

(** A word character or [$]. *)
Definition isNameChar (c : ascii) : bool :=
  isWordChar c || (nat_of_ascii c =? 36)%nat.

(** A word character, [$] or a dot. *)
Definition isPathChar (c : ascii) : bool :=
  isNameChar c || (nat_of_ascii c =? 46)%nat.

(** The longest prefix of characters of a class: a greedy starred class. *)
Fixpoint takeWhileChar (p : ascii -> bool) (s : string) : string :=
  match s with
  | EmptyString => EmptyString
  | String c s' => if p c then String c (takeWhileChar p s') else EmptyString
  end.

(** What follows [p] in [s], when [s] starts with [p]. *)
Fixpoint dropPrefix (p s : string) : option string :=
  match p, s with
  | EmptyString, _ => Some s
  | String a p', String b s' => if Ascii.eqb a b then dropPrefix p' s' else None
  | String _ _, EmptyString => None
  end.

(** [s.startsWith(p)]. *)
Definition startsWith (s p : string) : bool :=
  match dropPrefix p s with Some _ => true | None => false end.

(** A match of the import expression at the start of [s]: the word
    [import], white space, a capital letter and path characters. The greedy
    white space takes all there is, and no shorter run of it can be followed
    by a capital letter, so there is nothing to backtrack to. *)
Definition match_import_here (s : string) : option string :=
  match dropPrefix "import" s with
  | Some (String c rest) =>
      if isWhiteSpace c then
        match trimStart rest with
        | String u rest' =>
            if isUpper u then Some (String u (takeWhileChar isPathChar rest'))
            else None
        | EmptyString => None
        end
      else None
  | _ => None
  end.

(** [exec] of the import expression on [s], as [match[1]]: the capture
    of the leftmost match. *)
Fixpoint exec_import (s : string) : option string :=
  match match_import_here s with
  | Some m => Some m
  | None =>
      match s with
      | EmptyString => None
      | String _ s' => exec_import s'
      end
  end.

Definition match_component_here (s : string) : option string :=
  match s with
  | String lt (String u rest) =>
      if Ascii.eqb lt "<" && isUpper u
      then Some (String u (takeWhileChar isNameChar rest))
      else None
  | _ => None
  end.

(** [exec] of the component expression, [<], a capital letter and name
    characters, on [s], as [match[1]]. *)
Fixpoint exec_component (s : string) : option string :=
  match match_component_here s with
  | Some m => Some m
  | None =>
      match s with
      | EmptyString => None
      | String _ s' => exec_component s'
      end
  end.

Definition isHtml (t : MdToken) : bool :=
  String.eqb (md_type t) "html_inline" || String.eqb (md_type t) "html_block".

(** The generator [extractInjectedComponents], as the list of what it
    yields. *)
Fixpoint extractInjectedComponents_token (t : MdToken) : list string :=
  match t with
  | mkMdToken ty c cs =>
      (if isHtml (mkMdToken ty c cs) && startsWith (trim c) "<script"
       then option_list (exec_import c) else [])
      ++ match cs with
         | Some l => flat_map extractInjectedComponents_token l
         | None => []
         end
  end.

Definition extractInjectedComponents (tokens : list MdToken) : list string :=
  flat_map extractInjectedComponents_token tokens.

(** The generator [extractComponents]; [injected] is the set it consults. *)
Fixpoint extractComponents_token (injected : list string) (t : MdToken)
    : list string :=
  match t with
  | mkMdToken ty c cs =>
      (if isHtml (mkMdToken ty c cs)
       then match exec_component c with
            | Some m => if bool_decide (m ∈ injected) then [] else [m]
            | None => []
            end
       else [])
      ++ match cs with
         | Some l => flat_map (extractComponents_token injected) l
         | None => []
         end
  end.

Definition extractComponents (tokens : list MdToken) (injected : list string)
    : list string :=
  flat_map (extractComponents_token injected) tokens.

(** [set.add(x)]. *)
Definition Set_add (set : list string) (x : string) : list string :=
  if bool_decide (x ∈ set) then set else set ++ [x].

(** [new Set(iterable)]. *)
Definition Set_from (l : list string) : list string := fold_left Set_add l [].

Definition newline : ascii := ascii_of_nat 10.

(** The content of the token made for a component. *)
Definition import_script (component : string) : string :=
  "<script>" +:+ String newline
    ("import " +:+ component +:+ " from '$lib/components/" +:+ component
       +:+ ".svelte'" +:+ String newline "</script>").

Definition newToken (component : string) : MdToken :=
  mkMdToken "auto_inject_component" (import_script component) None.

(** The core rule [auto_inject_components] on [state.tokens]. *)
Definition auto_inject_components (tokens : list MdToken) : list MdToken :=
  let injected := Set_from (extractInjectedComponents tokens) in
  fold_left (fun tokens component => newToken component :: tokens)
    (Set_from (extractComponents tokens injected)) tokens.

(** ** Properties of the rule *)

(** Induction on a token and, through [children], on the tokens below. *)
Lemma MdToken_tree_ind (P : MdToken -> Prop) :
  (forall ty c, P (mkMdToken ty c None)) ->
  (forall ty c l, Forall P l -> P (mkMdToken ty c (Some l))) ->
  forall t, P t.
Proof.
  intros Hleaf Hnode. fix IH 1. intros [ty c [l|]]; [|apply Hleaf].
  apply Hnode. induction l as [|x l IHl]; constructor; [apply IH | exact IHl].
Qed.

Lemma Set_add_all_spec l acc :
  NoDup acc ->
  NoDup (fold_left Set_add l acc) /\
  forall x, x ∈ fold_left Set_add l acc <-> x ∈ acc \/ x ∈ l.
Proof.
  revert acc. induction l as [|y l IH]; intros acc Hnd; simpl.
  - split; [exact Hnd|]. intros x. rewrite elem_of_nil. tauto.
  - unfold Set_add at 2 4. case_bool_decide as Hy.
    + destruct (IH acc Hnd) as [H1 H2]. split; [exact H1|]. intros x.
      rewrite H2, elem_of_cons. split; [tauto|]. intros [?|[->|?]]; tauto.
    + assert (NoDup (acc ++ [y])) as Hnd'.
      { apply NoDup_app. split; [exact Hnd|]. split; [|apply NoDup_singleton].
        intros x Hx ->%list_elem_of_singleton. done. }
      destruct (IH _ Hnd') as [H1 H2]. split; [exact H1|]. intros x.
      rewrite H2, elem_of_app, list_elem_of_singleton, elem_of_cons. tauto.
Qed.

(** A set made from a list has the elements of the list, each once. *)
Lemma Set_from_spec l :
  NoDup (Set_from l) /\ forall x, x ∈ Set_from l <-> x ∈ l.
Proof.
  destruct (Set_add_all_spec l [] (NoDup_nil_2)) as [H1 H2].
  split; [exact H1|]. intros x. rewrite H2, elem_of_nil. tauto.
Qed.

Lemma unshift_all comps tokens :
  fold_left (fun tokens component => newToken component :: tokens) comps tokens
  = rev (map newToken comps) ++ tokens.
Proof.
  revert tokens. induction comps as [|c comps IH]; intros tokens; simpl.
  - reflexivity.
  - rewrite IH. by rewrite <- app_assoc.
Qed.

Lemma elem_of_flat_map {A B} (f : A -> list B) l y :
  y ∈ flat_map f l <-> exists x, x ∈ l /\ y ∈ f x.
Proof.
  rewrite !list_elem_of_In, in_flat_map. split.
  - intros (x & Hx & Hy). exists x. by rewrite !list_elem_of_In.
  - intros (x & Hx & Hy). exists x. by rewrite <- !list_elem_of_In.
Qed.

Lemma extractComponents_token_not_injected injected t c :
  c ∈ extractComponents_token injected t -> c ∉ injected.
Proof.
  revert c. induction t as [ty s|ty s l IH] using MdToken_tree_ind;
    intros c; simpl; rewrite elem_of_app.
  - intros [H|H]; [|by apply elem_of_nil in H].
    destruct (isHtml _); [|by apply elem_of_nil in H].
    destruct (exec_component s) as [m|]; [|by apply elem_of_nil in H].
    case_bool_decide; [by apply elem_of_nil in H|].
    apply list_elem_of_singleton in H. by subst.
  - intros [H|H].
    + destruct (isHtml _); [|by apply elem_of_nil in H].
      destruct (exec_component s) as [m|]; [|by apply elem_of_nil in H].
      case_bool_decide; [by apply elem_of_nil in H|].
      apply list_elem_of_singleton in H. by subst.
    + apply elem_of_flat_map in H as (x & Hx & Hc).
      rewrite Forall_forall in IH. by apply (IH x Hx).
Qed.

(** The distinct elements of a list, in the order in which each occurs
    first. *)
Fixpoint first_occurrences (l : list string) : list string :=
  match l with
  | [] => []
  | x :: l' => x :: filter (fun y => y <> x) (first_occurrences l')
  end.

Lemma Set_add_all_first_occurrences l acc :
  fold_left Set_add l acc
  = acc ++ filter (fun x => x ∉ acc) (first_occurrences l).
Proof.
  revert acc. induction l as [|y l IH]; intros acc; simpl.
  - by rewrite app_nil_r.
  - rewrite IH. unfold Set_add. case_bool_decide as Hy.
    + rewrite filter_cons_False by (by intros H).
      f_equal. rewrite list_filter_filter. apply list_filter_iff.
      intros x. split; [|tauto]. intros Hx. split; [done|]. by intros ->.
    + rewrite filter_cons_True by done. rewrite <- app_assoc. simpl.
      do 2 f_equal. rewrite list_filter_filter. apply list_filter_iff.
      intros x. rewrite elem_of_app, list_elem_of_singleton. tauto.
Qed.

(** A [Set] iterates in insertion order: the order of first occurrence. *)
Lemma Set_from_first_occurrences l : Set_from l = first_occurrences l.
Proof.
  unfold Set_from. rewrite Set_add_all_first_occurrences. simpl.
  induction (first_occurrences l) as [|x X IH]; [done|].
  rewrite filter_cons_True by apply not_elem_of_nil. by rewrite IH.
Qed.

(** What the rule does to the tokens: it puts one new token in front for
    each component found, the last found first, and keeps the tokens it was
    given behind them. The components are those that the component
    expression finds in the html tokens, each once, in the order in which
    each is found first, and none of them is among the imports found in the
    script tokens; the new tokens stand in the reverse of this order, so
    that the token of the component found first of all is the one next to
    the tokens that were given. *)
Theorem auto_inject_components_result tokens :
  let injected := Set_from (extractInjectedComponents tokens) in
  let found := extractComponents tokens injected in
  let comps := first_occurrences found in
  auto_inject_components tokens = rev (map newToken comps) ++ tokens /\
  NoDup comps /\
  (forall c, c ∈ comps <-> c ∈ found) /\
  (forall c, c ∈ comps -> c ∉ extractInjectedComponents tokens) /\
  (forall c rest,
     found = c :: rest ->
     exists front,
       auto_inject_components tokens = front ++ newToken c :: tokens).
Proof.
  intros injected found comps.
  assert (comps = Set_from found) as Hcomps
    by (symmetry; apply Set_from_first_occurrences).
  destruct (Set_from_spec found) as [Hnd Hin]. rewrite <- Hcomps in Hnd, Hin.
  assert (auto_inject_components tokens = rev (map newToken comps) ++ tokens)
    as Hrun.
  { unfold auto_inject_components. fold injected found.
    rewrite <- Hcomps. apply unshift_all. }
  split; [exact Hrun|]. split; [exact Hnd|]. split; [exact Hin|]. split.
  - intros c Hc%Hin. apply elem_of_flat_map in Hc as (t & _ & Hc).
    apply extractComponents_token_not_injected in Hc.
    intros Hinj. apply Hc. by apply Set_from_spec.
  - intros c rest Hfound. rewrite Hrun. unfold comps. rewrite Hfound. simpl.
    eexists. by rewrite <- app_assoc.
Qed.

(** Two components, [Foo] found before [Bar]: the token of [Bar] comes
    first. *)
Lemma auto_inject_components_order :
  let tokens := [ mkMdToken "html_block" "<Foo/>" None;
                  mkMdToken "html_inline" "<Bar/>" None;
                  mkMdToken "html_inline" "<Foo/>" None ] in
  auto_inject_components tokens = newToken "Bar" :: newToken "Foo" :: tokens.
Proof. vm_compute. reflexivity. Qed.

Fixpoint allChars (p : ascii -> bool) (s : string) : bool :=
  match s with
  | EmptyString => true
  | String c s' => p c && allChars p s'
  end.

(** A capital letter followed by name characters. *)
Definition componentName (c : string) : bool :=
  match c with
  | String u r => isUpper u && allChars isNameChar r
  | EmptyString => false
  end.

Lemma allChars_takeWhileChar p s : allChars p (takeWhileChar p s) = true.
Proof.
  induction s as [|c s IH]; simpl; [done|].
  destruct (p c) eqn:Hc; simpl; [by rewrite Hc | done].
Qed.

Lemma takeWhileChar_stop p r d x :
  allChars p r = true -> p d = false ->
  takeWhileChar p (r +:+ String d x) = r.
Proof.
  intros Hr Hd. induction r as [|c r IH]; simpl in *.
  - by rewrite Hd.
  - apply andb_true_iff in Hr as [-> Hr]. by rewrite IH.
Qed.

Lemma allChars_impl (p q : ascii -> bool) s :
  (forall c, p c = true -> q c = true) -> allChars p s = true ->
  allChars q s = true.
Proof.
  intros Hpq. induction s as [|c s IH]; simpl; [done|].
  intros [Hc Hs]%andb_true_iff. by rewrite (Hpq c Hc), IH.
Qed.

Lemma isUpper_not_white c : isUpper c = true -> isWhiteSpace c = false.
Proof.
  destruct c as [[] [] [] [] [] [] [] []]; try discriminate; reflexivity.
Qed.

Lemma exec_component_name s m : exec_component s = Some m -> componentName m = true.
Proof.
  induction s as [|a s IH]; simpl; [discriminate|].
  destruct s as [|u rest]; [by simpl|].
  destruct (Ascii.eqb a "<" && isUpper u) eqn:Hm.
  - intros [= <-]. simpl. apply andb_true_iff in Hm as [_ ->].
    by rewrite allChars_takeWhileChar.
  - exact IH.
Qed.

Lemma extractComponents_token_names injected t c :
  c ∈ extractComponents_token injected t -> componentName c = true.
Proof.
  revert c. induction t as [ty s|ty s l IH] using MdToken_tree_ind;
    intros c; simpl; rewrite elem_of_app.
  - intros [H|H]; [|by apply elem_of_nil in H].
    destruct (isHtml _); [|by apply elem_of_nil in H].
    destruct (exec_component s) as [m|] eqn:Hm; [|by apply elem_of_nil in H].
    case_bool_decide; [by apply elem_of_nil in H|].
    apply list_elem_of_singleton in H. subst. by eapply exec_component_name.
  - intros [H|H].
    + destruct (isHtml _); [|by apply elem_of_nil in H].
      destruct (exec_component s) as [m|] eqn:Hm; [|by apply elem_of_nil in H].
      case_bool_decide; [by apply elem_of_nil in H|].
      apply list_elem_of_singleton in H. subst. by eapply exec_component_name.
    + apply elem_of_flat_map in H as (x & Hx & Hc).
      rewrite Forall_forall in IH. by apply (IH x Hx).
Qed.

Lemma append_String a s t : String a s +:+ t = String a (s +:+ t).
Proof. reflexivity. Qed.

Lemma append_EmptyString t : EmptyString +:+ t = t.
Proof. reflexivity. Qed.

Lemma exec_import_next a s :
  match_import_here (String a s) = None ->
  exec_import (String a s) = exec_import s.
Proof. intros H. simpl exec_import. by rewrite H. Qed.

Lemma exec_import_here s m :
  match_import_here s = Some m -> exec_import s = Some m.
Proof.
  intros H. destruct s; [discriminate H|]. simpl exec_import. by rewrite H.
Qed.

Lemma exec_import_import_script c :
  componentName c = true -> exec_import (import_script c) = Some c.
Proof.
  destruct c as [|u r]; [discriminate|]. cbn [componentName].
  intros [Hu Hr]%andb_true_iff.
  unfold import_script.
  set (tail := " from '$lib/components/" +:+ String u r +:+ ".svelte'"
               +:+ String newline "</script>").
  rewrite !append_String, !append_EmptyString.
  do 9 (rewrite exec_import_next by reflexivity).
  apply exec_import_here. unfold match_import_here.
  cbn [dropPrefix Ascii.eqb Bool.eqb andb].
  replace (isWhiteSpace " ") with true by reflexivity.
  cbn [trimStart]. rewrite (isUpper_not_white u Hu), Hu. f_equal. f_equal.
  apply takeWhileChar_stop; [|reflexivity].
  eapply allChars_impl; [|exact Hr]. intros a Ha. unfold isPathChar.
  by rewrite Ha.
Qed.

Fixpoint lastChar (s : string) : option ascii :=
  match s with
  | EmptyString => None
  | String c s' =>
      match s' with
      | EmptyString => Some c
      | String _ _ => lastChar s'
      end
  end.

Lemma rev_app_lastChar s t d :
  lastChar s = Some d -> exists x, String.rev_app s t = String d x.
Proof.
  revert t. induction s as [|a s IH]; intros t H; [discriminate|].
  destruct s as [|b s].
  - injection H as <-. by exists t.
  - apply (IH (String a t)). exact H.
Qed.

Lemma rev_app_rev_app s t :
  String.rev_app (String.rev_app s t) EmptyString = String.rev_app t s.
Proof.
  revert t. induction s as [|a s IH]; intros t; simpl; [reflexivity|].
  by rewrite IH.
Qed.

Lemma lastChar_append_r a b d :
  lastChar b = Some d -> lastChar (a +:+ b) = Some d.
Proof.
  intros Hb. induction a as [|x a IH]; [exact Hb|].
  rewrite append_String. simpl. destruct (a +:+ b); [discriminate IH | exact IH].
Qed.

(** [trim] leaves a string that neither starts nor ends with white space. *)
Lemma trim_id c s d :
  isWhiteSpace c = false -> lastChar (String c s) = Some d ->
  isWhiteSpace d = false -> trim (String c s) = String c s.
Proof.
  intros Hc Hlast Hd. unfold trim. simpl trimStart at 2. rewrite Hc.
  unfold String.rev at 2.
  destruct (rev_app_lastChar (String c s) EmptyString d Hlast) as [x Hx].
  rewrite Hx. simpl trimStart. rewrite Hd. rewrite <- Hx.
  unfold String.rev. by rewrite rev_app_rev_app.
Qed.

(** The script written for a component found by the rule is one that the
    rule reads back as the import of that component: in an html token, its
    content passes the test for scripts and the import expression captures
    the component. *)
Theorem injected_script_reads_back tokens injected c :
  c ∈ extractComponents tokens injected ->
  extractInjectedComponents_token (mkMdToken "html_block" (import_script c) None)
  = [c].
Proof.
  intros Hc. apply elem_of_flat_map in Hc as (t & _ & Hc).
  apply extractComponents_token_names in Hc.
  assert (trim (import_script c) = import_script c) as Htrim.
  { unfold import_script. rewrite !append_String.
    apply (trim_id _ _ ">"); [reflexivity| |reflexivity].
    rewrite <- !append_String.
    change (String "<" "script>") with "<script>".
    repeat (apply lastChar_append_r || apply (lastChar_append_r (String _ _))).
    reflexivity. }
  cbn [extractInjectedComponents_token]. rewrite Htrim.
  rewrite (exec_import_import_script c Hc).
  assert (startsWith (import_script c) "<script" = true) as ->
    by reflexivity.
  reflexivity.
Qed.

Lemma injected_script_reads_back_witness :
  "Bar" ∈ extractComponents [mkMdToken "html_inline" "<Bar a=1>" None] [] /\
  extractInjectedComponents_token
    (mkMdToken "html_block" (import_script "Bar") None) = ["Bar"].
Proof.
  assert ("Bar" ∈ extractComponents [mkMdToken "html_inline" "<Bar a=1>" None] [])
    as Hin by (by left).
  split; [exact Hin|].
  exact (injected_script_reads_back _ _ _ Hin).
Defined.

Lemma flat_map_nil {A B} (f : A -> list B) l :
  (forall x, x ∈ l -> f x = []) -> flat_map f l = [].
Proof.
  induction l as [|x l IH]; intros H; simpl; [reflexivity|].
  rewrite (H x) by (by left). apply IH. intros y Hy. apply H. by right.
Qed.

Lemma newTokens_yield_nothing (f : MdToken -> list string) comps :
  (forall c, f (newToken c) = []) ->
  flat_map f (rev (map newToken comps)) = [].
Proof.
  intros Hf. apply flat_map_nil. intros t Ht.
  apply list_elem_of_In in Ht. apply in_rev in Ht. apply list_elem_of_In in Ht.
  apply list_elem_of_fmap in Ht as (c & -> & _). apply Hf.
Qed.

(** The rule does not see what it injected: the new tokens are no html
    tokens, so they count neither as imports nor as uses. Applied to its own
    result, it injects every component once more. *)
Theorem auto_inject_components_twice tokens :
  let comps :=
    Set_from (extractComponents tokens
                (Set_from (extractInjectedComponents tokens))) in
  auto_inject_components tokens = rev (map newToken comps) ++ tokens /\
  auto_inject_components (auto_inject_components tokens)
  = rev (map newToken comps) ++ rev (map newToken comps) ++ tokens.
Proof.
  intros comps.
  assert (auto_inject_components tokens = rev (map newToken comps) ++ tokens)
    as H1 by apply unshift_all.
  split; [exact H1|]. rewrite H1 at 1. unfold auto_inject_components at 1.
  rewrite unshift_all.
  assert (extractInjectedComponents (rev (map newToken comps) ++ tokens)
          = extractInjectedComponents tokens) as ->.
  { unfold extractInjectedComponents. rewrite flat_map_app.
    by rewrite newTokens_yield_nothing. }
  assert (forall injected,
            extractComponents (rev (map newToken comps) ++ tokens) injected
            = extractComponents tokens injected) as ->.
  { intros injected. unfold extractComponents. rewrite flat_map_app.
    by rewrite newTokens_yield_nothing. }
  reflexivity.
Qed.

(** A token that is no html token and has none below it. *)
Fixpoint noHtml (t : MdToken) : bool :=
  match t with
  | mkMdToken ty c cs =>
      negb (isHtml (mkMdToken ty c cs))
      && match cs with
         | Some l => forallb noHtml l
         | None => true
         end
  end.

Lemma extractComponents_token_noHtml injected t :
  noHtml t = true -> extractComponents_token injected t = [].
Proof.
  induction t as [ty s|ty s l IH] using MdToken_tree_ind; simpl.
  - rewrite andb_true_r. intros ->%negb_true_iff. reflexivity.
  - intros [->%negb_true_iff Hl]%andb_true_iff. simpl.
    apply flat_map_nil. intros x Hx. rewrite Forall_forall in IH.
    apply IH; [done|]. rewrite forallb_forall in Hl. apply Hl.
    by apply list_elem_of_In.
Qed.

(** Tokens without an html token among them, at any depth, are left as they
    are: nothing is injected. *)
Theorem auto_inject_components_without_html tokens :
  forallb noHtml tokens = true -> auto_inject_components tokens = tokens.
Proof.
  intros H. unfold auto_inject_components.
  assert (forall injected, extractComponents tokens injected = []) as ->;
    [|reflexivity].
  intros injected. apply flat_map_nil. intros t Ht.
  apply extractComponents_token_noHtml. rewrite forallb_forall in H.
  apply H. by apply list_elem_of_In.
Qed.

Lemma auto_inject_components_without_html_witness :
  let tokens :=
    [ mkMdToken "paragraph_open" EmptyString None;
      mkMdToken "inline" "<Bar> as text"
        (Some [mkMdToken "text" "<Bar> as text" None]);
      mkMdToken "paragraph_close" EmptyString None ] in
  auto_inject_components tokens = tokens.
Proof.
  intros tokens. apply auto_inject_components_without_html. reflexivity.
Defined.

(** * Where reports come from *)

(** A handler that returns for every node with the reports as they were. *)
Definition handler_quiet (h : ASTNode -> M unit) : Prop :=
  forall node st, exists st', h node st = Done tt st' /\ reports st' = reports st.

(** All handlers but the one of ["Program:exit"] are quiet. *)
Definition handlers_quiet (visitor : RuleListener) : Prop :=
  forall key h, key <> "Program:exit" -> visitor !! key = Some h -> handler_quiet h.

Section Quiet.

Variable options : IndentOptions.
Variable sourceCode : SourceCode.
Variable isNotWhitespace : Token -> bool.
Variable fuel : nat.

Lemma ignore_quiet : handler_quiet (ignore sourceCode).
Proof.
  intros node st.
  destruct (ignore_spec sourceCode node st) as (st' & H & _ & Hr & _).
  by exists st'.
Qed.

Lemma then_ignore_quiet h :
  handler_quiet h -> handler_quiet (fun node => h node ;; ignore sourceCode node).
Proof.
  intros Hh node st. destruct (Hh node st) as (st1 & H1 & Hr1).
  destruct (ignore_quiet node st1) as (st' & H & Hr).
  exists st'. split; [by rewrite (bind_Done_l _ _ _ _ _ H1) | congruence].
Qed.

Lemma run_handler_quiet calls : handler_quiet (run_handler sourceCode calls).
Proof.
  intros node st. destruct (run_handler_total sourceCode calls node st) as [st' H].
  exists st'. split; [exact H|].
  eapply (preserves_for_of (fun s => reports s = reports st)); [|reflexivity|exact H].
  intros c _. apply run_call_preserves.
  - intros t b o _ s a s' Hs Hd. by done_inv Hd.
  - intros t o s a s' Hs Hd. by done_inv Hd.
  - intros t s a s' Hs Hd. by done_inv Hd.
Qed.

Lemma star_exit_quiet knownNodes : handler_quiet (star_exit sourceCode knownNodes).
Proof.
  intros node st. unfold star_exit. case_decide; [by exists st|].
  apply ignore_quiet.
Qed.

Lemma compositing_step_quiet visitor sel :
  handlers_quiet visitor -> handlers_quiet (compositing_step sourceCode visitor sel).
Proof.
  intros Hv key h Hkey. unfold compositing_step.
  destruct (visitor !! (sel +:+ ":exit")) as [h0|] eqn:Hsel;
    rewrite lookup_insert; case_decide; intros ?; simplify_eq; eauto.
  - apply then_ignore_quiet. by eapply Hv.
  - apply ignore_quiet.
Qed.

Lemma listener_quiet es sv :
  handlers_quiet (listener options sourceCode isNotWhitespace fuel es sv).
Proof.
  unfold listener. rewrite compositingIgnoresVisitor_fold.
  generalize (ignoredNodes options) as sels. intros sels.
  match goal with |- handlers_quiet (fold_left _ _ ?v) =>
    assert (handlers_quiet v) as Hbase; [|revert Hbase; generalize v] end.
  { intros key h Hkey. rewrite lookup_insert_ne by done.
    rewrite lookup_insert. case_decide.
    - intros [= <-]. apply star_exit_quiet.
    - rewrite lookup_fmap. destruct ((sv ∪ es) !! key); intros [= <-].
      apply run_handler_quiet. }
  induction sels as [|sel sels IH]; intros v Hv; simpl; [exact Hv|].
  apply IH. by apply compositing_step_quiet.
Qed.

End Quiet.

(** Reports come from ["Program:exit"] only: a traversal that does not call
    the handler of ["Program:exit"] returns with the reports as they were,
    whatever the handler tables and the ignored selectors are. *)
Theorem only_Program_exit_reports options sourceCode isNotWhitespace fuel
    es sv events st :
  (forall ev, ev ∈ events -> ev.1 <> "Program:exit") ->
  exists st',
    traverse (listener options sourceCode isNotWhitespace fuel es sv) events st
      = Done tt st' /\
    reports st' = reports st.
Proof.
  unfold traverse. revert st.
  induction events as [|[key node] events IH]; intros st Hev; simpl.
  - by exists st.
  - assert (exists s,
      emit (listener options sourceCode isNotWhitespace fuel es sv) (key, node) st
        = Done tt s /\ reports s = reports st) as (s & Hs & Hr).
    { unfold emit. simpl.
      destruct (listener options sourceCode isNotWhitespace fuel es sv !! key)
        as [h|] eqn:Hkey; [|by exists st].
      eapply (listener_quiet options sourceCode isNotWhitespace fuel es sv key h);
        [|exact Hkey].
      apply (Hev (key, node)). by left. }
    rewrite (bind_Done_l _ _ _ _ _ Hs).
    destruct (IH s) as (st' & H' & Hr').
    { intros ev Hin. apply Hev. by right. }
    exists st'. split; [exact H' | congruence].
Qed.

Lemma only_Program_exit_reports_witness :
  exists st',
    traverse (listener ex_options_ignoring ex_sourceCode (fun _ => true) 2
                (ex_ES ex_sourceCode ex_options_ignoring) ∅)
      [("IfStatement", ex_if_node); ("IfStatement:exit", ex_if_node);
       ("*:exit", ex_if_node); ("*:exit", ex_program)] initial_state
      = Done tt st' /\
    reports st' = [].
Proof.
  apply (only_Program_exit_reports ex_options_ignoring ex_sourceCode
           (fun _ => true) 2 (ex_ES ex_sourceCode ex_options_ignoring) ∅).
  intros ev Hin. apply list_elem_of_In in Hin. simpl in Hin.
  repeat (destruct Hin as [<-|Hin]; [discriminate|]). destruct Hin.
Defined.
